(** * spacv: spatial cross-validation splitters, the cross-validation driver,
    the variogram estimator with its spherical model and range fit, and the
    area-of-applicability measure.

    Shallow embedding of [spacv/.ipynb_checkpoints/spacv-checkpoint.py] and
    [spacv/visualisation.py].

    Conventions of the embedding.
    - A Python call either returns or raises: functions that can raise return
      a [result], and [x ← c; k] threads the exception.
    - A generator is modelled by the list of the values it yields when it is
      driven to completion (or by the exception that interrupts it).
    - numpy [float64] values are modelled by exact rationals extended with the
      two infinities and NaN ([float64] below): rounding is not modelled,
      the special values are.
    - Geometry (shapely / geopandas predicates, the KD tree) is an interface,
      [Geometry]; [Planar] is an exact instance used by the examples.
    - The element type of [np.asarray(x)] is read off the input: the variogram
      estimator is defined over a [Dtype], with float64 as above and int64
      with its wrap-around.
    - What the code only hands its data to ([construct_blocks], the model and
      the scorer, [curve_fit]) is a parameter of the definitions. *)

From Stdlib Require Import QArith Qcanon.
From stdpp Require Import base numbers list strings option sorting.

(** ** Exceptions and results *)

Inductive exn :=
| NameError (name : string)
| UnboundLocalError (name : string)
| IndexError
| KeyError
| TypeError
| ValueError
| Exception (msg : string).

Global Instance exn_eq_dec : EqDecision exn.
Proof. solve_decision. Defined.

Inductive result (A : Type) :=
| Ok (a : A)
| Raise (e : exn).
Arguments Ok {A} a.
Arguments Raise {A} e.

Global Instance result_eq_dec {A} `{EqDecision A} : EqDecision (result A).
Proof. solve_decision. Defined.

Global Instance result_ret : MRet result := λ A a, Ok a.
Global Instance result_bind : MBind result :=
  λ A B f m, match m with Ok a => f a | Raise e => Raise e end.

Global Instance result_fmap : FMap result :=
  λ A B f r, match r with Ok a => Ok (f a) | Raise e => Raise e end.

Definition returns {A} (r : result A) : Prop := ∃ a, r = Ok a.

(** Label or position lookup that raises [e] when the entry is missing. *)
Definition lookup_or {A} (e : exn) (l : list A) (i : nat) : result A :=
  match l !! i with Some a => Ok a | None => Raise e end.

(** ** Geometry interface

    The operations the splitters ask of geopandas, shapely and scikit-learn. *)

Class Geometry := {
  point : Type;
  polygon : Type;
  (** shapely [within], the predicate of [gpd.sjoin(..., op='within')] *)
  within : point → polygon → bool;
  (** the predicate by which [gpd.clip] keeps a point of the frame *)
  intersects : point → polygon → bool;
  (** [polygon.centroid] *)
  centroid : polygon → point;
  (** [GeoSeries.buffer(r)] on a tile *)
  buffer : polygon → Qc → polygon;
  (** [point.centroid.buffer(r)]: the disc around a point *)
  point_buffer : point → Qc → polygon;
  (** [KDTree(data).query(p, k=1, return_distance=False)]: the position in
      [data] of the nearest entry *)
  kd_query : list point → point → nat
}.

(** A fold as yielded by the splitters: (test indices, excluded train indices). *)
Definition fold : Type := list nat * list nat.

(** [np.unique]: the sorted distinct values. *)
Definition np_unique (l : list Z) : list Z := merge_sort Z.le (remove_dups l).

(** The rows whose key is [g]: the selection [l[key == g]]. *)
Definition bucket {A} (key : A → option Z) (l : list A) (g : Z) : list A :=
  List.filter (λ x, bool_decide (key x = Some g)) l.

Section Splitters.
Context `{Geometry}.

(** A row of the tile frame returned by [construct_blocks]: its row label is
    its position (a default RangeIndex). *)
Record tile := Tile { tile_grid_id : Z; tile_geometry : polygon }.

(** A row of the point frame after the spatial join. [None] is a missing
    (NaN) [grid_id]. *)
Record row := Row { row_index : nat; row_geometry : point; row_grid_id : option Z }.

Definition isna (r : row) : bool :=
  match row_grid_id r with None => true | Some _ => false end.

(** [gpd.GeoDataFrame({'geometry': X})]: points labelled 0..N-1. *)
Definition GeoDataFrame (X : list point) : list row :=
  imap (λ i p, Row i p None) X.

(** [gpd.sjoin(XYs, grid, how='left', op='within')]: one row per matching
    tile, and one row with a missing [grid_id] for a point without match. *)
Definition sjoin_left_within (XYs : list row) (grid : list tile) : list row :=
  flat_map
    (λ r,
       match List.filter (λ t, within (row_geometry r) (tile_geometry t)) grid with
       | [] => [Row (row_index r) (row_geometry r) None]
       | ts => (λ t, Row (row_index r) (row_geometry r) (Some (tile_grid_id t))) <$> ts
       end)
    XYs.

(** [KDTree(grid_centroid, metric='euclidean')] refuses an empty data set. *)
Definition KDTree (data : list point) : result (list point) :=
  match data with [] => Raise ValueError | _ => Ok data end.

Definition assign_pt_to_grid (XYs : list row) (grid : list tile) : result (list row) :=
  let XYs := sjoin_left_within XYs grid in
  if existsb isna XYs then
    let grid_centroid := (λ t, centroid (tile_geometry t)) <$> grid in
    tree ← KDTree grid_centroid;
    (* XYs.loc[border_pt_index, 'grid_id'] = grid_id, where grid_id holds
       the positions returned by tree.query *)
    mret ((λ r, if isna r
                then Row (row_index r) (row_geometry r)
                         (Some (Z.of_nat (kd_query tree (row_geometry r))))
                else r) <$> XYs)
  else mret XYs.

(** [gpd.clip(XYs, poly)] on a frame of points. *)
Definition clip (XYs : list row) (poly : polygon) : list row :=
  List.filter (λ r, intersects (row_geometry r) poly) XYs.

(** [XYs.loc[XYs['grid_id'] == grid_id].index.values] *)
Definition rows_of_grid (XYs : list row) (grid_id : Z) : list nat :=
  row_index <$> List.filter (λ r, bool_decide (row_grid_id r = Some grid_id)) XYs.

(** [grid.loc[[grid_id]]]: selection by row label. *)
Definition grid_loc (grid : list tile) (grid_id : Z) : result tile :=
  if bool_decide (0 ≤ grid_id)%Z then lookup_or KeyError grid (Z.to_nat grid_id)
  else Raise KeyError.

(** The [grid_id] that the join gives a point: that of the first tile the
    point is within. *)
Definition joined_id (grid : list tile) (p : point) : option Z :=
  match List.filter (λ t, within p (tile_geometry t)) grid with
  | [] => None
  | t :: _ => Some (tile_grid_id t)
  end.

(** The [grid_id] a point holds after [assign_pt_to_grid]. *)
Definition assigned_id (grid : list tile) (p : point) : Z :=
  match joined_id grid p with
  | Some g => g
  | None => Z.of_nat (kd_query ((λ t, centroid (tile_geometry t)) <$> grid) p)
  end.

(** No point is within two tiles. *)
Definition interiors_disjoint (grid : list tile) : Prop :=
  ∀ p, length (List.filter (λ t, within p (tile_geometry t)) grid) ≤ 1.

(** The [grid_id] of every tile is its row position. *)
Definition ids_are_positions (grid : list tile) : Prop :=
  ∀ k t, grid !! k = Some t → tile_grid_id t = Z.of_nat k.

(** The nearest-neighbour query returns a position of its data. *)
Definition kd_query_in_range : Prop :=
  ∀ (data : list point) p, data ≠ [] → kd_query data p < length data.

End Splitters.

Arguments tile {_}.
Arguments row {_}.

Module HBLOCK.
Section HBLOCK.
Context `{Geometry}.

Record t := Build {
  tiles_x : nat;
  tiles_y : nat;
  method : string;
  buffer_radius : Qc;
  direction : string;
  n_groups : nat
}.

(** The constructor with its defaults. *)
Definition __init__ : t := Build 5 5 "unique" 0%Qc "diagonal" 5.

(** [construct_blocks] lives in [spacv.grid_builder]; it is taken as given. *)
Variable construct_blocks :
  list row → nat → nat → string → string → nat → list tile.

(** The body of the loop for one [grid_id]: [None] is [continue]. *)
Definition fold_of_grid (self : t) (XYs : list row) (grid : list tile)
    (grid_id : Z) : result (option fold) :=
  let test_points := rows_of_grid XYs grid_id in
  if bool_decide (length test_points < 1) then mret None
  else if bool_decide (0 < buffer_radius self)%Qc then
    grid_poly ← grid_loc grid grid_id;
    let grid_poly_buffer := buffer (tile_geometry grid_poly) (buffer_radius self) in
    let deadzone_points := clip XYs grid_poly_buffer in
    let hblock_train_exclude :=
      row_index <$>
        List.filter (λ r, negb (bool_decide (row_index r ∈ test_points)))
          deadzone_points in
    mret (Some (test_points, hblock_train_exclude))
  else
    mret (Some (test_points, [])).

Definition _iter_test_indices (self : t) (X : list point) : result (list fold) :=
  let XYs := GeoDataFrame X in
  let grid := construct_blocks XYs (tiles_x self) (tiles_y self) (method self)
                (direction self) (n_groups self) in
  XYs ← assign_pt_to_grid XYs grid;
  let grid_ids := np_unique (tile_grid_id <$> grid) in
  yielded ← mapM (fold_of_grid self XYs grid) grid_ids;
  mret (omap id yielded).

End HBLOCK.
End HBLOCK.

Module SLOO.
Section SLOO.
Context `{Geometry}.

Record t := Build {
  buffer_radius : option Qc;
  shuffle : bool;
  random_state : option Z
}.

Definition __init__ : t := Build None false None.

(** The body of the loop for one [test_index]. *)
Definition fold_of_point (self : t) (X : list point) (test_index : nat)
    : result fold :=
  p ← lookup_or KeyError X test_index;
  (* buffer(None) is a type error *)
  r ← match buffer_radius self with Some r => Ok r | None => Raise TypeError end;
  let loo_buffer := point_buffer p r in
  let sloo_train_exclude := row_index <$> clip (GeoDataFrame X) loo_buffer in
  let sloo_train_exclude :=
    List.filter (λ j, negb (bool_decide (j = test_index))) sloo_train_exclude in
  mret ([test_index], sloo_train_exclude).

(** The excluded set that [fold_of_point] computes for test point [i] when
    the radius is [r]. *)
Definition excluded (X : list point) (r : Qc) (i : nat) : list nat :=
  match X !! i with
  | Some p =>
      List.filter (λ j, negb (bool_decide (j = i)))
        (row_index <$> clip (GeoDataFrame X) (point_buffer p r))
  | None => []
  end.

Definition _iter_test_indices (self : t) (X : list point) : result (list fold) :=
  let sloo_n := length X in
  mapM (fold_of_point self X) (seq 0 sloo_n).

End SLOO.
End SLOO.

(** ** The cross-validation driver *)

(** The names bound at module level in [spacv-checkpoint.py]: its imports
    ([np], [gpd], [make_scorer], [KDTree], [BaseSpatialCV],
    [construct_blocks], [geometry_to_2d]) and its own definitions. *)
Definition module_globals : list string :=
  ["np"; "gpd"; "make_scorer"; "KDTree"; "BaseSpatialCV"; "construct_blocks";
   "geometry_to_2d"; "HBLOCK"; "SLOO"; "cross_val_score"; "assign_pt_to_grid"].

(** The builtins the module mentions. *)
Definition builtins : list string :=
  ["isinstance"; "tuple"; "len"; "range"].

(** Resolution of a global name inside a function body: module globals, then
    builtins, else [NameError]. *)
Definition load_global (name : string) : result () :=
  if bool_decide (name ∈ module_globals ++ builtins) then Ok ()
  else Raise (NameError name).

(** numpy indexing of an array by an array of positions. *)
Definition take_rows {A} (a : list A) (index : list nat) : result (list A) :=
  mapM (lookup_or IndexError a) index.

Section CrossVal.
Context {Model Features Labels Score Coordinates Splitter Scoring : Type}.

(** [model.fit(X, y)] updates the model in place: the model is threaded. *)
Variable fit : Model → list Features → list Labels → Model.
Variable make_scorer : Scoring → Model → list Features → list Labels → Score.
(** [cv.split(coordinates)], driven to completion. *)
Variable split : Splitter → Coordinates → result (list (list nat * list nat)).
(** [sklearn.model_selection.KFold(shuffle, random_state, n_splits)], were the
    name bound. *)
Variable KFold : bool → Z → nat → Splitter.

Fixpoint cv_loop (model : Model) (X : list Features) (y : list Labels)
    (scorer : Model → list Features → list Labels → Score)
    (splits : list (list nat * list nat)) (scores : list Score)
    : result (list Score) :=
  match splits with
  | [] => mret scores
  | (train_index, test_index) :: splits =>
      X_train ← take_rows X train_index;
      y_train ← take_rows y train_index;
      let model := fit model X_train y_train in
      X_test ← take_rows X test_index;
      y_test ← take_rows y test_index;
      cv_loop model X y scorer splits (scores ++ [scorer model X_test y_test])
  end.

Definition cross_val_score (model : Model) (coordinates : Coordinates)
    (X : list Features) (y : list Labels) (cv : option Splitter)
    (scoring : Scoring) : result (list Score) :=
  (* Fallback to (a)spatial CV if None *)
  cv ← match cv with
       | None => _ ← load_global "KFold"; mret (KFold true 0 5)
       | Some cv => mret cv
       end;
  let scorer := make_scorer scoring in
  splits ← split cv coordinates;
  cv_loop model X y scorer splits [].

End CrossVal.

(** ** An exact planar geometry

    Points with rational coordinates; tiles are axis-parallel boxes, as a
    regular grid produces them; buffers are exact (shapely approximates the
    arcs by polygons). *)

Module Planar.

Record pt := Pt { px : Qc; py : Qc }.

Inductive shape :=
| Box (xmin ymin xmax ymax : Qc)
| Disc (c : pt) (r : Qc)
| BoxBuffer (xmin ymin xmax ymax r : Qc).

Definition Qcltb (a b : Qc) : bool := bool_decide (a < b)%Qc.
Definition Qcleb (a b : Qc) : bool := bool_decide (a ≤ b)%Qc.

Definition sq (a : Qc) : Qc := (a * a)%Qc.
Definition dist2 (p q : pt) : Qc := (sq (px p - px q) + sq (py p - py q))%Qc.

(** Distance from a coordinate to an interval, 0 inside. *)
Definition gap (lo hi a : Qc) : Qc :=
  if Qcltb a lo then (lo - a)%Qc else if Qcltb hi a then (a - hi)%Qc else 0%Qc.

(** Interior membership. *)
Definition pt_within (p : pt) (s : shape) : bool :=
  match s with
  | Box x0 y0 x1 y1 =>
      Qcltb x0 (px p) && Qcltb (px p) x1 && Qcltb y0 (py p) && Qcltb (py p) y1
  | Disc c r => Qcltb 0 r && Qcltb (dist2 p c) (sq r)
  | BoxBuffer x0 y0 x1 y1 r =>
      Qcltb 0 r && Qcltb (sq (gap x0 x1 (px p)) + sq (gap y0 y1 (py p)))%Qc (sq r)
  end.

(** Membership in the closed shape. A buffer of radius 0 around a point is
    empty. *)
Definition pt_intersects (p : pt) (s : shape) : bool :=
  match s with
  | Box x0 y0 x1 y1 =>
      Qcleb x0 (px p) && Qcleb (px p) x1 && Qcleb y0 (py p) && Qcleb (py p) y1
  | Disc c r => Qcltb 0 r && Qcleb (dist2 p c) (sq r)
  | BoxBuffer x0 y0 x1 y1 r =>
      Qcltb 0 r && Qcleb (sq (gap x0 x1 (px p)) + sq (gap y0 y1 (py p)))%Qc (sq r)
  end.

Definition half : Qc := Q2Qc (1 # 2).

Definition shape_centroid (s : shape) : pt :=
  match s with
  | Box x0 y0 x1 y1 | BoxBuffer x0 y0 x1 y1 _ =>
      Pt ((x0 + x1) * half)%Qc ((y0 + y1) * half)%Qc
  | Disc c _ => c
  end.

Definition shape_buffer (s : shape) (r : Qc) : shape :=
  match s with
  | Box x0 y0 x1 y1 => BoxBuffer x0 y0 x1 y1 r
  | Disc c r0 => Disc c (r0 + r)%Qc
  | BoxBuffer x0 y0 x1 y1 r0 => BoxBuffer x0 y0 x1 y1 (r0 + r)%Qc
  end.

(** Position of the nearest entry, the first one on ties; [best] is the
    position and squared distance of the nearest entry so far. *)
Fixpoint nearest_from (p : pt) (data : list pt) (pos : nat) (best : nat * Qc) : nat :=
  match data with
  | [] => best.1
  | c :: data =>
      let d := dist2 p c in
      nearest_from p data (S pos) (if Qcltb d best.2 then (pos, d) else best)
  end.

Definition nearest (data : list pt) (p : pt) : nat :=
  match data with
  | [] => 0
  | c :: rest => nearest_from p rest 1 (0, dist2 p c)
  end.

#[global] Instance geometry : Geometry := {|
  point := pt;
  polygon := shape;
  within := pt_within;
  intersects := pt_intersects;
  centroid := shape_centroid;
  buffer := shape_buffer;
  point_buffer := λ p r, Disc p r;
  kd_query := nearest
|}.

(** Rationals and points from integers, for the examples. *)
Definition qz (n : Z) : Qc := Qc_of_Z n.
Definition qfrac (n : Z) (d : positive) : Qc := Q2Qc (n # d).
Definition P (x y : Z) : pt := Pt (qz x) (qz y).

(** Four collinear points at x = 0, 1, 2, 3. *)
Definition collinear : list pt := [P 0 0; P 1 0; P 2 0; P 3 0].

(** A 2 x 2 grid over [0,4] x [0,4] whose four tiles are sorted into two
    groups (ids 0 and 1), as the grouping methods with [n_groups = 2] label
    them: the [grid_id] of a tile is then not its row position. *)
Definition grouped_grid : list tile :=
  [Tile 0 (Box (qz 0) (qz 0) (qz 2) (qz 2));
   Tile 1 (Box (qz 0) (qz 2) (qz 2) (qz 4));
   Tile 1 (Box (qz 2) (qz 0) (qz 4) (qz 2));
   Tile 0 (Box (qz 2) (qz 2) (qz 4) (qz 4))].

(** The same tiles with distinct ids counted from 1. *)
Definition one_based_grid : list tile :=
  [Tile 1 (Box (qz 0) (qz 0) (qz 2) (qz 2));
   Tile 2 (Box (qz 0) (qz 2) (qz 2) (qz 4));
   Tile 3 (Box (qz 2) (qz 0) (qz 4) (qz 2));
   Tile 4 (Box (qz 2) (qz 2) (qz 4) (qz 4))].

(** The same tiles with their row positions as ids ([method = 'unique']). *)
Definition unique_grid : list tile :=
  [Tile 0 (Box (qz 0) (qz 0) (qz 2) (qz 2));
   Tile 1 (Box (qz 0) (qz 2) (qz 2) (qz 4));
   Tile 2 (Box (qz 2) (qz 0) (qz 4) (qz 2));
   Tile 3 (Box (qz 2) (qz 2) (qz 4) (qz 4))].

(** A tile provider that returns the given grid. *)
Definition provide (grid : list tile)
    : list row → nat → nat → string → string → nat → list tile :=
  λ _ _ _ _ _ _, grid.

(** Two interior points and one point on the outer edge of the last tile
    (the bounding box of the points is the bounding box of the grid). *)
Definition edge_points : list pt := [P 1 1; P 3 3; P 4 3].

(** Three points of which the last lies on the outer edge of the first tile. *)
Definition corner_points : list pt := [P 1 1; P 3 3; P 0 1].

End Planar.

(** ** numpy values and reductions *)

(** A [float64] without rounding: a rational, an infinity ([Inf true] is the
    negative one) or NaN. *)
Inductive float64 :=
| Fin (q : Qc)
| Inf (negative : bool)
| NaN.

Global Instance float64_eq_dec : EqDecision float64.
Proof. solve_decision. Defined.

Definition Qcltb (a b : Qc) : bool := bool_decide (a < b)%Qc.
Definition Qcleb (a b : Qc) : bool := bool_decide (a ≤ b)%Qc.
Definition Qc_of_nat (n : nat) : Qc := Qc_of_Z (Z.of_nat n).

Definition isnan (x : float64) : bool :=
  match x with NaN => true | _ => false end.

Definition fopp (x : float64) : float64 :=
  match x with
  | Fin a => Fin (- a)%Qc
  | Inf s => Inf (negb s)
  | NaN => NaN
  end.

Definition fadd (x y : float64) : float64 :=
  match x, y with
  | NaN, _ | _, NaN => NaN
  | Fin a, Fin b => Fin (a + b)%Qc
  | Inf s, Fin _ | Fin _, Inf s => Inf s
  | Inf s, Inf s' => if bool_decide (s = s') then Inf s else NaN
  end.

Definition fsub (x y : float64) : float64 := fadd x (fopp y).

Definition fmul (x y : float64) : float64 :=
  match x, y with
  | NaN, _ | _, NaN => NaN
  | Fin a, Fin b => Fin (a * b)%Qc
  | Inf s, Fin b | Fin b, Inf s =>
      if bool_decide (b = 0%Qc) then NaN else Inf (xorb s (Qcltb b 0))
  | Inf s, Inf s' => Inf (xorb s s')
  end.

(** numpy division: a division by zero gives an infinity or NaN (and a
    warning), not an exception. *)
Definition fdiv (x y : float64) : float64 :=
  match x, y with
  | NaN, _ | _, NaN => NaN
  | Fin a, Fin b =>
      if bool_decide (b = 0%Qc)
      then (if bool_decide (a = 0%Qc) then NaN else Inf (Qcltb a 0))
      else Fin (a / b)%Qc
  | Fin _, Inf _ => Fin 0%Qc
  | Inf s, Fin b => Inf (xorb s (Qcltb b 0))
  | Inf _, Inf _ => NaN
  end.

(** [x > y]; false when either side is NaN. *)
Definition fgt (x y : float64) : bool :=
  match x, y with
  | NaN, _ | _, NaN => false
  | Fin a, Fin b => Qcltb b a
  | Inf s, Fin _ => negb s
  | Fin _, Inf s => s
  | Inf s, Inf s' => negb s && s'
  end.

(** [x <= y]; false when either side is NaN. *)
Definition fle (x y : float64) : bool :=
  match x, y with
  | NaN, _ | _, NaN => false
  | Fin a, Fin b => Qcleb a b
  | Inf s, Fin _ => s
  | Fin _, Inf s => negb s
  | Inf s, Inf s' => s || negb s'
  end.

Definition fmin (x y : float64) : float64 := if fle x y then x else y.

(** A value that is a rational or NaN. *)
Definition fin_or_nan (x : float64) : Prop :=
  match x with Inf _ => False | _ => True end.

(** A value that is a rational. *)
Definition is_fin (x : float64) : Prop :=
  match x with Fin _ => True | _ => False end.

(** The product of a value and a positive rational [c]. *)
Definition fscale (c : Qc) (x : float64) : float64 :=
  match x with Fin a => Fin (c * a)%Qc | _ => x end.

Definition float_le (x y : float64) : Prop := fle x y = true.

Global Instance float_le_dec : RelDecision float_le.
Proof. intros x y. unfold float_le. apply _. Defined.

Definition Qc_sum (l : list Qc) : Qc := foldr Qcplus 0%Qc l.

Definition np_sum (a : list float64) : float64 := foldr fadd (Fin 0%Qc) a.

(** [np.mean]: NaN entries propagate; the mean of nothing is NaN. *)
Definition np_mean (a : list float64) : float64 :=
  fdiv (np_sum a) (Fin (Qc_of_nat (length a))).

Definition drop_nan (a : list float64) : list float64 :=
  List.filter (λ x, negb (isnan x)) a.

(** [np.nanmean]: the mean of the entries that are not NaN; NaN when there
    is none. *)
Definition np_nanmean (a : list float64) : float64 := np_mean (drop_nan a).

(** [np.nanmin]: the least entry that is not NaN; NaN when there is none. *)
Definition np_nanmin (a : list float64) : float64 :=
  match drop_nan a with
  | [] => NaN
  | x :: rest => foldr fmin x rest
  end.

(** [numpy]'s linear interpolation between two neighbours of the sorted
    sample. *)
Definition lerp (a b : float64) (t : Qc) : float64 :=
  let diff_b_a := fsub b a in
  if Qcleb (Q2Qc (1 # 2)) t
  then fsub b (fmul diff_b_a (Fin (1 - t)%Qc))
  else fadd a (fmul diff_b_a (Fin t)).

Definition Qc_floor (q : Qc) : Z := (Qnum q `div` Z.pos (Qden q))%Z.

(** [np.quantile(a, q)] with the default linear method: [q] outside [0, 1]
    is refused; a NaN in the sample makes the quantile NaN. *)
Definition np_quantile (a : list float64) (q : Qc) : result float64 :=
  if negb (Qcleb 0 q && Qcleb q 1) then Raise ValueError
  else if existsb isnan a then mret NaN
  else
    let sorted := merge_sort float_le a in
    let n := length sorted in
    let virtual_index := (q * Qc_of_nat (n - 1))%Qc in
    let previous := Z.to_nat (Qc_floor virtual_index) in
    let next := Nat.min (S previous) (n - 1) in
    let gamma := (virtual_index - Qc_of_nat previous)%Qc in
    mret (lerp (default NaN (sorted !! previous)) (default NaN (sorted !! next)) gamma).

(** [a[mask]] for a boolean mask: the lengths must agree. *)
Definition bool_index {A} (a : list A) (mask : list bool) : result (list A) :=
  if bool_decide (length mask = length a)
  then mret ((List.filter snd (zip a mask)).*1)
  else Raise IndexError.

(** [a[mask] = v] for a boolean mask: the lengths must agree. *)
Definition mask_assign {A} (a : list A) (mask : list bool) (v : A) : result (list A) :=
  if bool_decide (length mask = length a)
  then mret (zip_with (λ x (b : bool), if b then v else x) a mask)
  else Raise IndexError.

(** Elementwise operation on a two-dimensional array. *)
Definition map2d {A B} (f : A → B) (m : list (list A)) : list (list B) :=
  (λ row : list A, f <$> row) <$> m.

(** [np.fill_diagonal(m, v)] on a square matrix. *)
Definition fill_diagonal {A} (m : list (list A)) (v : A) : list (list A) :=
  imap (λ i row, <[i := v]> row) m.

(** [squareform(pdist(X))]: the symmetric matrix, with a zero diagonal, of
    the distances [d i j] between rows [i < j] of a frame of [n] rows. *)
Definition squareform (n : nat) (d : nat → nat → Qc) : list (list Qc) :=
  (λ i, (λ j, if bool_decide (i = j) then 0%Qc
              else d (Nat.min i j) (Nat.max i j)) <$> seq 0 n) <$> seq 0 n.

(** ** The variogram estimator *)

Definition sq (a : Qc) : Qc := (a * a)%Qc.

(** [np.asarray(x)] is an array of float64 values or, for integer input, of
    int64 values. The operations the estimator applies to the entries depend
    on this element type: differences, squares and sums of int64 values wrap
    around silently, and the sum becomes a float only in the final
    division. *)
Class Dtype (A : Type) := {
  (** [a - b] *)
  dtype_sub : A → A → A;
  (** [a ** 2] *)
  dtype_square : A → A;
  (** [a > 0.0] *)
  dtype_positive : A → bool;
  (** [np.sum] of a one-dimensional array *)
  dtype_sum : list A → A;
  (** the float64 value that the true division [/] makes of an entry *)
  dtype_float : A → Qc
}.

(** float64, without rounding. *)
Global Instance float64_dtype : Dtype Qc := {|
  dtype_sub := Qcminus;
  dtype_square := sq;
  dtype_positive := λ s, Qcltb 0 s;
  dtype_sum := Qc_sum;
  dtype_float := λ q, q
|}.

(** The int64 value that an integer wraps to: two's complement on 64 bits. *)
Definition wrap64 (z : Z) : Z := ((z + 2 ^ 63) `mod` 2 ^ 64 - 2 ^ 63)%Z.

(** int64: an integer between [-2 ^ 63] and [2 ^ 63 - 1]. *)
Global Instance int64_dtype : Dtype Z := {|
  dtype_sub := λ a b, wrap64 (a - b);
  dtype_square := λ a, wrap64 (a * a);
  dtype_positive := λ s, bool_decide (0 < s)%Z;
  dtype_sum := foldr (λ a acc, wrap64 (a + acc)) 0%Z;
  dtype_float := Qc_of_Z
|}.

(** [mask_i[:i] = False] *)
Definition clear_prefix (i : nat) (mask_i : list bool) : list bool :=
  replicate (Nat.min i (length mask_i)) false ++ drop i mask_i.

(** One turn of the loop of [compute_semivariance]: [ss[filter_empty]]. The
    row of [mask] is overwritten in place; no later turn reads it. *)
Definition semivariance_row {A} `{Dtype A} (x : list A) (mask : list (list bool))
    (i : nat) : result (list A) :=
  xi ← lookup_or IndexError x i;
  mask_i ← lookup_or IndexError mask i;
  let mask_i := clear_prefix i mask_i in
  xj ← bool_index x mask_i;
  let ss := (λ v, dtype_square (dtype_sub xi v)) <$> xj in
  mret (List.filter dtype_positive ss).

Definition compute_semivariance {A} `{Dtype A} (x : list A) (mask : list (list bool))
    (bw : Qc) (col_name : string) : result Qc :=
  rows ← mapM (semivariance_row x mask) (seq 0 (length x));
  let semis := List.filter (λ r, bool_decide (0 < length r)) rows in
  let counts := length <$> semis in
  match semis with
  | [] =>
      (* np.concatenate of no array raises ValueError; the handler logs and
         returns 0 *)
      mret 0%Qc
  | _ => mret (dtype_float (dtype_sum (concat semis))
               / (2 * Qc_of_nat (sum_list counts)))%Qc
  end.

(** The band mask of one lag: [pd_m >= lag - bw] and [pd_m <= lag + bw]. *)
Definition band_mask (pd_m : list (list Qc)) (lag bw : Qc) : list (list bool) :=
  map2d (λ d, Qcleb (lag - bw) d && Qcleb d (lag + bw)) pd_m.

(** The pairs of points, each once: [(i, j)] with [i < j < n]. *)
Definition upper_pairs (n : nat) : list (nat * nat) :=
  flat_map (λ i, (λ j, (i, j)) <$> seq (S i) (n - S i)) (seq 0 n).

(** Whether the distance of a pair lies in [lag - bw, lag + bw]. *)
Definition in_band (pd_m : list (list Qc)) (lag bw : Qc) (ij : nat * nat) : bool :=
  match pd_m !! ij.1 ≫= (.!! ij.2) with
  | Some d => Qcleb (lag - bw) d && Qcleb d (lag + bw)
  | None => false
  end.

Definition band_pairs (pd_m : list (list Qc)) (n : nat) (lag bw : Qc) : list (nat * nat) :=
  List.filter (in_band pd_m lag bw) (upper_pairs n).

(** The squared difference of the values of a pair. *)
Definition squared_difference (x : list Qc) (ij : nat * nat) : Qc :=
  sq (default 0 (x !! ij.1) - default 0 (x !! ij.2))%Qc.

(** The semivariance in the words of the specification: the sum of the
    squared differences over the pairs in the band, divided by twice the
    number of these pairs. *)
Definition semivariance_of_band (pd_m : list (list Qc)) (x : list Qc) (lag bw : Qc) : Qc :=
  let pairs := band_pairs pd_m (length x) lag bw in
  (Qc_sum (squared_difference x <$> pairs) / (2 * Qc_of_nat (length pairs)))%Qc.

(** The same sum divided by twice the number of the pairs in the band whose
    values differ, and 0 when there is no such pair. *)
Definition semivariance_of_differing (pd_m : list (list Qc)) (x : list Qc) (lag bw : Qc)
    : Qc :=
  let pairs := band_pairs pd_m (length x) lag bw in
  let differing := List.filter (λ ij, Qcltb 0 (squared_difference x ij)) pairs in
  match differing with
  | [] => 0%Qc
  | _ => (Qc_sum (squared_difference x <$> pairs)
          / (2 * Qc_of_nat (length differing)))%Qc
  end.

(** The squared differences that row [i] of the loop keeps. *)
Definition kept (pd_m : list (list Qc)) (x : list Qc) (lag bw : Qc) (i : nat) : list Qc :=
  List.filter (λ v, Qcltb 0 v)
    (squared_difference x
       <$> List.filter (in_band pd_m lag bw)
             ((λ j, (i, j)) <$> seq (S i) (length x - S i))).

(** Three points on a line at 0, 1 and 2, of which the first two carry the
    same value; the band [1/2, 5/2] holds all three pairs. *)
Module Collinear.
Definition pd_m : list (list Qc) :=
  [[0%Qc; 1%Qc; Qc_of_Z 2]; [1%Qc; 0%Qc; 1%Qc]; [Qc_of_Z 2; 1%Qc; 0%Qc]].
Definition x : list Qc := [1%Qc; 1%Qc; Qc_of_Z 2].
Definition lag : Qc := Q2Qc (3 # 2).
Definition bw : Qc := 1%Qc.
End Collinear.

Section Variogram.
Context {GeoSeries : Type}.
(** Number of points and the two distance functions behind [pd_m]. *)
Variable n_points : GeoSeries → nat.
Variable euclidean : GeoSeries → nat → nat → Qc.
Variable haversine : GeoSeries → nat → nat → Qc.

Definition pairwise_distances (XYs : GeoSeries) (distance_metric : string)
    : option (list (list Qc)) :=
  if bool_decide (distance_metric = "euclidean") then
    Some (squareform (n_points XYs) (euclidean XYs))
  else if bool_decide (distance_metric = "haversine") then
    (* multiply by Earth radius to get meters *)
    Some (map2d (λ d, d * Qc_of_Z 6371000)%Qc
            (squareform (n_points XYs) (haversine XYs)))
  else None.

(** Returns the two rows of [np.c_[semivariances, lags].T]. With another
    metric [pd_m] is never bound, and the first lag fails on it. [x] is
    [np.asarray(x)], an array of element type [A]. *)
Definition variogram_at_lag {A} `{Dtype A} (XYs : GeoSeries) (x : list A)
    (lags : list Qc) (bw : Qc) (distance_metric : string) (col_name : string)
    : result (list Qc * list Qc) :=
  let pd_m := pairwise_distances XYs distance_metric in
  semivariances ←
    mapM (λ lag,
            pd_m ← match pd_m with
                   | Some m => Ok m
                   | None => Raise (UnboundLocalError "pd_m")
                   end;
            (* Mask pts outside bandwidth *)
            compute_semivariance x (band_mask pd_m lag bw) bw col_name)
         lags;
  mret (semivariances, lags).

End Variogram.

(** ** Area of applicability *)

(** [np.repeat(np.arange(0, len(counts)), counts)] *)
Definition np_repeat_arange (counts : list nat) : list nat :=
  concat (imap (λ fold_id n, replicate n fold_id) counts).

(** [folds = np.vstack((fold_indices, instance_fold_id)).T]: one row per
    listed instance, (training index, fold id). *)
Definition fold_table (fold_indices : list (list Z)) : list (Z * nat) :=
  (* Get number of training instances in each fold *)
  let instances_in_folds := length <$> fold_indices in
  let instance_fold_id := np_repeat_arange instances_in_folds in
  (* Create mapping between training instance and fold ID *)
  let fold_indices := concat fold_indices in
  zip fold_indices instance_fold_id.

(** One turn of the masking loop:
    [mask = folds[:, 0] == folds[:, 0][i]; train_dist[i, mask] = np.nan]. *)
Definition mask_row (folds : list (Z * nat)) (i : nat) (row : list float64)
    : result (list float64) :=
  key ← lookup_or IndexError (folds.*1) i;
  let mask := (λ f, bool_decide (f = key)) <$> folds.*1 in
  mask_assign row mask NaN.

(** [for i, row in enumerate(train_dist)], from row [i] on. *)
Fixpoint mask_rows (folds : list (Z * nat)) (i : nat) (rows : list (list float64))
    : result (list (list float64)) :=
  match rows with
  | [] => mret []
  | row :: rows =>
      row ← mask_row folds i row;
      rows ← mask_rows folds (S i) rows;
      mret (row :: rows)
  end.

(** The matrix of pairwise training distances after [np.fill_diagonal] and
    the fold masking. [if fold_indices:] holds for a non-empty list. *)
Definition masked_train_dist (train_dist : list (list Qc))
    (fold_indices : option (list (list Z))) : result (list (list float64)) :=
  let train_dist := fill_diagonal (map2d Fin train_dist) NaN in
  (* Remove data points that are within the same fold *)
  match fold_indices with
  | Some (f :: fs) => mask_rows (fold_table (f :: fs)) 0 train_dist
  | _ => mret train_dist
  end.

(** [np.mean(np.nanmean(train_dist, axis=1))] *)
Definition train_dist_avgmean (train_dist : list (list float64)) : float64 :=
  let train_dist_mean := np_nanmean <$> train_dist in
  np_mean train_dist_mean.

(** [np.quantile(np.nanmin(train_dist, axis=1) / train_dist_avgmean, q=thres)] *)
Definition aoa_threshold (train_dist : list (list float64)) (thres : Qc)
    : result float64 :=
  let train_dist_min := np_nanmin <$> train_dist in
  np_quantile ((λ d, fdiv d (train_dist_avgmean train_dist)) <$> train_dist_min) thres.

(** [masked_result = np.repeat(1, len(mindist)); masked_result[DIs > thres] = 0] *)
Definition applicability (DIs : list float64) (thres : float64) : list Z :=
  (λ d, if fgt d thres then 0%Z else 1%Z) <$> DIs.

(** [aoa] from the nearest-training-instance distances and the pairwise
    training distances on. *)
Definition aoa_of_distances (mindist : list Qc) (train_dist : list (list Qc))
    (thres : Qc) (fold_indices : option (list (list Z)))
    : result (list float64 * list Z) :=
  train_dist ← masked_train_dist train_dist fold_indices;
  (* Scale distance to nearest training point by average distance across
     training data *)
  let avgmean := train_dist_avgmean train_dist in
  let mindist := (λ d, fdiv (Fin d) avgmean) <$> mindist in
  (* Define threshold for AOA *)
  thres ← aoa_threshold train_dist thres;
  (* We choose the AOA as the area where the DI does not exceed the threshold *)
  let DIs := mindist in
  mret (DIs, applicability DIs thres).


(** A row of which every entry is NaN. *)
Definition all_nan (row : list float64) : Prop := Forall (λ x, x = NaN) row.

Global Instance all_nan_dec (row : list float64) : Decision (all_nan row).
Proof. unfold all_nan. apply _. Defined.





(** An [n] x [n] array. *)
Definition square {A} (n : nat) (m : list (list A)) : Prop :=
  length m = n ∧ Forall (λ row, length row = n) m.

(** The row that one turn of the masking loop leaves, for the key of the
    turn. *)
Definition masked_row (keys : list Z) (key : Z) (row : list float64) : list float64 :=
  zip_with (λ x (b : bool), if b then NaN else x) row
    ((λ f, bool_decide (f = key)) <$> keys).

(** The mean of the entries of row [i] off the diagonal. *)
Definition off_diagonal_mean (i : nat) (r : list Qc) : Qc :=
  (Qc_sum (delete i r) / Qc_of_nat (length r - 1))%Qc.

(** What the specification states of the scores and the mask that [aoa]
    returns, for the threshold [t]: the scores are non-negative, and the mask
    is 1 exactly at the scores at most [t]. *)
Definition scores_nonneg_and_mask_exact (r : list float64 * list Z) (t : float64)
    : Prop :=
  Forall (λ d, fle (Fin 0%Qc) d = true) r.1
  ∧ Forall2 (λ d (b : Z), b = if fle d t then 1%Z else 0%Z) r.1 r.2.

(** The shape under which the masking loop runs through: the folds list as
    many entries as there are training instances. *)
Definition folds_cover (fold_indices : option (list (list Z))) (n : nat) : Prop :=
  match fold_indices with
  | Some (f :: fs) => length (concat (f :: fs)) = n
  | _ => True
  end.

Global Instance folds_cover_dec fold_indices (n : nat) : Decision (folds_cover fold_indices n).
Proof. destruct fold_indices as [[|f fs]|]; cbn; apply _. Defined.

Section AOA.
Context {frame : Type}.
(** [len(data)]: the number of instances. *)
Variable len : frame → nat.
(** [(data - np.mean(data)) / np.std(data)] *)
Variable standardize : frame → frame.
(** [BallTree(training_data, metric).query(new_data, k=1)]: the distance of
    each new instance to its nearest training instance. The tree validates
    its input, so the distances it returns are finite. *)
Variable BallTree_query : string → frame → frame → result (list Qc).
(** [pdist(training_data)]: the distance between two rows. *)
Variable pdist : frame → nat → nat → Qc.

(** [model] is unused by the function and left out. *)
Definition aoa (new_data training_data : frame) (thres : Qc)
    (fold_indices : option (list (list Z))) (distance_metric : string)
    : result (list float64 * list Z) :=
  if bool_decide (len training_data ≤ 1) then
    Raise (Exception "At least two training instances need to be specified.")
  else
    (* Scale data *)
    let training_data := standardize training_data in
    let new_data := standardize new_data in
    (* Calculate nearest training instance to test data *)
    mindist ← BallTree_query distance_metric training_data new_data;
    (* Build matrix of pairwise distances *)
    let train_dist := squareform (len training_data) (pdist training_data) in
    aoa_of_distances mindist train_dist thres fold_indices.

End AOA.

(** ** Frames of one feature

    An instance of the library steps of [aoa] for arrays of shape (N, 1),
    where every metric the ball tree accepts is [|a - b|]. The square root
    is exact on squares of rationals, which is all the examples need; on a
    rational that is not negative it is zero only at zero, which is all that
    decides whether [aoa] returns. *)

Module OneFeature.

Definition frame : Type := list float64.

Definition is_finite (x : float64) : bool :=
  match x with Fin _ => true | _ => false end.

Definition value (x : float64) : Qc :=
  match x with Fin q => q | _ => 0%Qc end.

Definition Qc_sqrt (q : Qc) : Qc := Q2Qc (Z.sqrt (Qnum q) # Pos.sqrt (Qden q)).

Definition fsqrt (x : float64) : float64 :=
  match x with
  | Fin q => if Qcltb q 0 then NaN else Fin (Qc_sqrt q)
  | Inf false => Inf false
  | _ => NaN
  end.

Definition np_std (a : frame) : float64 :=
  let m := np_mean a in
  fsqrt (np_mean ((λ x, fmul (fsub x m) (fsub x m)) <$> a)).

Definition standardize (a : frame) : frame :=
  (λ x, fdiv (fsub x (np_mean a)) (np_std a)) <$> a.

Definition Qc_abs (a : Qc) : Qc := if Qcltb a 0 then (- a)%Qc else a.

Definition pdist (a : frame) (i j : nat) : Qc :=
  Qc_abs (value (default NaN (a !! i)) - value (default NaN (a !! j))).

Definition metrics : list string :=
  ["euclidean"; "l2"; "minkowski"; "p"; "manhattan"; "cityblock"; "l1";
   "chebyshev"; "infinity"].

Definition Qc_min (a b : Qc) : Qc := if Qcleb a b then a else b.

Definition nearest_distance (training : list Qc) (x : Qc) : Qc :=
  match (λ t, Qc_abs (x - t)) <$> training with
  | [] => 0%Qc
  | d :: ds => foldr Qc_min d ds
  end.

(** The tree and the query refuse an unknown metric, an empty array and
    entries that are not finite. *)
Definition BallTree_query (metric : string) (training new : frame)
    : result (list Qc) :=
  if negb (bool_decide (metric ∈ metrics)) then Raise ValueError
  else if bool_decide (training = []) || negb (forallb is_finite training)
  then Raise ValueError
  else if bool_decide (new = []) || negb (forallb is_finite new)
  then Raise ValueError
  else mret (nearest_distance (value <$> training) <$> (value <$> new)).

Definition aoa := aoa (length : frame → nat) standardize BallTree_query pdist.

(** The column of integer values [zs]. *)
Definition column (zs : list Z) : frame := (λ z, Fin (Qc_of_Z z)) <$> zs.

(** Two training instances, 0 and 2 (standardised: -1 and 1), and five new
    instances 0, 1, 1, 1, 1 (standardised: -2 and four times 1/2). *)
Definition training : frame := column [0; 2]%Z.
Definition new : frame := column [0; 1; 1; 1; 1]%Z.

(** Their distances: each new instance to the nearest training instance, and
    the training instances to each other. *)
Definition mindist : list Qc :=
  [1%Qc; Q2Qc (1 # 2); Q2Qc (1 # 2); Q2Qc (1 # 2); Q2Qc (1 # 2)].
Definition train_dist : list (list Qc) :=
  [[0%Qc; Qc_of_Z 2]; [Qc_of_Z 2; 0%Qc]].

(** The default quantile of [aoa]. *)
Definition thres : Qc := Q2Qc (95 # 100).

(** Five training instances 0, 1, 1, 1, 1 (standardised: -2 and four times
    1/2) sorted into two folds, two new instances 0 and 2 (standardised: -1
    and 1), and the pairwise distances of the standardised training
    instances. *)
Definition training5 : frame := column [0; 1; 1; 1; 1]%Z.
Definition new2 : frame := column [0; 2]%Z.
Definition folds5 : list (list Z) := [[0; 1]; [2; 3; 4]]%Z.
Definition train_dist5 : list (list Qc) :=
  squareform (length (standardize training5)) (pdist (standardize training5)).

End OneFeature.

Local Open Scope Qc_scope.

(** ** Columns of rationals *)

(** A column that holds two different values. *)
Definition varied (a : list Qc) : Prop := ∃ x y, x ∈ a ∧ y ∈ a ∧ x ≠ y.


Global Instance varied_dec (a : list Qc) : Decision (varied a).
Proof.
  destruct a as [|c a'].
  - right. intros (x & _ & Hx & _). by apply elem_of_nil in Hx.
  - destruct (decide (Forall (λ q, q = c) a')) as [Hall|Hex].
    + right. intros (x & y & Hx & Hy & Hxy). apply Hxy.
      assert (Heq : ∀ q, q ∈ c :: a' → q = c).
      { intros q [->|Hq]%elem_of_cons; [done|].
        by apply (proj1 (Forall_forall _ _) Hall). }
      by rewrite (Heq x), (Heq y).
    + left. apply not_Forall_Exists in Hex; [|apply _].
      apply Exists_exists in Hex as (q & Hq & Hne). exists q, c.
      split; [by right|]. split; [by left | done].
Defined.

(** ** The variogram estimator under an arbitrary mask *)

(** The mask has a row of [len(x)] entries for every value of [x]. *)
Definition mask_fits (x : list Qc) (mask : list (list bool)) : Prop :=
  ∀ i, (i < length x)%nat → ∃ row, mask !! i = Some row ∧ length row = length x.

(** The squared differences that turn [i] of the loop keeps under the mask
    row [row]: those of the pairs (i, j), i < j, that the row selects and whose
    values differ. *)
Definition kept_of_row (x : list Qc) (row : list bool) (i : nat) : list Qc :=
  List.filter (λ v, Qcltb 0 v)
    (squared_difference x
       <$> ((λ j, (i, j))
              <$> List.filter (λ j, default false (row !! j)) (seq (S i) (length x - S i)))).

(** What [compute_semivariance] makes of the rows it has kept. *)
Definition semivariance_of_rows (rows : list (list Qc)) : Qc :=
  match concat rows with
  | [] => 0
  | vs => Qc_sum vs / (2 * Qc_of_nat (length vs))
  end.

(** Points on a line, given by their coordinate; the distance of two of them
    is the absolute difference. *)
Module Line.
Definition GeoSeries : Type := list Qc.
Definition n_points (XYs : GeoSeries) : nat := length XYs.
Definition euclidean (XYs : GeoSeries) (i j : nat) : Qc :=
  OneFeature.Qc_abs (default 0 (XYs !! i) - default 0 (XYs !! j)).
(** Not used by the examples. *)
Definition haversine (XYs : GeoSeries) (i j : nat) : Qc := 0.
(** The points 0, 1 and 2 of [Collinear]. *)
Definition points : GeoSeries := [0; 1; Qc_of_Z 2].
End Line.

(** ** Variogram models and the range fit *)

(** [x ** 3.0] *)
Definition fcube (x : float64) : float64 := fmul x (fmul x x).

Definition fmax (x y : float64) : float64 := if fle x y then y else x.

(** [np.nanmax]: the greatest entry that is not NaN; NaN when every entry is
    NaN; an empty array is refused. *)
Definition np_nanmax (a : list float64) : result float64 :=
  match a with
  | [] => Raise ValueError
  | _ =>
      match drop_nan a with
      | [] => mret NaN
      | x :: rest => mret (foldr fmax x rest)
      end
  end.

(** The decorator [variogram(func)]: [send_params] maps [func] over the lags
    [params[0]], an array, with the scalars [params[1:]] as further arguments,
    and collects the values with [np.fromiter]. *)
Definition variogram (func : float64 → list float64 → result float64)
    (params0 : list float64) (new_args : list float64) : result (list float64) :=
  mapM (λ h, func h new_args) params0.

(** The body of the undecorated [spherical(h, r, sill, nugget)], on numpy
    scalars, as the entries of an array are. *)
Definition spherical_at (h r sill nugget : float64) : float64 :=
  let a := fdiv r (Fin 1) in
  if fle h r then
    fadd nugget
      (fmul sill (fsub (fmul (Fin (Q2Qc (3 # 2))) (fdiv h a))
                       (fmul (Fin (Q2Qc (1 # 2))) (fcube (fdiv h a)))))
  else fadd nugget sill.

(** The undecorated function with its signature [(h, r, sill, nugget=0)]:
    another number of arguments is a [TypeError]. *)
Definition spherical_undecorated (h : float64) (new_args : list float64)
    : result float64 :=
  match new_args with
  | [r; sill] => mret (spherical_at h r sill (Fin 0))
  | [r; sill; nugget] => mret (spherical_at h r sill nugget)
  | _ => Raise TypeError
  end.

(** [@variogram def spherical(...)] *)
Definition spherical : list float64 → list float64 → result (list float64) :=
  variogram spherical_undecorated.

(** The spherical curve on the unit interval: [1.5 u - 0.5 u ** 3]. *)
Definition curve (u : Qc) : Qc := Q2Qc (3 # 2) * u - Q2Qc (1 # 2) * (u * (u * u)).

(** The value of the model at the lag [h], for a range that is not 0. *)
Definition spherical_value (h r sill nugget : Qc) : Qc :=
  if bool_decide (h ≤ r) then nugget + sill * curve (h / r) else nugget + sill.

(** [multiprocessing.Pool(processes)] refuses a number of processes below 1. *)
Definition Pool (processes : Z) : result () :=
  if bool_decide (processes < 1)%Z then Raise ValueError else mret ().

Section Range.
Context {GeoSeries : Type}.
Variable n_points : GeoSeries → nat.
Variable euclidean : GeoSeries → nat → nat → Qc.
Variable haversine : GeoSeries → nat → nat → Qc.
(** [scipy.optimize.curve_fit(f, xdata, ydata, sigma=None, p0=..., bounds=...,
    method="trf")]: the fitted parameters, or the exception of the fit. The
    bounds are a scalar lower bound and one upper bound per parameter. *)
Variable curve_fit :
  (list float64 → list float64 → result (list float64)) →
  list float64 → list float64 → list float64 → float64 * list float64 →
  result (list float64).

Definition calculate_range {A} `{Dtype A}
    (args : GeoSeries * list A * list Qc * Qc * string * string) : result float64 :=
  let '(XYs, col, lags, bw, distance_metric, col_name) := args in
  semis ← variogram_at_lag n_points euclidean haversine XYs col lags bw
             distance_metric col_name;
  let sv := Fin <$> semis.1 in
  let h := Fin <$> semis.2 in
  hmax ← np_nanmax h;
  svmax ← np_nanmax sv;
  let start_params := [hmax; svmax] in
  let bounds := (Fin 0, start_params) in
  cof ← curve_fit spherical h sv start_params bounds;
  let effective_range := lookup_or IndexError cof 0 in
  effective_range.

(** The list [ranges] that [plot_autocorrelation_ranges] has built when it
    starts to draw: one effective range per column of [X], computed by the
    pool when [workers] is -1 or more than 1 and in the calling process
    otherwise. An exception here is an exception of the function. *)
Definition autocorrelation_ranges {A} `{Dtype A} (XYs : GeoSeries)
    (X : list (string * list A)) (lags : list Qc) (bw : Qc) (distance_metric : string)
    (workers : Z) : result (list float64) :=
  let task := λ column : string * list A,
    (* Fit spherical model and extract effective range parameter *)
    calculate_range (XYs, column.2, lags, bw, distance_metric, column.1) in
  if bool_decide (workers = -1)%Z || bool_decide (1 < workers)%Z then
    pool ← Pool workers;
    (* apply_async for every column, then result.get() in the same order *)
    mapM task X
  else
    mapM task X.

End Range.

Local Close Scope Qc_scope.

(** * Properties *)

(** ** The result monad *)

Lemma mapM_Ok_fmap {A B} (f : A → result B) (g : A → B) (l : list A) :
  (∀ x, x ∈ l → f x = Ok (g x)) → mapM f l = Ok (g <$> l).
Proof.
  induction l as [|x l IH]; intros Hf; [reflexivity|].
  cbn. rewrite (Hf x) by apply list_elem_of_here. cbn.
  rewrite IH by (intros y Hy; apply Hf; by apply list_elem_of_further).
  reflexivity.
Qed.

Lemma mapM_ext_in {A B} (f g : A → result B) (l : list A) :
  (∀ x, x ∈ l → f x = g x) → mapM f l = mapM g l.
Proof.
  induction l as [|x l IH]; intros Hfg; [reflexivity|].
  cbn. rewrite (Hfg x) by apply list_elem_of_here.
  rewrite IH by (intros y Hy; apply Hfg; by apply list_elem_of_further).
  reflexivity.
Qed.

Lemma bind_Ok_inv {A B} (m : result A) (k : A → result B) (b : B) :
  m ≫= k = Ok b → ∃ a, m = Ok a ∧ k a = Ok b.
Proof. destruct m as [a|e]; cbn; [eauto | discriminate]. Qed.

Lemma mapM_Ok_Forall2 {A B} (f : A → result B) (P : A → B → Prop) (l : list A) :
  (∀ x, x ∈ l → ∃ y, f x = Ok y ∧ P x y) →
  ∃ ys, mapM f l = Ok ys ∧ Forall2 P l ys.
Proof.
  induction l as [|x l IH]; intros Hf.
  - exists []. split; [reflexivity | constructor].
  - destruct (Hf x) as (y & Hy & HP); [apply list_elem_of_here|].
    destruct IH as (ys & Hys & HF).
    { intros z Hz. apply Hf. by apply list_elem_of_further. }
    exists (y :: ys). split; [|by constructor].
    cbn. rewrite Hy. cbn. rewrite Hys. reflexivity.
Qed.

Lemma flat_map_bind {A B} (f : A → list B) (l : list A) : flat_map f l = l ≫= f.
Proof. induction l as [|a l IH]; [reflexivity|]. cbn. by rewrite IH. Qed.

(** ** The cross-validation driver *)

(** C3: with [cv = None] the driver reaches for [KFold], a name the module
    never binds: every such call raises [NameError] before any fold is
    evaluated, whatever the model, the data and the scorer. *)
Theorem cross_val_score_without_cv_raises
    {Model Features Labels Score Coordinates Splitter Scoring : Type}
    (fit : Model → list Features → list Labels → Model)
    (make_scorer : Scoring → Model → list Features → list Labels → Score)
    (split : Splitter → Coordinates → result (list (list nat * list nat)))
    (KFold : bool → Z → nat → Splitter)
    (model : Model) (coordinates : Coordinates) (X : list Features)
    (y : list Labels) (scoring : Scoring) :
  cross_val_score fit make_scorer split KFold model coordinates X y None scoring
  = Raise (NameError "KFold").
Proof. reflexivity. Qed.

(** ** SLOO *)

Section SLOO_facts.
Context `{Geometry}.

Lemma elem_of_GeoDataFrame (X : list point) (r : row) :
  r ∈ GeoDataFrame X ↔ ∃ i p, r = Row i p None ∧ X !! i = Some p.
Proof. unfold GeoDataFrame. apply elem_of_lookup_imap. Qed.

Lemma elem_of_clip_index (X : list point) (poly : polygon) (j : nat) :
  j ∈ row_index <$> clip (GeoDataFrame X) poly
  ↔ ∃ q, X !! j = Some q ∧ intersects q poly = true.
Proof.
  rewrite list_elem_of_fmap. unfold clip. split.
  - intros (r & -> & Hr). apply list_elem_of_In, filter_In in Hr as [Hr Hint].
    apply list_elem_of_In, elem_of_GeoDataFrame in Hr as (i & p & -> & Hp).
    eauto.
  - intros (q & Hq & Hint). exists (Row j q None). split; [reflexivity|].
    apply list_elem_of_In, filter_In. split; [|exact Hint].
    apply list_elem_of_In, elem_of_GeoDataFrame. eauto.
Qed.

Lemma fold_of_point_Ok (self : SLOO.t) (X : list point) (r : Qc) (i : nat) :
  SLOO.buffer_radius self = Some r → i < length X →
  SLOO.fold_of_point self X i = Ok ([i], SLOO.excluded X r i).
Proof.
  intros Hr Hi. unfold SLOO.fold_of_point, SLOO.excluded, lookup_or.
  destruct (lookup_lt_is_Some_2 X i Hi) as [p Hp]. rewrite Hp, Hr. reflexivity.
Qed.

Lemma iter_test_indices_Ok (self : SLOO.t) (X : list point) (r : Qc) :
  SLOO.buffer_radius self = Some r →
  SLOO._iter_test_indices self X
  = Ok ((λ i, ([i], SLOO.excluded X r i)) <$> seq 0 (length X)).
Proof.
  intros Hr. unfold SLOO._iter_test_indices. apply mapM_Ok_fmap.
  intros i Hi. apply elem_of_seq in Hi. apply fold_of_point_Ok; [done | lia].
Qed.

End SLOO_facts.

(** C9: with a configured radius, SLOO yields exactly one fold per point, in
    index order; the fold of point [i] tests [i] alone, and its excluded set
    holds exactly the other points that the buffer around point [i] keeps,
    never [i] itself. *)
Theorem sloo_one_fold_per_point `{Geometry} (self : SLOO.t) (X : list point) (r : Qc) :
  SLOO.buffer_radius self = Some r →
  ∃ folds,
    SLOO._iter_test_indices self X = Ok folds ∧
    length folds = length X ∧
    ∀ i p, X !! i = Some p →
      ∃ excluded,
        folds !! i = Some ([i], excluded) ∧
        (i ∉ excluded) ∧
        (∀ j, j ∈ excluded
              ↔ j ≠ i ∧ ∃ q, X !! j = Some q ∧ intersects q (point_buffer p r) = true).
Proof.
  intros Hr. eexists. split; [by apply iter_test_indices_Ok|].
  split; [by rewrite length_fmap, length_seq|].
  intros i p Hp. exists (SLOO.excluded X r i).
  assert (Hi : i < length X) by (by eapply lookup_lt_Some).
  split; [|assert (Hmem : ∀ j, j ∈ SLOO.excluded X r i
             ↔ j ≠ i ∧ ∃ q, X !! j = Some q ∧ intersects q (point_buffer p r) = true)].
  - rewrite list_lookup_fmap, lookup_seq_lt by done. reflexivity.
  - intros j. unfold SLOO.excluded. rewrite Hp.
    rewrite list_elem_of_In, filter_In, <- list_elem_of_In, elem_of_clip_index.
    rewrite negb_true_iff, bool_decide_eq_false. tauto.
  - split; [|exact Hmem]. intros Hin. apply Hmem in Hin as [Hne _]. by apply Hne.
Qed.

(** The scenario of four collinear points with radius 3/2. *)
Lemma sloo_one_fold_per_point_witness :
  ∃ folds,
    SLOO._iter_test_indices (H := Planar.geometry)
      (SLOO.Build (Some (Planar.qfrac 3 2)) false None) Planar.collinear = Ok folds ∧
    length folds = length Planar.collinear ∧
    ∀ i p, Planar.collinear !! i = Some p →
      ∃ excluded,
        folds !! i = Some ([i], excluded) ∧
        (i ∉ excluded) ∧
        (∀ j, j ∈ excluded
              ↔ j ≠ i ∧ ∃ q, Planar.collinear !! j = Some q
                  ∧ Planar.pt_intersects q (Planar.Disc p (Planar.qfrac 3 2)) = true).
Proof.
  apply (sloo_one_fold_per_point (H := Planar.geometry)
           (SLOO.Build (Some (Planar.qfrac 3 2)) false None)
           Planar.collinear (Planar.qfrac 3 2)).
  reflexivity.
Defined.

(** There the fold of point 1 excludes points 0 and 2, not point 3. *)
Example sloo_collinear_scenario :
  SLOO._iter_test_indices (H := Planar.geometry)
    (SLOO.Build (Some (Planar.qfrac 3 2)) false None) Planar.collinear
  = Ok [([0], [1]); ([1], [0; 2]); ([2], [1; 3]); ([3], [2])].
Proof. vm_compute. reflexivity. Qed.

(** C10, as stated, fails: no input and no random state make the emission
    order with [shuffle] enabled differ from the unshuffled one. *)
Lemma sloo_shuffle_changes_no_order :
  ¬ ∃ (r : option Qc) (random_state : option Z) (X : list Planar.pt),
      SLOO._iter_test_indices (H := Planar.geometry) (SLOO.Build r true random_state) X
      ≠ SLOO._iter_test_indices (H := Planar.geometry) (SLOO.Build r false random_state) X.
Proof. intros (r & rs & X & Hne). apply Hne. reflexivity. Qed.

(** C10, amended: the fold iterator reads neither [shuffle] nor
    [random_state]: two splitters with the same radius yield the same folds
    in the same order. *)
Theorem sloo_shuffle_is_ignored `{Geometry} (r : option Qc) (shuffle shuffle' : bool)
    (random_state random_state' : option Z) (X : list point) :
  SLOO._iter_test_indices (SLOO.Build r shuffle random_state) X
  = SLOO._iter_test_indices (SLOO.Build r shuffle' random_state') X.
Proof. reflexivity. Qed.

(** ** HBLOCK *)

Section buckets.
Context {A : Type} (key : A → option Z).

Lemma buckets_nil (gs : list Z) : concat (bucket key [] <$> gs) = [].
Proof. induction gs as [|g gs IH]; [reflexivity | exact IH]. Qed.

Lemma buckets_cons_other (x : A) (l : list A) (gs : list Z) :
  (∀ g, g ∈ gs → key x ≠ Some g) →
  concat (bucket key (x :: l) <$> gs) = concat (bucket key l <$> gs).
Proof.
  induction gs as [|g gs IH]; intros Hx; [reflexivity|].
  cbn. rewrite bool_decide_eq_false_2 by (apply Hx, list_elem_of_here).
  f_equal. apply IH. intros g' Hg'. apply Hx. by apply list_elem_of_further.
Qed.

Lemma buckets_perm (l : list A) (gs : list Z) :
  NoDup gs →
  (∀ x, x ∈ l → ∃ g, key x = Some g ∧ g ∈ gs) →
  concat (bucket key l <$> gs) ≡ₚ l.
Proof.
  intros Hnd. induction l as [|x l IH]; intros Hkey.
  - by rewrite buckets_nil.
  - destruct (Hkey x) as (g & Hg & Hin); [apply list_elem_of_here|].
    apply list_elem_of_split in Hin as (gs1 & gs2 & ->).
    apply NoDup_app in Hnd as Hnd'. destruct Hnd' as (_ & Hg1 & Hnd2).
    apply NoDup_cons in Hnd2 as [Hg2 _].
    rewrite fmap_app, concat_app, fmap_cons, concat_cons.
    rewrite !buckets_cons_other.
    + unfold bucket at 2. cbn. rewrite bool_decide_eq_true_2 by done.
      fold (bucket key l g). rewrite <- app_comm_cons, <- Permutation_middle.
      constructor.
      rewrite fmap_app, concat_app, fmap_cons, concat_cons in IH.
      apply IH. intros y Hy. apply Hkey. by apply list_elem_of_further.
    + intros g' Hg' Heq. rewrite Hg in Heq. injection Heq as <-. by apply Hg2.
    + intros g' Hg' Heq. rewrite Hg in Heq. injection Heq as <-.
      apply (Hg1 g); [done | apply list_elem_of_here].
Qed.

End buckets.

Section HBLOCK_facts.
Context `{Geometry}.

Lemma sjoin_single (XYs : list row) (grid : list tile) :
  interiors_disjoint grid →
  sjoin_left_within XYs grid
  = (λ r, Row (row_index r) (row_geometry r) (joined_id grid (row_geometry r))) <$> XYs.
Proof.
  intros Hdisj. unfold sjoin_left_within.
  induction XYs as [|r XYs IH]; [reflexivity|].
  change (flat_map ?f (r :: XYs)) with (f r ++ flat_map f XYs).
  rewrite IH, fmap_cons. unfold joined_id at 2. specialize (Hdisj (row_geometry r)).
  destruct (List.filter _ grid) as [|t [|t' ts]];
    [reflexivity | reflexivity | cbn in Hdisj; lia].
Qed.

Lemma assign_pt_to_grid_Ok (XYs : list row) (grid : list tile) :
  interiors_disjoint grid → grid ≠ [] →
  assign_pt_to_grid XYs grid
  = Ok ((λ r, Row (row_index r) (row_geometry r)
                (Some (assigned_id grid (row_geometry r)))) <$> XYs).
Proof.
  intros Hdisj Hne. unfold assign_pt_to_grid. rewrite sjoin_single by done.
  destruct (existsb _ _) eqn:Hna.
  - destruct grid as [|t grid]; [done|]. cbn [fmap list_fmap KDTree mbind result_bind mret result_ret].
    f_equal. rewrite <- list_fmap_compose. apply Forall_fmap_ext_1, Forall_forall.
    intros r _. unfold isna, assigned_id, compose. cbn.
    destruct (joined_id _ _); reflexivity.
  - cbn. f_equal. apply Forall_fmap_ext_1, Forall_forall. intros r Hr.
    unfold assigned_id. destruct (joined_id grid (row_geometry r)) eqn:Hj; [reflexivity|].
    exfalso. apply not_true_iff_false in Hna. apply Hna, existsb_exists.
    eexists. split; [apply list_elem_of_In, list_elem_of_fmap; eauto|].
    unfold isna. cbn. by rewrite Hj.
Qed.

Lemma assigned_id_in_grid (grid : list tile) (p : point) :
  ids_are_positions grid → kd_query_in_range → grid ≠ [] →
  assigned_id grid p ∈ tile_grid_id <$> grid.
Proof.
  intros Hpos Hkd Hne. unfold assigned_id, joined_id.
  destruct (List.filter _ grid) as [|t ts] eqn:Hf.
  - set (data := (λ t, centroid (tile_geometry t)) <$> grid).
    assert (Hlt : kd_query data p < length grid).
    { rewrite <- (length_fmap (λ t, centroid (tile_geometry t))). apply Hkd.
      subst data. by destruct grid. }
    destruct (lookup_lt_is_Some_2 grid _ Hlt) as [t Ht].
    rewrite <- (Hpos _ _ Ht). apply list_elem_of_fmap. exists t.
    split; [reflexivity|]. by eapply list_elem_of_lookup_2.
  - apply list_elem_of_fmap. exists t. split; [reflexivity|].
    apply list_elem_of_In. eapply (proj1 (filter_In _ _ _)). rewrite Hf. by left.
Qed.

End HBLOCK_facts.

Section HBLOCK_partition.
Context `{Geometry}.
Variable construct_blocks : list row → nat → nat → string → string → nat → list tile.

Lemma frame_index (X : list point) (f : row → option Z) :
  row_index <$> ((λ r, Row (row_index r) (row_geometry r) (f r)) <$> GeoDataFrame X)
  = seq 0 (length X).
Proof.
  rewrite <- list_fmap_compose. unfold GeoDataFrame. rewrite fmap_imap.
  rewrite <- (list_fmap_id (seq 0 (length X))), <- (imap_seq_0 X id).
  apply imap_ext. reflexivity.
Qed.

Lemma concat_tests_omap (tests : Z → list nat) (gs : list Z) (yielded : list (option fold)) :
  Forall2 (λ g y, (y = None ∧ tests g = []) ∨ ∃ excluded, y = Some (tests g, excluded))
    gs yielded →
  concat (omap id yielded).*1 = concat (tests <$> gs).
Proof.
  induction 1 as [|g y gs ys Hy _ IH]; [reflexivity|].
  destruct Hy as [[-> Hg]|[excluded ->]]; cbn.
  - rewrite Hg. exact IH.
  - by rewrite IH.
Qed.

Lemma concat_fmap_buckets {A B C} (f : A → B) (b : C → list A) (gs : list C) :
  concat ((λ g, f <$> b g) <$> gs) = f <$> concat (b <$> gs).
Proof.
  induction gs as [|g gs IH]; [reflexivity|]. cbn. by rewrite IH, fmap_app.
Qed.

(** X3: when there is at least one tile, no point is within two tiles, every
    tile carries its row position as [grid_id] and the nearest-neighbour
    query answers a position of its data, HBLOCK returns and the test sets of
    its folds hold every point index exactly once. *)
Theorem hblock_partition_when_ids_are_positions (self : HBLOCK.t) (X : list point) :
  let grid := construct_blocks (GeoDataFrame X) (HBLOCK.tiles_x self)
                (HBLOCK.tiles_y self) (HBLOCK.method self) (HBLOCK.direction self)
                (HBLOCK.n_groups self) in
  grid ≠ [] → interiors_disjoint grid → ids_are_positions grid →
  kd_query_in_range →
  ∃ folds,
    HBLOCK._iter_test_indices construct_blocks self X = Ok folds ∧
    concat folds.*1 ≡ₚ seq 0 (length X).
Proof.
  intros grid Hne Hdisj Hpos Hkd. unfold HBLOCK._iter_test_indices. fold grid.
  rewrite assign_pt_to_grid_Ok by done. cbn [mbind result_bind].
  set (XYs := _ <$> GeoDataFrame X).
  set (gs := np_unique (tile_grid_id <$> grid)).
  assert (Hgs : ∀ g, g ∈ gs ↔ g ∈ tile_grid_id <$> grid).
  { intros g. unfold gs, np_unique. by rewrite merge_sort_Permutation, elem_of_remove_dups. }
  assert (Hnd : NoDup gs).
  { unfold gs, np_unique. rewrite merge_sort_Permutation. apply NoDup_remove_dups. }
  destruct (mapM_Ok_Forall2 (HBLOCK.fold_of_grid self XYs grid)
              (λ g y, (y = None ∧ rows_of_grid XYs g = [])
                      ∨ ∃ excluded, y = Some (rows_of_grid XYs g, excluded)) gs)
    as (yielded & -> & HF).
  { intros g Hg. unfold HBLOCK.fold_of_grid.
    destruct (rows_of_grid XYs g) as [|i test] eqn:Htest.
    - eexists. split; [reflexivity|]. by left.
    - rewrite bool_decide_eq_false_2 by (cbn; lia).
      destruct (bool_decide (0 < HBLOCK.buffer_radius self)%Qc).
      + apply Hgs, list_elem_of_fmap in Hg as (t & -> & Ht).
        apply list_elem_of_lookup in Ht as (k & Hk).
        unfold grid_loc, lookup_or. rewrite (Hpos _ _ Hk).
        rewrite bool_decide_eq_true_2 by lia. rewrite Nat2Z.id, Hk.
        eexists. split; [reflexivity|]. right. eauto.
      + eexists. split; [reflexivity|]. right. eauto. }
  eexists. split; [reflexivity|].
  rewrite (concat_tests_omap (rows_of_grid XYs) gs yielded HF).
  unfold rows_of_grid.
  change (λ g, row_index <$> List.filter (λ r, bool_decide (row_grid_id r = Some g)) XYs)
    with (λ g, row_index <$> bucket row_grid_id XYs g).
  rewrite concat_fmap_buckets, buckets_perm.
  - subst XYs. by rewrite frame_index.
  - exact Hnd.
  - intros r Hr. subst XYs. apply list_elem_of_fmap in Hr as (r0 & -> & _).
    eexists. split; [reflexivity|]. apply Hgs. by apply assigned_id_in_grid.
Qed.

End HBLOCK_partition.


(** C1, at a failing input: with tiles grouped under the ids 0 and 1, the
    point on the outer edge of the last tile is within no tile; the fallback
    stores the row position 3 of the nearest tile as its [grid_id], no fold is
    made for 3, and index 2 is in no test set. *)
Theorem hblock_edge_point_in_no_fold :
  HBLOCK._iter_test_indices (H := Planar.geometry) (Planar.provide Planar.grouped_grid)
    (HBLOCK.Build 2 2 "random" 0%Qc "diagonal" 2) Planar.edge_points
  = Ok [([0; 1], [])]
  ∧ 2 < length Planar.edge_points
  ∧ 2 ∉ concat ([([0; 1], [])] : list fold).*1.
Proof.
  split; [vm_compute; reflexivity|]. split; [cbn; lia|].
  cbn. intros Hin. repeat (apply elem_of_cons in Hin as [Hin|Hin]; [discriminate|]).
  by apply elem_of_nil in Hin.
Qed.

(** The same happens with distinct ids that are not row positions: the edge
    point of the first tile receives the id 0, which no tile carries. *)
Example hblock_one_based_ids :
  HBLOCK._iter_test_indices (H := Planar.geometry) (Planar.provide Planar.one_based_grid)
    (HBLOCK.Build 2 2 "unique" 0%Qc "diagonal" 5) Planar.corner_points
  = Ok [([0], []); ([1], [])].
Proof. vm_compute. reflexivity. Qed.

(** With row positions as ids the same points are all tested once. *)
Example hblock_positional_ids :
  HBLOCK._iter_test_indices (H := Planar.geometry) (Planar.provide Planar.unique_grid)
    (HBLOCK.Build 2 2 "unique" 0%Qc "diagonal" 5) Planar.edge_points
  = Ok [([0], []); ([1; 2], [])].
Proof. vm_compute. reflexivity. Qed.

(** ** The result monad, continued *)

Lemma mapM_Ok_inv {A B} (f : A → result B) (l : list A) (ys : list B) :
  mapM f l = Ok ys → Forall2 (λ x y, f x = Ok y) l ys.
Proof.
  revert ys. induction l as [|x l IH]; intros ys; cbn.
  - intros [= <-]. constructor.
  - destruct (f x) as [y|] eqn:Hy; [|discriminate]. cbn.
    destruct (mapM f l) as [ys'|]; [|discriminate]. intros [= <-].
    constructor; [done | by apply IH].
Qed.

Lemma mapM_Raise_inv {A B} (f : A → result B) (l : list A) (e : exn) :
  mapM f l = Raise e → ∃ x, x ∈ l ∧ f x = Raise e.
Proof.
  induction l as [|x l IH]; cbn; [discriminate|].
  destruct (f x) as [y|e'] eqn:Hy; cbn.
  - destruct (mapM f l) as [ys'|e'']; [discriminate|]. intros [= ->].
    destruct IH as (x' & Hx' & Hf); [done|]. exists x'. split; [by right | done].
  - intros [= ->]. exists x. split; [by left | done].
Qed.

(** A loop whose turns can only raise [e], and of which one turn does, raises
    [e]. *)
Lemma mapM_raises {A B} (f : A → result B) (l : list A) (e : exn) (x : A) :
  (∀ y e', y ∈ l → f y = Raise e' → e' = e) → x ∈ l → f x = Raise e →
  mapM f l = Raise e.
Proof.
  intros Honly Hx Hfx. destruct (mapM f l) as [ys|e'] eqn:Hm.
  - apply mapM_Ok_inv in Hm. apply list_elem_of_lookup in Hx as [k Hk].
    destruct (Forall2_lookup_l _ _ _ _ _ Hm Hk) as (y & _ & Hy). congruence.
  - apply mapM_Raise_inv in Hm as (y & Hy & Hfy). f_equal. by eapply Honly.
Qed.

(** ** The cross-validation driver, with a splitter *)

Section take_rows_facts.
Context {A : Type}.




End take_rows_facts.

Section CrossVal_facts.
Context {Model Features Labels Score Coordinates Splitter Scoring : Type}.
Variable fit : Model → list Features → list Labels → Model.
Variable make_scorer : Scoring → Model → list Features → list Labels → Score.
Variable split : Splitter → Coordinates → result (list (list nat * list nat)).
Variable KFold : bool → Z → nat → Splitter.






End CrossVal_facts.



(** ** HBLOCK: what every yielded fold satisfies *)

Section HBLOCK_invariants.
Context `{Geometry}.
Variable construct_blocks : list row → nat → nat → string → string → nat → list tile.

Lemma GeoDataFrame_index (X : list point) :
  row_index <$> GeoDataFrame X = seq 0 (length X).
Proof.
  unfold GeoDataFrame. rewrite fmap_imap.
  rewrite <- (list_fmap_id (seq 0 (length X))), <- (imap_seq_0 X id).
  apply imap_ext. reflexivity.
Qed.

Lemma sjoin_index (XYs : list row) (grid : list tile) (i : nat) :
  i ∈ row_index <$> sjoin_left_within XYs grid ↔ i ∈ row_index <$> XYs.
Proof.
  unfold sjoin_left_within. rewrite flat_map_bind, !list_elem_of_fmap. split.
  - intros (r' & -> & Hr'). apply list_elem_of_bind in Hr' as (r & Hr' & Hr).
    exists r. split; [|done].
    destruct (List.filter _ grid) as [|t ts].
    + apply list_elem_of_singleton in Hr' as ->. reflexivity.
    + apply list_elem_of_fmap in Hr' as (t' & -> & _). reflexivity.
  - intros (r & -> & Hr).
    destruct (List.filter (λ t, within (row_geometry r) (tile_geometry t)) grid)
      as [|t ts] eqn:Hf.
    + exists (Row (row_index r) (row_geometry r) None). split; [reflexivity|].
      apply list_elem_of_bind. exists r. split; [|done]. rewrite Hf. by left.
    + exists (Row (row_index r) (row_geometry r) (Some (tile_grid_id t))).
      split; [reflexivity|]. apply list_elem_of_bind. exists r. split; [|done].
      rewrite Hf. by left.
Qed.

Lemma existsb_isna_false (XYs : list row) :
  existsb isna XYs = false → Forall (λ r, isna r = false) XYs.
Proof.
  induction XYs as [|r XYs IH]; [constructor|]. cbn.
  intros [Hr Hrest]%orb_false_iff. constructor; [done | by apply IH].
Qed.

Lemma assign_pt_to_grid_index (XYs out : list row) (grid : list tile) (i : nat) :
  assign_pt_to_grid XYs grid = Ok out →
  i ∈ row_index <$> out ↔ i ∈ row_index <$> XYs.
Proof.
  unfold assign_pt_to_grid. destruct (existsb isna _).
  - destruct (KDTree _) as [tree|]; [|discriminate]. cbn [mbind result_bind mret result_ret].
    intros [= <-]. rewrite <- (sjoin_index XYs grid i), <- list_fmap_compose.
    rewrite !list_elem_of_fmap. split.
    + intros (r & -> & Hr). exists r. split; [|done]. cbn. by destruct (isna r).
    + intros (r & -> & Hr). exists r. split; [|done]. cbn. by destruct (isna r).
  - intros [= <-]. apply sjoin_index.
Qed.

(** X7: when [assign_pt_to_grid] returns, no row is left without a
    [grid_id], and the rows carry exactly the indices of the points that went
    in: no point is dropped. *)
Theorem assign_pt_to_grid_no_missing_id (XYs out : list row) (grid : list tile) :
  assign_pt_to_grid XYs grid = Ok out →
  Forall (λ r, isna r = false) out
  ∧ ∀ i, i ∈ row_index <$> out ↔ i ∈ row_index <$> XYs.
Proof.
  intros Hassign. split; [|intros i; by eapply assign_pt_to_grid_index].
  unfold assign_pt_to_grid in Hassign. destruct (existsb isna _) eqn:Hna.
  - destruct (KDTree _) as [tree|]; [|discriminate].
    cbn [mbind result_bind mret result_ret] in Hassign. injection Hassign as <-.
    apply Forall_fmap, Forall_forall. intros r _. cbn. by destruct (isna r) eqn:Hr.
  - injection Hassign as <-. by apply existsb_isna_false.
Qed.

Lemma elem_of_rows_of_grid (XYs : list row) (g : Z) (i : nat) :
  i ∈ rows_of_grid XYs g → i ∈ row_index <$> XYs.
Proof.
  unfold rows_of_grid. rewrite !list_elem_of_fmap. intros (r & -> & Hr).
  exists r. split; [done|]. apply list_elem_of_In, filter_In in Hr as [Hr _].
  by apply list_elem_of_In.
Qed.

Lemma fold_of_grid_Some (self : HBLOCK.t) (XYs : list row) (grid : list tile) (g : Z)
    (f : fold) :
  HBLOCK.fold_of_grid self XYs grid g = Ok (Some f) →
  f.1 ≠ []
  ∧ (∀ i, i ∈ f.2 → i ∉ f.1)
  ∧ (∀ i, i ∈ f.1 ++ f.2 → i ∈ row_index <$> XYs)
  ∧ (¬ (0 < HBLOCK.buffer_radius self)%Qc → f.2 = []).
Proof.
  unfold HBLOCK.fold_of_grid. case_bool_decide as Hlen; [discriminate|].
  assert (Hne : rows_of_grid XYs g ≠ []).
  { intros Hnil. rewrite Hnil in Hlen. cbn in Hlen. lia. }
  case_bool_decide as Hr.
  - destruct (grid_loc grid g) as [grid_poly|]; [|discriminate].
    cbn [mbind result_bind mret result_ret]. intros [= <-]. cbn [fst snd].
    split; [done|]. split; [|split; [|done]].
    + intros i Hi. apply list_elem_of_fmap in Hi as (r & -> & Hr').
      apply list_elem_of_In, filter_In in Hr' as [_ Hnot].
      apply negb_true_iff, bool_decide_eq_false in Hnot. exact Hnot.
    + intros i Hi. apply elem_of_app in Hi as [Hi|Hi]; [by eapply elem_of_rows_of_grid|].
      apply list_elem_of_fmap in Hi as (r & -> & Hr').
      apply list_elem_of_In, filter_In in Hr' as [Hr' _].
      unfold clip in Hr'. apply filter_In in Hr' as [Hr' _].
      apply list_elem_of_fmap. exists r. split; [done | by apply list_elem_of_In].
  - cbn [mret result_ret]. intros [= <-]. cbn [fst snd].
    split; [done|]. split; [|split; [|done]].
    + intros i Hi. by apply elem_of_nil in Hi.
    + intros i Hi. rewrite app_nil_r in Hi. by eapply elem_of_rows_of_grid.
Qed.

Lemma fold_of_grid_Raise (self : HBLOCK.t) (XYs : list row) (grid : list tile) (g : Z)
    (e : exn) :
  HBLOCK.fold_of_grid self XYs grid g = Raise e → e = KeyError.
Proof.
  unfold HBLOCK.fold_of_grid. case_bool_decide; [discriminate|].
  case_bool_decide; [|discriminate].
  unfold grid_loc, lookup_or. case_bool_decide.
  - destruct (grid !! Z.to_nat g); [discriminate|]. by intros [= <-].
  - by intros [= <-].
Qed.

Lemma elem_of_omap_id {A} (l : list (option A)) (a : A) :
  a ∈ omap id l ↔ Some a ∈ l.
Proof.
  split.
  - intros Ha. apply list_elem_of_omap in Ha as (o & Ho & Heq). cbn in Heq. by subst o.
  - intros Ha. apply list_elem_of_omap. by exists (Some a).
Qed.

(** X4: every fold that HBLOCK yields has a test set that is not empty, holds
    indices of the input points only, excludes none of its own test points
    from training, and excludes nothing at all when the buffer radius is not
    positive. *)
Theorem hblock_folds_invariants (self : HBLOCK.t) (X : list point) (folds : list fold) :
  HBLOCK._iter_test_indices construct_blocks self X = Ok folds →
  Forall (λ f : fold,
            f.1 ≠ []
            ∧ (∀ i, i ∈ f.2 → i ∉ f.1)
            ∧ Forall (λ i, i < length X) (f.1 ++ f.2)
            ∧ (¬ (0 < HBLOCK.buffer_radius self)%Qc → f.2 = [])) folds.
Proof.
  unfold HBLOCK._iter_test_indices.
  set (grid := construct_blocks _ _ _ _ _ _).
  destruct (assign_pt_to_grid (GeoDataFrame X) grid) as [XYs|] eqn:Hassign; [|discriminate].
  cbn [mbind result_bind].
  destruct (mapM _ _) as [yielded|] eqn:Hy; [|discriminate].
  cbn [mbind result_bind mret result_ret]. intros [= <-].
  pose proof (λ i, assign_pt_to_grid_index _ _ _ i Hassign) as Hidx.
  apply mapM_Ok_inv in Hy. apply Forall_forall. intros f Hf.
  apply elem_of_omap_id, list_elem_of_lookup in Hf as [k Hk].
  destruct (Forall2_lookup_r _ _ _ _ _ Hy Hk) as (g & _ & Hg).
  apply fold_of_grid_Some in Hg as (Hne & Hdisj & Hin & Hzero).
  split; [done|]. split; [done|]. split; [|done].
  apply Forall_forall. intros i Hi. apply Hin, Hidx in Hi.
  rewrite GeoDataFrame_index in Hi. apply elem_of_seq in Hi. lia.
Qed.

(** X6: the dead zone is looked up by row label ([grid.loc[[grid_id]]]).
    With a positive radius, a populated [grid_id] that is no row label of the
    tile frame makes the splitter raise [KeyError]. *)
Theorem hblock_buffer_needs_row_labels (self : HBLOCK.t) (X : list point)
    (XYs : list row) (g : Z) :
  let grid := construct_blocks (GeoDataFrame X) (HBLOCK.tiles_x self)
                (HBLOCK.tiles_y self) (HBLOCK.method self) (HBLOCK.direction self)
                (HBLOCK.n_groups self) in
  (0 < HBLOCK.buffer_radius self)%Qc →
  assign_pt_to_grid (GeoDataFrame X) grid = Ok XYs →
  g ∈ tile_grid_id <$> grid →
  rows_of_grid XYs g ≠ [] →
  (g < 0 ∨ Z.of_nat (length grid) ≤ g)%Z →
  HBLOCK._iter_test_indices construct_blocks self X = Raise KeyError.
Proof.
  intros grid Hr Hassign Hg Hrows Hlabel. unfold HBLOCK._iter_test_indices. fold grid.
  rewrite Hassign. cbn [mbind result_bind].
  rewrite (mapM_raises _ _ KeyError g); [reflexivity| | |].
  - intros g' e _. apply fold_of_grid_Raise.
  - unfold np_unique. by rewrite merge_sort_Permutation, elem_of_remove_dups.
  - unfold HBLOCK.fold_of_grid.
    rewrite bool_decide_eq_false_2 by (destruct (rows_of_grid XYs g); [done | cbn; lia]).
    rewrite bool_decide_eq_true_2 by done.
    unfold grid_loc, lookup_or. case_bool_decide as H0; [|reflexivity].
    rewrite (proj2 (lookup_ge_None grid (Z.to_nat g))) by lia. reflexivity.
Qed.

End HBLOCK_invariants.

(** ** SLOO without a radius *)

(** X8: the radius has no usable default. With [buffer_radius = None], as
    the constructor leaves it, SLOO yields nothing for an empty frame and
    raises on the first point of any other. *)
Theorem sloo_without_radius `{Geometry} (shuffle : bool) (random_state : option Z)
    (X : list point) :
  returns (SLOO._iter_test_indices (SLOO.Build None shuffle random_state) X) ↔ X = [].
Proof.
  unfold SLOO._iter_test_indices. split.
  - intros [folds Hfolds]. destruct X as [|p X]; [reflexivity|]. discriminate Hfolds.
  - intros ->. by exists [].
Qed.

(** ** The planar geometry: facts for the examples *)

Section Planar_facts.
Import Planar.

Lemma nearest_from_lt (p : pt) (data : list pt) (pos : nat) (best : nat * Qc) :
  best.1 < pos → nearest_from p data pos best < pos + length data.
Proof.
  revert pos best. induction data as [|c data IH]; intros pos best Hbest; cbn; [lia|].
  replace (pos + S (length data)) with (S pos + length data) by lia.
  apply IH. destruct (Qcltb _ _); cbn; lia.
Qed.

Lemma nearest_in_range : kd_query_in_range (H := geometry).
Proof.
  intros data p Hne. destruct data as [|c data]; [done|]. cbn.
  apply (nearest_from_lt p data 1 (0, dist2 p c)). cbn. lia.
Qed.

Lemma box_left_of (p : pt) (x0 y0 x1 y1 : Qc) :
  (px p ≤ x0)%Qc → pt_within p (Box x0 y0 x1 y1) = false.
Proof.
  intros Hle. cbn. unfold Qcltb at 1.
  rewrite bool_decide_eq_false_2 by (by apply Qcle_not_lt). reflexivity.
Qed.

Lemma box_right_of (p : pt) (x0 y0 x1 y1 : Qc) :
  (x1 ≤ px p)%Qc → pt_within p (Box x0 y0 x1 y1) = false.
Proof.
  intros Hle. cbn. unfold Qcltb at 2.
  rewrite (bool_decide_eq_false_2 (px p < x1)%Qc) by (by apply Qcle_not_lt).
  by rewrite andb_false_r.
Qed.

Lemma box_below (p : pt) (x0 y0 x1 y1 : Qc) :
  (py p ≤ y0)%Qc → pt_within p (Box x0 y0 x1 y1) = false.
Proof.
  intros Hle. cbn. unfold Qcltb at 3.
  rewrite (bool_decide_eq_false_2 (y0 < py p)%Qc) by (by apply Qcle_not_lt).
  by rewrite andb_false_r.
Qed.

Lemma box_above (p : pt) (x0 y0 x1 y1 : Qc) :
  (y1 ≤ py p)%Qc → pt_within p (Box x0 y0 x1 y1) = false.
Proof.
  intros Hle. cbn. unfold Qcltb at 4.
  rewrite (bool_decide_eq_false_2 (py p < y1)%Qc) by (by apply Qcle_not_lt).
  by rewrite andb_false_r.
Qed.

Lemma quad_grid_disjoint (g0 g1 g2 g3 : Z) :
  interiors_disjoint (H := geometry)
    [Tile g0 (Box (qz 0) (qz 0) (qz 2) (qz 2)); Tile g1 (Box (qz 0) (qz 2) (qz 2) (qz 4));
     Tile g2 (Box (qz 2) (qz 0) (qz 4) (qz 2)); Tile g3 (Box (qz 2) (qz 2) (qz 4) (qz 4))].
Proof.
  intros p.
  cbn [List.filter tile_geometry within geometry].
  destruct (Qclt_le_dec (px p) (qz 2)) as [Hx|Hx];
    destruct (Qclt_le_dec (py p) (qz 2)) as [Hy|Hy].
  - rewrite (box_below p (qz 0) (qz 2) (qz 2) (qz 4)) by (by apply Qclt_le_weak).
    rewrite (box_left_of p (qz 2) (qz 0) (qz 4) (qz 2)) by (by apply Qclt_le_weak).
    rewrite (box_left_of p (qz 2) (qz 2) (qz 4) (qz 4)) by (by apply Qclt_le_weak).
    destruct (pt_within p _); cbn; lia.
  - rewrite (box_above p (qz 0) (qz 0) (qz 2) (qz 2)) by done.
    rewrite (box_left_of p (qz 2) (qz 0) (qz 4) (qz 2)) by (by apply Qclt_le_weak).
    rewrite (box_left_of p (qz 2) (qz 2) (qz 4) (qz 4)) by (by apply Qclt_le_weak).
    destruct (pt_within p _); cbn; lia.
  - rewrite (box_right_of p (qz 0) (qz 0) (qz 2) (qz 2)) by done.
    rewrite (box_right_of p (qz 0) (qz 2) (qz 2) (qz 4)) by done.
    rewrite (box_below p (qz 2) (qz 2) (qz 4) (qz 4)) by (by apply Qclt_le_weak).
    destruct (pt_within p _); cbn; lia.
  - rewrite (box_right_of p (qz 0) (qz 0) (qz 2) (qz 2)) by done.
    rewrite (box_right_of p (qz 0) (qz 2) (qz 2) (qz 4)) by done.
    rewrite (box_above p (qz 2) (qz 0) (qz 4) (qz 2)) by done.
    destruct (pt_within p _); cbn; lia.
Qed.

Lemma unique_grid_positions : ids_are_positions (H := geometry) unique_grid.
Proof.
  intros k t Hk. unfold unique_grid in Hk.
  repeat (destruct k as [|k]; [by injection Hk as <-|]). discriminate Hk.
Qed.

End Planar_facts.

Lemma hblock_partition_when_ids_are_positions_witness :
  ∃ folds,
    HBLOCK._iter_test_indices (H := Planar.geometry) (Planar.provide Planar.unique_grid)
      (HBLOCK.Build 2 2 "unique" 0%Qc "diagonal" 5) Planar.edge_points = Ok folds ∧
    concat folds.*1 ≡ₚ seq 0 (length Planar.edge_points).
Proof.
  apply (hblock_partition_when_ids_are_positions (H := Planar.geometry)
           (Planar.provide Planar.unique_grid)
           (HBLOCK.Build 2 2 "unique" 0%Qc "diagonal" 5) Planar.edge_points).
  - discriminate.
  - apply quad_grid_disjoint.
  - apply unique_grid_positions.
  - apply nearest_in_range.
Defined.

Lemma hblock_folds_invariants_witness :
  Forall (λ f : fold,
            f.1 ≠ []
            ∧ (∀ i, i ∈ f.2 → i ∉ f.1)
            ∧ Forall (λ i, i < length Planar.edge_points) (f.1 ++ f.2)
            ∧ (¬ (0 < Planar.qz 2)%Qc → f.2 = []))
    [([0], [1]); ([1; 2], [0])].
Proof.
  apply (hblock_folds_invariants (H := Planar.geometry) (Planar.provide Planar.unique_grid)
           (HBLOCK.Build 2 2 "unique" (Planar.qz 2) "diagonal" 5) Planar.edge_points
           [([0], [1]); ([1; 2], [0])]).
  vm_compute. reflexivity.
Defined.

Lemma hblock_buffer_needs_row_labels_witness :
  HBLOCK._iter_test_indices (H := Planar.geometry) (Planar.provide Planar.one_based_grid)
    (HBLOCK.Build 2 2 "unique" (Planar.qz 1) "diagonal" 5) Planar.edge_points
  = Raise KeyError.
Proof.
  apply (hblock_buffer_needs_row_labels (H := Planar.geometry)
           (Planar.provide Planar.one_based_grid)
           (HBLOCK.Build 2 2 "unique" (Planar.qz 1) "diagonal" 5) Planar.edge_points
           ((λ r, Row (row_index r) (row_geometry r)
                    (Some (assigned_id Planar.one_based_grid (row_geometry r))))
              <$> GeoDataFrame (H := Planar.geometry) Planar.edge_points) 4%Z).
  - reflexivity.
  - apply assign_pt_to_grid_Ok; [apply quad_grid_disjoint | discriminate].
  - vm_compute. repeat constructor.
  - vm_compute. discriminate.
  - cbn. lia.
Defined.

Lemma assign_pt_to_grid_no_missing_id_witness :
  Forall (λ r, isna (H := Planar.geometry) r = false)
    ((λ r, Row (row_index r) (row_geometry r)
             (Some (assigned_id Planar.grouped_grid (row_geometry r))))
       <$> GeoDataFrame (H := Planar.geometry) Planar.edge_points)
  ∧ ∀ i, i ∈ row_index <$>
             ((λ r, Row (row_index r) (row_geometry r)
                      (Some (assigned_id Planar.grouped_grid (row_geometry r))))
                <$> GeoDataFrame (H := Planar.geometry) Planar.edge_points)
         ↔ i ∈ row_index <$> GeoDataFrame (H := Planar.geometry) Planar.edge_points.
Proof.
  apply (assign_pt_to_grid_no_missing_id (H := Planar.geometry)
           (GeoDataFrame (H := Planar.geometry) Planar.edge_points) _ Planar.grouped_grid).
  apply assign_pt_to_grid_Ok; [apply quad_grid_disjoint | discriminate].
Defined.

(** ** HBLOCK: no point is tested twice *)

Lemma NoDup_of_submseteq {A} (l k : list A) : l ⊆+ k → NoDup k → NoDup l.
Proof.
  intros [k' Hk]%submseteq_Permutation Hnd. rewrite Hk in Hnd.
  by apply NoDup_app in Hnd as [Hl _].
Qed.

Section buckets_sub.
Context {A : Type} (key : A → option Z).

Lemma buckets_submseteq (l : list A) (gs : list Z) :
  NoDup gs → concat (bucket key l <$> gs) ⊆+ l.
Proof.
  intros Hnd. induction l as [|x l IH].
  - by rewrite buckets_nil.
  - destruct (key x) as [g|] eqn:Hg.
    + destruct (decide (g ∈ gs)) as [Hin|Hnin].
      * apply list_elem_of_split in Hin as (gs1 & gs2 & ->).
        apply NoDup_app in Hnd as Hnd'. destruct Hnd' as (_ & Hg1 & Hnd2).
        apply NoDup_cons in Hnd2 as [Hg2 _].
        rewrite fmap_app, concat_app, fmap_cons, concat_cons.
        rewrite !buckets_cons_other.
        -- unfold bucket at 2. cbn. rewrite bool_decide_eq_true_2 by done.
           fold (bucket key l g). rewrite <- app_comm_cons, <- Permutation_middle.
           constructor.
           by rewrite fmap_app, concat_app, fmap_cons, concat_cons in IH.
        -- intros g' Hg' Heq. rewrite Hg in Heq. injection Heq as <-. by apply Hg2.
        -- intros g' Hg' Heq. rewrite Hg in Heq. injection Heq as <-.
           apply (Hg1 g); [done | apply list_elem_of_here].
      * rewrite buckets_cons_other; [by apply submseteq_cons|].
        intros g' Hg' Heq. rewrite Hg in Heq. injection Heq as <-. done.
    + rewrite buckets_cons_other; [by apply submseteq_cons|].
      intros g' _ Heq. by rewrite Hg in Heq.
Qed.

End buckets_sub.

Section HBLOCK_once.
Context `{Geometry}.
Variable construct_blocks : list row → nat → nat → string → string → nat → list tile.

Lemma omap_tests (XYs : list row) (self : HBLOCK.t) (grid : list tile) (gs : list Z)
    (yielded : list (option fold)) :
  Forall2 (λ g y, HBLOCK.fold_of_grid self XYs grid g = Ok y) gs yielded →
  concat (omap id yielded).*1 = concat (rows_of_grid XYs <$> gs).
Proof.
  intros HF. apply concat_tests_omap. eapply Forall2_impl; [exact HF|].
  intros g y Hy. cbn in Hy. unfold HBLOCK.fold_of_grid in Hy.
  case_bool_decide as Hlen.
  - injection Hy as <-. left. split; [done|].
    destruct (rows_of_grid XYs g); [done | cbn in Hlen; lia].
  - right. case_bool_decide.
    + destruct (grid_loc grid g); [|discriminate]. injection Hy as <-. eauto.
    + injection Hy as <-. eauto.
Qed.

(** X5: when no point is within two tiles, no point is tested twice: the
    test sets of the folds that HBLOCK yields share no index. *)
Theorem hblock_no_point_tested_twice (self : HBLOCK.t) (X : list point)
    (folds : list fold) :
  interiors_disjoint
    (construct_blocks (GeoDataFrame X) (HBLOCK.tiles_x self) (HBLOCK.tiles_y self)
       (HBLOCK.method self) (HBLOCK.direction self) (HBLOCK.n_groups self)) →
  HBLOCK._iter_test_indices construct_blocks self X = Ok folds →
  NoDup (concat folds.*1).
Proof.
  intros Hdisj. unfold HBLOCK._iter_test_indices.
  set (grid := construct_blocks _ _ _ _ _ _) in *.
  destruct (assign_pt_to_grid (GeoDataFrame X) grid) as [XYs|] eqn:Hassign; [|discriminate].
  cbn [mbind result_bind].
  destruct (mapM _ _) as [yielded|] eqn:Hy; [|discriminate].
  cbn [mbind result_bind mret result_ret]. intros [= <-].
  apply mapM_Ok_inv in Hy.
  refine (eq_rect_r NoDup _ (omap_tests XYs self grid _ yielded Hy)).
  assert (Hidx : NoDup (row_index <$> XYs)).
  { unfold assign_pt_to_grid in Hassign. rewrite sjoin_single in Hassign by done.
    destruct (existsb isna _).
    - destruct (KDTree _); [|discriminate]. cbn in Hassign. injection Hassign as <-.
      rewrite <- !list_fmap_compose.
      rewrite (list_fmap_ext _ row_index (GeoDataFrame X)).
      + rewrite GeoDataFrame_index. apply NoDup_seq.
      + intros k r _. cbn. by destruct (isna _).
    - injection Hassign as <-. rewrite <- list_fmap_compose.
      rewrite (list_fmap_ext _ row_index (GeoDataFrame X)) by done.
      rewrite GeoDataFrame_index. apply NoDup_seq. }
  unfold rows_of_grid.
  change (λ g, row_index <$> List.filter (λ r, bool_decide (row_grid_id r = Some g)) XYs)
    with (λ g, row_index <$> bucket row_grid_id XYs g).
  rewrite concat_fmap_buckets.
  eapply NoDup_of_submseteq; [|exact Hidx].
  apply fmap_submseteq, buckets_submseteq.
  unfold np_unique. rewrite merge_sort_Permutation. apply NoDup_remove_dups.
Qed.

End HBLOCK_once.

Lemma hblock_no_point_tested_twice_witness :
  NoDup (concat ([([0], []); ([1], [])] : list fold).*1).
Proof.
  apply (hblock_no_point_tested_twice (H := Planar.geometry)
           (Planar.provide Planar.one_based_grid)
           (HBLOCK.Build 2 2 "unique" 0%Qc "diagonal" 5) Planar.corner_points
           [([0], []); ([1], [])]).
  - apply quad_grid_disjoint.
  - vm_compute. reflexivity.
Defined.

(** ** Area of applicability: scaling of the distances *)

Local Open Scope Qc_scope.

Section scaling.
Variable c : Qc.
Hypothesis c_pos : 0 < c.

Lemma c_ne_0 : c ≠ 0.
Proof. intros ->. by apply (Qclt_not_eq 0 0). Qed.

Lemma scale_eq_0 (a : Qc) : c * a = 0 ↔ a = 0.
Proof.
  split; [|intros ->; apply Qcmult_0_r].
  intros Ha. by apply (Qcmult_integral_l c a c_ne_0).
Qed.

Lemma scale_ltb_0 (a : Qc) : Qcltb (c * a) 0 = Qcltb a 0.
Proof.
  unfold Qcltb. apply bool_decide_ext.
  rewrite (Qcmult_lt_mono_pos_l a 0 c c_pos), Qcmult_0_r. reflexivity.
Qed.

Lemma scale_leb (a b : Qc) : Qcleb (c * a) (c * b) = Qcleb a b.
Proof.
  unfold Qcleb. apply bool_decide_ext. symmetry. by apply Qcmult_le_mono_pos_l.
Qed.

Lemma fadd_fscale (x y : float64) : fadd (fscale c x) (fscale c y) = fscale c (fadd x y).
Proof.
  destruct x as [a|s|], y as [b|s'|]; cbn; try reflexivity.
  - by rewrite Qcmult_plus_distr_r.
  - by destruct (bool_decide (s = s')).
Qed.

Lemma fle_fscale (x y : float64) : fle (fscale c x) (fscale c y) = fle x y.
Proof. destruct x, y; cbn; try reflexivity. apply scale_leb. Qed.

Lemma fmin_fscale (x y : float64) : fmin (fscale c x) (fscale c y) = fscale c (fmin x y).
Proof. unfold fmin. rewrite fle_fscale. by destruct (fle x y). Qed.

Lemma fdiv_fscale_l (x : float64) (n : Qc) :
  fdiv (fscale c x) (Fin n) = fscale c (fdiv x (Fin n)).
Proof.
  destruct x as [a|s|]; cbn; try reflexivity.
  destruct (bool_decide_reflect (n = 0)) as [->|Hn].
  - rewrite scale_ltb_0. rewrite (bool_decide_ext _ _ (scale_eq_0 a)).
    by destruct (bool_decide (a = 0)).
  - cbn. f_equal. field. exact Hn.
Qed.

Lemma fdiv_fscale (x y : float64) : fdiv (fscale c x) (fscale c y) = fdiv x y.
Proof.
  destruct x as [a|s|], y as [b|s'|]; cbn; try reflexivity.
  - rewrite (bool_decide_ext _ _ (scale_eq_0 b)), (bool_decide_ext _ _ (scale_eq_0 a)),
      scale_ltb_0.
    destruct (bool_decide_reflect (b = 0)) as [->|Hb]; [reflexivity|].
    f_equal. field. split; [exact Hb | exact c_ne_0].
  - by rewrite scale_ltb_0.
Qed.

Lemma np_sum_fscale (l : list float64) : np_sum (fscale c <$> l) = fscale c (np_sum l).
Proof.
  unfold np_sum. induction l as [|x l IH]; cbn.
  - by rewrite Qcmult_0_r.
  - by rewrite IH, fadd_fscale.
Qed.

Lemma np_mean_fscale (l : list float64) : np_mean (fscale c <$> l) = fscale c (np_mean l).
Proof. unfold np_mean. by rewrite np_sum_fscale, length_fmap, fdiv_fscale_l. Qed.

Lemma isnan_fscale (x : float64) : isnan (fscale c x) = isnan x.
Proof. by destruct x. Qed.

Lemma drop_nan_fscale (l : list float64) : drop_nan (fscale c <$> l) = fscale c <$> drop_nan l.
Proof.
  unfold drop_nan. induction l as [|x l IH]; [reflexivity|].
  cbn. rewrite isnan_fscale, IH. by destruct (isnan x).
Qed.

Lemma np_nanmean_fscale (l : list float64) :
  np_nanmean (fscale c <$> l) = fscale c (np_nanmean l).
Proof. unfold np_nanmean. by rewrite drop_nan_fscale, np_mean_fscale. Qed.

Lemma np_nanmin_fscale (l : list float64) :
  np_nanmin (fscale c <$> l) = fscale c (np_nanmin l).
Proof.
  unfold np_nanmin. rewrite drop_nan_fscale.
  destruct (drop_nan l) as [|x rest]; [reflexivity|]. cbn.
  induction rest as [|y rest IH]; [reflexivity|].
  cbn. by rewrite IH, fmin_fscale.
Qed.

Lemma train_dist_avgmean_fscale (m : list (list float64)) :
  train_dist_avgmean (map2d (fscale c) m) = fscale c (train_dist_avgmean m).
Proof.
  unfold train_dist_avgmean, map2d. rewrite <- list_fmap_compose.
  rewrite <- np_mean_fscale, <- list_fmap_compose.
  f_equal. apply list_fmap_ext. intros i row _. apply np_nanmean_fscale.
Qed.

Lemma aoa_threshold_fscale (m : list (list float64)) (q : Qc) :
  aoa_threshold (map2d (fscale c) m) q = aoa_threshold m q.
Proof.
  unfold aoa_threshold. rewrite train_dist_avgmean_fscale. f_equal.
  unfold map2d. rewrite <- !list_fmap_compose. apply list_fmap_ext.
  intros i row _. cbn. by rewrite np_nanmin_fscale, fdiv_fscale.
Qed.

Lemma mask_assign_fscale (row : list float64) (mask : list bool) :
  mask_assign (fscale c <$> row) mask NaN = (λ r : list float64, fscale c <$> r) <$> mask_assign row mask NaN.
Proof.
  unfold mask_assign. rewrite length_fmap.
  destruct (bool_decide (length mask = length row)); [|reflexivity].
  cbn. f_equal. revert mask. induction row as [|x row IH]; intros [|b mask]; try reflexivity.
  cbn. rewrite IH. by destruct b.
Qed.

Lemma mask_row_fscale folds (i : nat) (row : list float64) :
  mask_row folds i (fscale c <$> row) = (λ r : list float64, fscale c <$> r) <$> mask_row folds i row.
Proof.
  unfold mask_row. destruct (lookup_or IndexError folds.*1 i); [|reflexivity].
  cbn. apply mask_assign_fscale.
Qed.

Lemma mask_rows_fscale folds (i : nat) (rows : list (list float64)) :
  mask_rows folds i (map2d (fscale c) rows) = map2d (fscale c) <$> mask_rows folds i rows.
Proof.
  revert i. induction rows as [|row rows IH]; intros i; [reflexivity|].
  cbn. rewrite mask_row_fscale. destruct (mask_row folds i row); [|reflexivity].
  cbn. unfold map2d in IH. rewrite IH. by destruct (mask_rows folds (S i) rows).
Qed.

Lemma fill_diagonal_fscale (td : list (list Qc)) :
  fill_diagonal (map2d Fin (map2d (Qcmult c) td)) NaN
  = map2d (fscale c) (fill_diagonal (map2d Fin td) NaN).
Proof.
  unfold fill_diagonal, map2d. rewrite !imap_fmap, fmap_imap.
  apply imap_ext. intros i row _. cbn.
  rewrite list_fmap_insert, <- !list_fmap_compose. reflexivity.
Qed.

Lemma masked_train_dist_fscale (td : list (list Qc)) fold_indices :
  masked_train_dist (map2d (Qcmult c) td) fold_indices
  = map2d (fscale c) <$> masked_train_dist td fold_indices.
Proof.
  unfold masked_train_dist. rewrite fill_diagonal_fscale.
  destruct fold_indices as [[|f fs]|]; try reflexivity. apply mask_rows_fscale.
Qed.

End scaling.

(** C7, amended: multiplying every input distance (new-to-training and
    training-to-training) by a positive constant leaves the result of [aoa]
    unchanged, scores and mask alike: the normalisation constant is scaled
    too, and the scores are quotients. *)
Theorem aoa_scale_invariant (c : Qc) (mindist : list Qc) (train_dist : list (list Qc))
    (thres : Qc) (fold_indices : option (list (list Z))) :
  0 < c →
  aoa_of_distances (Qcmult c <$> mindist) (map2d (Qcmult c) train_dist) thres fold_indices
  = aoa_of_distances mindist train_dist thres fold_indices.
Proof.
  intros Hc. unfold aoa_of_distances. rewrite masked_train_dist_fscale by done.
  destruct (masked_train_dist train_dist fold_indices) as [m|e]; [|reflexivity].
  cbn [fmap result_fmap mbind result_bind].
  rewrite aoa_threshold_fscale, train_dist_avgmean_fscale by done.
  assert (Heq : (λ d, fdiv (Fin d) (fscale c (train_dist_avgmean m)))
                  <$> (Qcmult c <$> mindist)
                = (λ d, fdiv (Fin d) (train_dist_avgmean m)) <$> mindist).
  { rewrite <- list_fmap_compose. apply list_fmap_ext. intros i d _. cbn.
    apply (fdiv_fscale c Hc (Fin d)). }
  rewrite Heq. reflexivity.
Qed.

Lemma aoa_scale_invariant_witness :
  aoa_of_distances (Qcmult (Qc_of_Z 2) <$> OneFeature.mindist)
    (map2d (Qcmult (Qc_of_Z 2)) OneFeature.train_dist) OneFeature.thres None
  = aoa_of_distances OneFeature.mindist OneFeature.train_dist OneFeature.thres None.
Proof.
  apply (aoa_scale_invariant (Qc_of_Z 2) OneFeature.mindist OneFeature.train_dist
           OneFeature.thres None).
  reflexivity.
Defined.

(** ** Area of applicability: scores and mask *)

Section finite_values.

Lemma Qc_of_nat_eq_0 (n : nat) : Qc_of_nat n = 0 ↔ n = 0%nat.
Proof.
  unfold Qc_of_nat. rewrite <- Z2Qc_inj_0, Z2Qc_inj_iff. lia.
Qed.

Lemma Qc_of_nat_nonneg (n : nat) : 0 ≤ Qc_of_nat n.
Proof.
  unfold Qc_of_nat. rewrite <- Z2Qc_inj_0.
  apply (proj1 (Z2Qc_inj_le 0 (Z.of_nat n))). lia.
Qed.

Lemma drop_nan_fin (l : list float64) :
  Forall fin_or_nan l → ∃ qs, drop_nan l = Fin <$> qs.
Proof.
  unfold drop_nan. induction 1 as [|x l Hx _ [qs IH]]; [by exists []|].
  destruct x as [a|s|]; cbn; [|done|by exists qs].
  exists (a :: qs). by rewrite IH.
Qed.

Lemma drop_nan_of_fin (qs : list Qc) : drop_nan (Fin <$> qs) = Fin <$> qs.
Proof. unfold drop_nan. induction qs as [|q qs IH]; [reflexivity|]. cbn. by rewrite IH. Qed.

Lemma np_sum_fin (qs : list Qc) : np_sum (Fin <$> qs) = Fin (Qc_sum qs).
Proof. unfold np_sum. induction qs as [|q qs IH]; [reflexivity|]. cbn. by rewrite IH. Qed.

Lemma np_mean_fin (qs : list Qc) :
  np_mean (Fin <$> qs)
  = match qs with [] => NaN | _ => Fin (Qc_sum qs / Qc_of_nat (length qs)) end.
Proof.
  unfold np_mean. rewrite np_sum_fin, length_fmap. cbn.
  destruct qs as [|q qs]; [reflexivity|].
  rewrite bool_decide_eq_false_2; [reflexivity|]. by rewrite Qc_of_nat_eq_0.
Qed.

Lemma np_sum_nan (l : list float64) : NaN ∈ l → np_sum l = NaN.
Proof.
  unfold np_sum. induction l as [|x l IH]; intros Hin; [by apply elem_of_nil in Hin|].
  apply elem_of_cons in Hin as [<-|Hin]; [reflexivity|].
  cbn. rewrite IH by done. by destruct x.
Qed.

(** A mean of rationals and NaNs is a rational only if no entry is NaN. *)
Lemma np_mean_fin_inv (l : list float64) (a : Qc) :
  Forall fin_or_nan l → np_mean l = Fin a → ∃ qs, l = Fin <$> qs ∧ qs ≠ [].
Proof.
  intros Hl Hmean.
  assert (Hnn : NaN ∉ l).
  { intros Hin. unfold np_mean in Hmean. by rewrite np_sum_nan in Hmean. }
  assert (Hqs : ∃ qs, l = Fin <$> qs).
  { clear Hmean. induction Hl as [|x l Hx _ IH]; [by exists []|].
    destruct IH as [qs ->]; [by intros Hin; apply Hnn; right|].
    destruct x as [q|s|]; [by exists (q :: qs) | done | exfalso; apply Hnn; left]. }
  destruct Hqs as [qs ->]. exists qs. split; [reflexivity|].
  intros ->. discriminate Hmean.
Qed.

Lemma np_nanmean_fin_or_nan (row : list float64) :
  Forall fin_or_nan row → fin_or_nan (np_nanmean row).
Proof.
  intros Hrow. unfold np_nanmean. destruct (drop_nan_fin row Hrow) as [qs ->].
  rewrite np_mean_fin. by destruct qs.
Qed.

Lemma foldr_fmin_fin (q : Qc) (qs : list Qc) : is_fin (foldr fmin (Fin q) (Fin <$> qs)).
Proof.
  induction qs as [|q' qs IH]; [done|]. rewrite fmap_cons, foldr_cons.
  destruct (foldr fmin (Fin q) (Fin <$> qs)); [|destruct IH..].
  unfold fmin. by destruct (fle _ _).
Qed.

(** A row whose mean is a rational has a least entry that is a rational. *)
Lemma np_nanmin_fin (row : list float64) (v : Qc) :
  Forall fin_or_nan row → np_nanmean row = Fin v → is_fin (np_nanmin row).
Proof.
  intros Hrow. unfold np_nanmean, np_nanmin. destruct (drop_nan_fin row Hrow) as [qs ->].
  rewrite np_mean_fin. destruct qs as [|q qs]; [discriminate|]. intros _.
  apply foldr_fmin_fin.
Qed.

End finite_values.

Section quantile.

Lemma Qc_floor_bounds (v : Qc) (k : nat) :
  0 ≤ v → v ≤ Qc_of_nat k → (0 ≤ Qc_floor v ≤ Z.of_nat k)%Z.
Proof.
  unfold Qc_floor, Qc_of_nat, Qcle, Qle. destruct v as [[num den] Hcanon]. cbn.
  intros H0 Hk.
  change (Qnum (Qred 0)) with 0%Z in H0. change (QDen (Qred 0)) with 1%Z in H0.
  split.
  - apply Z.div_pos; lia.
  - apply Z.div_le_upper_bound; lia.
Qed.

Lemma lerp_fin (a b t : Qc) : is_fin (lerp (Fin a) (Fin b) t).
Proof. unfold lerp. by destruct (Qcleb _ _). Qed.

Lemma existsb_isnan_fin (l : list float64) : Forall is_fin l → existsb isnan l = false.
Proof. induction 1 as [|x l Hx _ IH]; [reflexivity|]. cbn. rewrite IH. by destruct x. Qed.

Lemma np_quantile_fin (l : list float64) (q : Qc) :
  Forall is_fin l → l ≠ [] → 0 ≤ q → q ≤ 1 →
  ∃ t, np_quantile l q = Ok (Fin t).
Proof.
  intros Hl Hne Hq0 Hq1. unfold np_quantile.
  unfold Qcleb. rewrite !bool_decide_eq_true_2 by done. cbn [andb negb].
  rewrite existsb_isnan_fin by done.
  set (sorted := merge_sort float_le l).
  assert (Hperm : sorted ≡ₚ l) by apply merge_sort_Permutation.
  assert (Hs : Forall is_fin sorted) by (by rewrite Hperm).
  assert (Hlen : (0 < length sorted)%nat).
  { rewrite Hperm. destruct l; [done | cbn; lia]. }
  set (n := length sorted) in *.
  set (v := q * Qc_of_nat (n - 1)).
  assert (Hv : (0 ≤ Qc_floor v ≤ Z.of_nat (n - 1))%Z).
  { apply Qc_floor_bounds.
    - apply Qcmult_nonneg_nonneg; [done | apply Qc_of_nat_nonneg].
    - unfold v. trans (1 * Qc_of_nat (n - 1)); [|by rewrite Qcmult_1_l].
      apply Qcmult_le_mono_nonneg_r; [apply Qc_of_nat_nonneg | done]. }
  assert (Hprev : (Z.to_nat (Qc_floor v) < n)%nat) by lia.
  assert (Hnext : (S (Z.to_nat (Qc_floor v)) `min` (n - 1) < n)%nat) by lia.
  destruct (lookup_lt_is_Some_2 sorted _ Hprev) as [x Hx].
  destruct (lookup_lt_is_Some_2 sorted _ Hnext) as [y Hy].
  rewrite Hx, Hy. cbn [default mret result_ret].
  pose proof (Forall_lookup_1 _ _ _ _ Hs Hx) as Hfx.
  pose proof (Forall_lookup_1 _ _ _ _ Hs Hy) as Hfy.
  destruct x as [a| |], y as [b| |]; try (destruct Hfx); try (destruct Hfy).
  pose proof (lerp_fin a b (v - Qc_of_nat (Z.to_nat (Qc_floor v)))) as Hlerp.
  destruct (lerp _ _ _) as [t| |]; [|destruct Hlerp..]. by exists t.
Qed.

End quantile.

Section masked_entries.

Lemma Forall_mask (P : float64 → Prop) (row : list float64) (mask : list bool) (v : float64) :
  Forall P row → P v → Forall P (zip_with (λ x (b : bool), if b then v else x) row mask).
Proof.
  intros Hrow Hv. revert mask.
  induction Hrow as [|x row Hx _ IH]; intros [|b mask]; cbn; try constructor.
  - by destruct b.
  - apply IH.
Qed.

Lemma mask_row_fin_or_nan folds (i : nat) (row row' : list float64) :
  Forall fin_or_nan row → mask_row folds i row = Ok row' → Forall fin_or_nan row'.
Proof.
  intros Hrow. unfold mask_row, mask_assign.
  destruct (lookup_or IndexError folds.*1 i) as [key|]; [|discriminate]. cbn.
  case_bool_decide; [|discriminate]. intros [= <-]. by apply Forall_mask.
Qed.

Lemma mask_rows_fin_or_nan folds (i : nat) (rows rows' : list (list float64)) :
  Forall (Forall fin_or_nan) rows → mask_rows folds i rows = Ok rows' →
  Forall (Forall fin_or_nan) rows'.
Proof.
  intros Hrows. revert i rows'.
  induction Hrows as [|row rows Hrow _ IH]; intros i rows'; cbn.
  - intros [= <-]. constructor.
  - destruct (mask_row folds i row) as [row1|] eqn:Hrow1; [|discriminate]. cbn.
    destruct (mask_rows folds (S i) rows) as [rows1|] eqn:Hrows1; [|discriminate].
    intros [= <-]. constructor; [by eapply mask_row_fin_or_nan | by eapply IH].
Qed.

Lemma fill_diagonal_fin_or_nan (td : list (list Qc)) :
  Forall (Forall fin_or_nan) (fill_diagonal (map2d Fin td) NaN).
Proof.
  apply Forall_lookup. intros i row. unfold fill_diagonal, map2d.
  rewrite list_lookup_imap, list_lookup_fmap.
  destruct (td !! i) as [r|]; [|discriminate]. intros [= <-].
  apply Forall_insert; [|done]. apply Forall_fmap, Forall_forall. by intros.
Qed.

Lemma masked_train_dist_fin_or_nan (td : list (list Qc)) fold_indices
    (m : list (list float64)) :
  masked_train_dist td fold_indices = Ok m → Forall (Forall fin_or_nan) m.
Proof.
  unfold masked_train_dist. pose proof (fill_diagonal_fin_or_nan td) as Hd.
  destruct fold_indices as [[|f fs]|].
  - by intros [= <-].
  - by apply mask_rows_fin_or_nan.
  - by intros [= <-].
Qed.

End masked_entries.

Lemma fdiv_fin (d a : Qc) : a ≠ 0 → fdiv (Fin d) (Fin a) = Fin (d / a).
Proof. intros Ha. cbn. by rewrite bool_decide_eq_false_2. Qed.

Lemma Qcdiv_nonneg (d a : Qc) : 0 ≤ d → 0 < a → 0 ≤ d / a.
Proof.
  intros Hd Ha. unfold Qcdiv. apply Qcmult_nonneg_nonneg; [done|].
  by apply Qclt_le_weak, Qcinv_pos.
Qed.

Lemma fgt_fin (x t : Qc) : fgt (Fin x) (Fin t) = negb (bool_decide (x ≤ t)).
Proof.
  cbn. unfold Qcltb. destruct (bool_decide_reflect (x ≤ t)) as [Hle|Hnle]; cbn.
  - apply bool_decide_eq_false_2. by apply Qcle_not_lt.
  - apply bool_decide_eq_true_2. by apply Qcnot_le_lt.
Qed.

(** C8, amended: when the normalisation constant is a positive rational [a]
    (no row of the masked matrix is all NaN and the distances are not all
    zero), the threshold is a rational [t], every score is the nearest
    distance divided by [a], hence non-negative, and the mask is 1 exactly
    at the scores at most [t] and 0 at the others. *)
Theorem aoa_scores_and_mask (mindist : list Qc) (train_dist : list (list Qc))
    (thres : Qc) (fold_indices : option (list (list Z)))
    (m : list (list float64)) (a : Qc) :
  Forall (λ d, 0 ≤ d) mindist →
  masked_train_dist train_dist fold_indices = Ok m →
  train_dist_avgmean m = Fin a → 0 < a →
  0 ≤ thres → thres ≤ 1 →
  ∃ t,
    aoa_threshold m thres = Ok (Fin t) ∧
    aoa_of_distances mindist train_dist thres fold_indices
    = Ok ((λ d, Fin (d / a)) <$> mindist,
          (λ d, if bool_decide (d / a ≤ t) then 1%Z else 0%Z) <$> mindist) ∧
    Forall (λ d, 0 ≤ d / a) mindist.
Proof.
  intros Hmin Hm Havg Ha Hq0 Hq1.
  assert (Ha0 : a ≠ 0) by (intros ->; by apply (Qclt_not_eq 0 0)).
  pose proof (masked_train_dist_fin_or_nan _ _ _ Hm) as Hfn.
  assert (Hmeans : Forall fin_or_nan (np_nanmean <$> m)).
  { apply Forall_fmap. eapply Forall_impl; [exact Hfn|]. apply np_nanmean_fin_or_nan. }
  unfold train_dist_avgmean in Havg.
  destruct (np_mean_fin_inv _ _ Hmeans Havg) as (means & Hmeans_eq & Hne).
  assert (Hquant : ∃ t, aoa_threshold m thres = Ok (Fin t)).
  { unfold aoa_threshold, train_dist_avgmean. rewrite Havg.
    apply np_quantile_fin; [| |done..].
    - rewrite <- list_fmap_compose. apply Forall_fmap, Forall_lookup.
      intros i row Hrow. cbn.
      assert (Hmean : ∃ v, np_nanmean row = Fin v).
      { assert (Hl : (np_nanmean <$> m) !! i = Some (np_nanmean row))
          by (by rewrite list_lookup_fmap, Hrow).
        rewrite Hmeans_eq, list_lookup_fmap in Hl.
        destruct (means !! i) as [v|]; [|discriminate]. exists v. by injection Hl. }
      destruct Hmean as [v Hv].
      pose proof (np_nanmin_fin row v (Forall_lookup_1 _ _ _ _ Hfn Hrow) Hv) as Hminf.
      destruct (np_nanmin row) as [x| |]; [|destruct Hminf..].
      by rewrite fdiv_fin.
    - destruct m as [|row m]; [|done]. by destruct means. }
  destruct Hquant as [t Ht]. exists t. split; [exact Ht|]. split.
  - unfold aoa_of_distances. rewrite Hm. cbn [mbind result_bind].
    rewrite Ht. cbn [mbind result_bind mret result_ret].
    unfold train_dist_avgmean, applicability. rewrite Havg. f_equal. f_equal.
    + apply list_fmap_ext. intros i d _. by apply fdiv_fin.
    + rewrite <- list_fmap_compose. apply list_fmap_ext. intros i d _. cbn [compose].
      rewrite fdiv_fin by done. rewrite fgt_fin. by destruct (bool_decide (d / a ≤ t)).
  - eapply Forall_impl; [exact Hmin|]. intros d Hd. by apply Qcdiv_nonneg.
Qed.

(** ** Area of applicability: the masking loop, the guard and the constant *)

Section fold_table_facts.

Lemma length_repeat_arange_from (g : nat → nat) (counts : list nat) :
  length (concat (imap (λ fold_id n, replicate n (g fold_id)) counts)) = sum_list counts.
Proof.
  revert g. induction counts as [|n counts IH]; intros g; [reflexivity|].
  rewrite imap_cons, concat_cons, length_app, length_replicate. cbn [sum_list sum_list_with].
  f_equal. apply (IH (g ∘ S)).
Qed.

Lemma length_concat_sum {A} (ls : list (list A)) :
  length (concat ls) = sum_list (length <$> ls).
Proof.
  induction ls as [|l ls IH]; [reflexivity|].
  rewrite concat_cons, length_app, IH. reflexivity.
Qed.

Lemma fold_table_keys (fold_indices : list (list Z)) :
  (fold_table fold_indices).*1 = concat fold_indices.
Proof.
  unfold fold_table. apply fst_zip. unfold np_repeat_arange.
  rewrite (length_repeat_arange_from id), length_concat_sum. reflexivity.
Qed.

End fold_table_facts.

Section masking_loop.

Lemma mask_row_Ok (folds : list (Z * nat)) (i : nat) (row : list float64) (key : Z) :
  folds.*1 !! i = Some key → length folds = length row →
  mask_row folds i row = Ok (masked_row folds.*1 key row).
Proof.
  intros Hkey Hlen. unfold mask_row, lookup_or, mask_assign. rewrite Hkey. cbn.
  rewrite bool_decide_eq_true_2; [reflexivity|]. by rewrite !length_fmap.
Qed.



Lemma mask_rows_returns (folds : list (Z * nat)) (i : nat) (rows : list (list float64)) :
  Forall (λ row, length row = length folds) rows →
  (i + length rows ≤ length folds)%nat →
  returns (mask_rows folds i rows).
Proof.
  intros Hrows. revert i. induction Hrows as [|row rows Hrow _ IH]; intros i Hi.
  - by exists [].
  - cbn in Hi. assert (Hk : is_Some (folds.*1 !! i)).
    { apply lookup_lt_is_Some_2. rewrite length_fmap. lia. }
    destruct Hk as [key Hkey]. cbn. rewrite (mask_row_Ok folds i row key) by done.
    destruct (IH (S i)) as [rows' Hrows']; [lia|]. cbn. rewrite Hrows'. by eexists.
Qed.


End masking_loop.

Section shapes.

Lemma squareform_square (n : nat) (d : nat → nat → Qc) : square n (squareform n d).
Proof.
  unfold square, squareform. split; [by rewrite length_fmap, length_seq|].
  apply Forall_fmap, Forall_forall. intros i _. cbn. by rewrite length_fmap, length_seq.
Qed.

Lemma fill_diagonal_square (n : nat) (td : list (list Qc)) :
  square n td → square n (fill_diagonal (map2d Fin td) NaN).
Proof.
  intros [Hlen Hrows]. unfold square, fill_diagonal, map2d.
  split; [by rewrite length_imap, length_fmap|].
  apply Forall_lookup. intros i row. rewrite list_lookup_imap, list_lookup_fmap.
  destruct (td !! i) as [r|] eqn:Hr; [|discriminate]. intros [= <-].
  rewrite length_insert, length_fmap. by eapply (Forall_lookup_1 _ _ _ _ Hrows).
Qed.

Lemma masked_train_dist_returns (n : nat) (td : list (list Qc)) fold_indices :
  square n td → folds_cover fold_indices n →
  returns (masked_train_dist td fold_indices).
Proof.
  intros Hsq Hcover. apply fill_diagonal_square in Hsq as [Hlen Hrows].
  unfold masked_train_dist. destruct fold_indices as [[|f fs]|]; [by eexists| |by eexists].
  cbn in Hcover.
  assert (Hfolds : length (fold_table (f :: fs)) = n).
  { by rewrite <- (length_fmap fst), fold_table_keys. }
  apply mask_rows_returns; [|lia].
  eapply Forall_impl; [exact Hrows|]. intros row Hrow. cbn in Hrow. lia.
Qed.




End shapes.

Section normalisation.

Lemma drop_nan_nil_iff (row : list float64) : drop_nan row = [] ↔ all_nan row.
Proof.
  unfold drop_nan, all_nan. induction row as [|x row IH]; [by split; [constructor|]|].
  cbn. destruct x as [a|s|]; cbn.
  - split; [discriminate | by intros [[=] _]%Forall_cons].
  - split; [discriminate | by intros [[=] _]%Forall_cons].
  - rewrite IH. split; [by constructor | by intros [_ ?]%Forall_cons].
Qed.


Lemma np_nanmean_nan_iff (row : list float64) :
  Forall fin_or_nan row → np_nanmean row = NaN ↔ all_nan row.
Proof.
  intros Hrow. rewrite <- drop_nan_nil_iff. unfold np_nanmean.
  destruct (drop_nan_fin row Hrow) as [qs ->]. rewrite np_mean_fin.
  destruct qs; split; done.
Qed.


Lemma fill_diagonal_lookup (td : list (list Qc)) (i : nat) (row : list float64) :
  fill_diagonal (map2d Fin td) NaN !! i = Some row →
  ∃ r, td !! i = Some r ∧ row = <[i := NaN]> (Fin <$> r).
Proof.
  unfold fill_diagonal, map2d. rewrite list_lookup_imap, list_lookup_fmap.
  destruct (td !! i) as [r|]; [|discriminate]. intros [= <-]. by exists r.
Qed.





End normalisation.

Section propagation.









End propagation.


(** ** Area of applicability: well-formed folds and the sign of the constant *)

Section masking_noop.

Lemma masked_row_id (keys : list Z) (key : Z) (i : nat) (row : list float64) :
  NoDup keys → keys !! i = Some key → length row = length keys →
  row !! i = Some NaN →
  masked_row keys key row = row.
Proof.
  intros Hnd Hkey Hlen Hdiag. apply list_eq. intros j. unfold masked_row.
  rewrite lookup_zip_with, list_lookup_fmap.
  destruct (row !! j) as [x|] eqn:Hx; [|reflexivity]. cbn.
  destruct (lookup_lt_is_Some_2 keys j) as [kj Hkj];
    [rewrite <- Hlen; by eapply lookup_lt_Some|].
  rewrite Hkj. cbn. case_bool_decide as Heq; [|reflexivity]. subst kj.
  pose proof (NoDup_lookup _ _ _ _ Hnd Hkj Hkey) as ->. congruence.
Qed.

Lemma mask_rows_noop (folds : list (Z * nat)) (i : nat) (rows : list (list float64)) :
  NoDup folds.*1 →
  (i + length rows ≤ length folds)%nat →
  (∀ k row, rows !! k = Some row →
     length row = length folds ∧ row !! (i + k)%nat = Some NaN) →
  mask_rows folds i rows = Ok rows.
Proof.
  intros Hnd. revert i. induction rows as [|row rows IH]; intros i Hi Hrows; [reflexivity|].
  cbn in Hi. destruct (Hrows 0%nat row eq_refl) as [Hlen Hdiag].
  rewrite Nat.add_0_r in Hdiag.
  destruct (lookup_lt_is_Some_2 folds.*1 i) as [key Hkey]; [rewrite length_fmap; lia|].
  cbn. rewrite (mask_row_Ok folds i row key) by done.
  rewrite (masked_row_id _ _ i) by (by rewrite ?length_fmap). cbn.
  rewrite IH; [reflexivity | lia |].
  intros k row' Hk. destruct (Hrows (S k) row' Hk) as [H1 H2].
  split; [done|]. by replace (S i + k)%nat with (i + S k)%nat by lia.
Qed.

(** When the folds list every training instance once, the masking loop
    changes nothing: it masks the diagonal again. *)
Lemma masked_train_dist_noop (n : nat) (td : list (list Qc)) (f : list Z)
    (fs : list (list Z)) :
  square n td → NoDup (concat (f :: fs)) → length (concat (f :: fs)) = n →
  masked_train_dist td (Some (f :: fs)) = masked_train_dist td None.
Proof.
  intros Hsq Hnd Hlen. pose proof (fill_diagonal_square n td Hsq) as [Hl Hrows].
  unfold masked_train_dist. apply mask_rows_noop.
  - by rewrite fold_table_keys.
  - rewrite <- (length_fmap fst), fold_table_keys. lia.
  - intros k row Hk. split.
    + rewrite <- (length_fmap fst), fold_table_keys, Hlen.
      by eapply (Forall_lookup_1 _ _ _ _ Hrows).
    + apply fill_diagonal_lookup in Hk as (r & Hr & ->).
      apply list_lookup_insert_eq. rewrite length_fmap.
      destruct Hsq as [Hn Hrs]. rewrite (Forall_lookup_1 _ _ _ _ Hrs Hr).
      rewrite <- Hn. by eapply lookup_lt_Some.
Qed.

End masking_noop.

Section positive_constant.

Lemma drop_nan_diag (i : nat) (r : list Qc) :
  (i < length r)%nat → drop_nan (<[i := NaN]> (Fin <$> r)) = Fin <$> delete i r.
Proof.
  revert i. induction r as [|q r IH]; intros i Hi; [cbn in Hi; lia|].
  destruct i as [|i]; cbn.
  - apply drop_nan_of_fin.
  - f_equal. apply IH. cbn in Hi. lia.
Qed.

Lemma Qc_sum_nonneg (l : list Qc) : Forall (λ v, 0 ≤ v) l → 0 ≤ Qc_sum l.
Proof.
  induction 1 as [|v l Hv _ IH]; [done|].
  change (Qc_sum (v :: l)) with (v + Qc_sum l). by apply Qcplus_nonneg_nonneg.
Qed.

Lemma Qc_sum_pos (l : list Qc) (v : Qc) :
  Forall (λ v, 0 ≤ v) l → v ∈ l → 0 < v → 0 < Qc_sum l.
Proof.
  intros Hl Hin Hv. induction Hl as [|w l Hw Hl IH]; [by apply elem_of_nil in Hin|].
  change (Qc_sum (w :: l)) with (w + Qc_sum l).
  apply elem_of_cons in Hin as [<-|Hin].
  - apply Qcplus_pos_nonneg; [done | by apply Qc_sum_nonneg].
  - apply Qcplus_nonneg_pos; [done | by apply IH].
Qed.

Lemma Qc_of_nat_pos (n : nat) : (0 < n)%nat → 0 < Qc_of_nat n.
Proof.
  intros Hn. unfold Qc_of_nat. rewrite <- Z2Qc_inj_0.
  apply (proj1 (Z2Qc_inj_lt 0 (Z.of_nat n))). lia.
Qed.

Lemma Qcdiv_pos (a b : Qc) : 0 < a → 0 < b → 0 < a / b.
Proof. intros Ha Hb. unfold Qcdiv. apply Qcmult_pos_pos; [done | by apply Qcinv_pos]. Qed.

Lemma np_nanmean_diag (i : nat) (r : list Qc) :
  (i < length r)%nat → (2 ≤ length r)%nat →
  np_nanmean (<[i := NaN]> (Fin <$> r)) = Fin (off_diagonal_mean i r).
Proof.
  intros Hi Hn. unfold np_nanmean. rewrite drop_nan_diag, np_mean_fin by done.
  pose proof (length_delete r i (lookup_lt_is_Some_2 r i Hi)) as Hlen.
  destruct (delete i r) as [|q qs] eqn:Hd; [cbn in Hlen; lia|].
  unfold off_diagonal_mean. by rewrite Hd, Hlen.
Qed.

Lemma elem_of_delete_ne {A} (l : list A) (i j : nat) (x : A) :
  l !! j = Some x → i ≠ j → x ∈ delete i l.
Proof.
  intros Hj Hij. apply list_elem_of_lookup.
  destruct (decide (j < i)%nat) as [Hlt|Hge].
  - exists j. by rewrite list_lookup_delete_lt.
  - exists (pred j). rewrite list_lookup_delete_ge by lia.
    by replace (S (pred j)) with j by lia.
Qed.

Lemma off_diagonal_mean_nonneg (i : nat) (r : list Qc) :
  Forall (λ d, 0 ≤ d) r → 0 ≤ off_diagonal_mean i r.
Proof.
  intros Hr. unfold off_diagonal_mean, Qcdiv.
  apply Qcmult_nonneg_nonneg.
  - apply Qc_sum_nonneg. by apply Forall_delete.
  - destruct (decide (length r - 1 = 0)%nat) as [->|Hn].
    + by vm_compute.
    + apply Qclt_le_weak, Qcinv_pos, Qc_of_nat_pos. lia.
Qed.

Lemma off_diagonal_mean_pos (i j : nat) (r : list Qc) (d : Qc) :
  Forall (λ d, 0 ≤ d) r → r !! j = Some d → i ≠ j → (i < length r)%nat → 0 < d →
  0 < off_diagonal_mean i r.
Proof.
  intros Hr Hj Hij Hi Hd. unfold off_diagonal_mean. apply Qcdiv_pos.
  - apply (Qc_sum_pos _ d); [by apply Forall_delete | by eapply elem_of_delete_ne | done].
  - apply Qc_of_nat_pos. apply lookup_lt_Some in Hj. lia.
Qed.

(** Without folds, non-negative distances of which one off the diagonal is
    positive give a positive normalisation constant. *)
Lemma avgmean_positive_without_folds (n : nat) (td : list (list Qc)) (i j : nat)
    (r : list Qc) (d : Qc) :
  square n td → Forall (Forall (λ d, 0 ≤ d)) td →
  td !! i = Some r → r !! j = Some d → i ≠ j → 0 < d →
  ∃ a, train_dist_avgmean (fill_diagonal (map2d Fin td) NaN) = Fin a ∧ 0 < a.
Proof.
  intros [Hlen Hrows] Hnn Hi Hj Hij Hd.
  assert (Hlr : length r = n) by (by eapply (Forall_lookup_1 _ _ _ _ Hrows)).
  assert (Hin : (i < n)%nat) by (rewrite <- Hlen; by eapply lookup_lt_Some).
  assert (Hjn : (j < n)%nat) by (rewrite <- Hlr; by eapply lookup_lt_Some).
  assert (Hmeans : np_nanmean <$> fill_diagonal (map2d Fin td) NaN
                   = Fin <$> imap off_diagonal_mean td).
  { unfold fill_diagonal, map2d. rewrite imap_fmap, !fmap_imap.
    apply imap_ext. intros k rk Hk. cbn.
    pose proof (Forall_lookup_1 _ _ _ _ Hrows Hk) as Hlk. cbn in Hlk.
    apply np_nanmean_diag; [|lia]. apply lookup_lt_Some in Hk. lia. }
  unfold train_dist_avgmean. rewrite Hmeans, np_mean_fin.
  destruct (imap off_diagonal_mean td) as [|v vs] eqn:Hvs.
  { apply (f_equal length) in Hvs. rewrite length_imap in Hvs. cbn in Hvs. lia. }
  rewrite <- Hvs. eexists. split; [reflexivity|]. apply Qcdiv_pos.
  - apply (Qc_sum_pos _ (off_diagonal_mean i r)).
    + apply Forall_lookup. intros k w. rewrite list_lookup_imap.
      destruct (td !! k) as [rk|] eqn:Hk; [|discriminate]. intros [= <-].
      apply off_diagonal_mean_nonneg. by eapply (Forall_lookup_1 _ _ _ _ Hnn).
    + by apply elem_of_lookup_imap_2.
    + eapply off_diagonal_mean_pos; [by eapply (Forall_lookup_1 _ _ _ _ Hnn)|done..|lia|done].
  - apply Qc_of_nat_pos. rewrite length_imap. lia.
Qed.

End positive_constant.

(** ** The variogram estimator *)

(** The operations of the float64 element type, written out. *)
Ltac float64_ops :=
  cbn [dtype_sub dtype_square dtype_positive dtype_sum dtype_float float64_dtype] in *.

Section selection.

Lemma filter_snd_zip_replicate {A} (a : list A) (k : nat) :
  List.filter snd (zip a (replicate k false)) = [].
Proof.
  revert k. induction a as [|y a IH]; intros [|k]; try reflexivity. cbn. apply IH.
Qed.

Lemma selected_drop {A} (a : list A) (b : list bool) (i : nat) :
  (i ≤ length a)%nat →
  List.filter snd (zip a (replicate i false ++ drop i b))
  = List.filter snd (zip (drop i a) (drop i b)).
Proof.
  intros Hi. rewrite <- (take_drop i a) at 1.
  rewrite zip_with_app by (rewrite length_take, length_replicate; lia).
  rewrite List.filter_app, filter_snd_zip_replicate. reflexivity.
Qed.

Lemma selected_seq (a : list Qc) (b : list bool) (i : nat) :
  length a = length b →
  (List.filter snd (zip (drop i a) (drop i b))).*1
  = (λ j, default 0 (a !! j))
      <$> List.filter (λ j, default false (b !! j)) (seq i (length a - i)).
Proof.
  intros Hlen. remember (length a - i)%nat as k eqn:Hk. revert i Hk.
  induction k as [|k IH]; intros i Hk.
  - rewrite !drop_ge by lia. reflexivity.
  - destruct (lookup_lt_is_Some_2 a i) as [y Hy]; [lia|].
    destruct (lookup_lt_is_Some_2 b i) as [c Hc]; [lia|].
    rewrite (drop_S a y i Hy), (drop_S b c i Hc). cbn [zip_with seq List.filter].
    rewrite Hc. destruct c; cbn.
    + rewrite Hy. cbn. f_equal. apply IH. lia.
    + apply IH. lia.
Qed.

End selection.

Section semivariance.

Lemma sq_nonneg (a : Qc) : 0 ≤ sq a.
Proof.
  unfold sq. destruct (Qclt_le_dec a 0) as [Hneg|Hpos].
  - replace (a * a) with ((- a) * (- a)) by ring.
    assert (0 ≤ - a).
    { apply Qclt_le_weak in Hneg. apply Qcopp_le_compat in Hneg.
      by replace (- 0) with 0 in Hneg by ring. }
    by apply Qcmult_nonneg_nonneg.
  - by apply Qcmult_nonneg_nonneg.
Qed.

Lemma sq_diag (a : Qc) : sq (a - a) = 0.
Proof. unfold sq. ring. Qed.

Lemma Qc_sum_positive_part (l : list Qc) :
  Forall (λ v, 0 ≤ v) l → Qc_sum (List.filter (λ v, Qcltb 0 v) l) = Qc_sum l.
Proof.
  induction 1 as [|v l Hv _ IH]; [reflexivity|].
  change (Qc_sum (v :: l)) with (v + Qc_sum l). cbn [List.filter].
  destruct (Qcltb 0 v) eqn:Hpos.
  - change (Qc_sum (v :: ?r)) with (v + Qc_sum r). by rewrite IH.
  - rewrite IH. apply bool_decide_eq_false in Hpos. apply Qcnot_lt_le in Hpos.
    rewrite (Qcle_antisym _ _ Hpos Hv). by rewrite Qcplus_0_l.
Qed.

Lemma filter_fmap {A B} (f : A → B) (P : B → bool) (l : list A) :
  List.filter P (f <$> l) = f <$> List.filter (λ a, P (f a)) l.
Proof.
  induction l as [|a l IH]; [reflexivity|]. cbn. rewrite IH. by destruct (P (f a)).
Qed.

Lemma concat_nonempty {A} (rows : list (list A)) :
  concat (List.filter (λ r, bool_decide (0 < length r)%nat) rows) = concat rows.
Proof.
  induction rows as [|r rows IH]; [reflexivity|]. cbn [List.filter].
  destruct r as [|a r].
  - rewrite bool_decide_eq_false_2 by (cbn; lia). exact IH.
  - rewrite bool_decide_eq_true_2 by (cbn; lia). cbn [concat]. by rewrite IH.
Qed.

Lemma sum_lengths {A} (rows : list (list A)) :
  sum_list (length <$> rows) = length (concat rows).
Proof.
  induction rows as [|r rows IH]; [reflexivity|]. cbn. rewrite length_app. by rewrite IH.
Qed.

Lemma nonempty_nil_iff {A} (rows : list (list A)) :
  List.filter (λ r, bool_decide (0 < length r)%nat) rows = [] ↔ concat rows = [].
Proof.
  induction rows as [|r rows IH]; [done|]. cbn [List.filter].
  destruct r as [|a r].
  - rewrite bool_decide_eq_false_2 by (cbn; lia). exact IH.
  - rewrite bool_decide_eq_true_2 by (cbn; lia). split; discriminate.
Qed.

Lemma band_mask_lookup (pd_m : list (list Qc)) (lag bw : Qc) (i : nat) (r : list Qc) :
  pd_m !! i = Some r →
  band_mask pd_m lag bw !! i
  = Some ((λ d, Qcleb (lag - bw) d && Qcleb d (lag + bw)) <$> r).
Proof. intros Hr. unfold band_mask, map2d. by rewrite list_lookup_fmap, Hr. Qed.

Lemma semivariance_row_Ok (pd_m : list (list Qc)) (x : list Qc) (lag bw : Qc) (i : nat) :
  square (length x) pd_m → (i < length x)%nat →
  semivariance_row x (band_mask pd_m lag bw) i = Ok (kept pd_m x lag bw i).
Proof.
  intros [Hlen Hrows] Hi. unfold semivariance_row, lookup_or. float64_ops.
  destruct (lookup_lt_is_Some_2 x i Hi) as [xi Hxi].
  destruct (lookup_lt_is_Some_2 pd_m i) as [r Hr]; [lia|].
  assert (Hlr : length r = length x) by (by eapply (Forall_lookup_1 _ _ _ _ Hrows)).
  rewrite Hxi, (band_mask_lookup _ _ _ _ _ Hr). cbn [mbind result_bind].
  set (mask_i := _ <$> r).
  assert (Hlm : length mask_i = length x) by (unfold mask_i; by rewrite length_fmap).
  unfold bool_index, clear_prefix.
  rewrite bool_decide_eq_true_2
    by (rewrite length_app, length_replicate, length_drop; lia).
  cbn [mbind result_bind mret result_ret]. f_equal.
  rewrite Nat.min_l by lia. rewrite selected_drop by lia.
  rewrite selected_seq by lia.
  replace (length x - i)%nat with (S (length x - S i)) by lia.
  cbn [seq List.filter]. unfold kept.
  assert (Hband : ∀ j, default false (mask_i !! j) = in_band pd_m lag bw (i, j)).
  { intros j. unfold in_band, mask_i. cbn. rewrite Hr. cbn. rewrite list_lookup_fmap.
    by destruct (r !! j). }
  assert (Htail :
    List.filter (λ v, Qcltb 0 v)
      ((λ v, sq (xi - v)) <$> ((λ j, default 0 (x !! j))
         <$> List.filter (λ j, default false (mask_i !! j)) (seq (S i) (length x - S i))))
    = List.filter (λ v, Qcltb 0 v)
        (squared_difference x
           <$> List.filter (in_band pd_m lag bw)
                 ((λ j, (i, j)) <$> seq (S i) (length x - S i)))).
  { f_equal. rewrite (filter_fmap (λ j, (i, j))), <- !list_fmap_compose.
    rewrite (List.filter_ext _ (λ j, in_band pd_m lag bw (i, j)) Hband).
    apply list_fmap_ext. intros k j _. unfold squared_difference, compose. cbn.
    by rewrite Hxi. }
  destruct (default false (mask_i !! i)); [|exact Htail].
  cbn [fmap list_fmap List.filter]. rewrite Hxi. cbn [default].
  rewrite sq_diag. unfold Qcltb at 1.
  rewrite bool_decide_eq_false_2 by (by apply Qcle_not_lt). exact Htail.
Qed.

Lemma concat_kept (pd_m : list (list Qc)) (x : list Qc) (lag bw : Qc) :
  concat (kept pd_m x lag bw <$> seq 0 (length x))
  = List.filter (λ v, Qcltb 0 v)
      (squared_difference x <$> band_pairs pd_m (length x) lag bw).
Proof.
  unfold band_pairs, upper_pairs, kept.
  induction (seq 0 (length x)) as [|i l IH]; [reflexivity|].
  cbn [fmap list_fmap concat flat_map].
  rewrite List.filter_app, fmap_app, List.filter_app. f_equal. exact IH.
Qed.

Lemma elem_of_upper_pairs (n i j : nat) :
  (i, j) ∈ upper_pairs n ↔ (i < j < n)%nat.
Proof.
  unfold upper_pairs. rewrite flat_map_bind, list_elem_of_bind. split.
  - intros (i' & Hj & Hi'). apply list_elem_of_fmap in Hj as (j' & [= -> ->] & Hj').
    apply elem_of_seq in Hi', Hj'. lia.
  - intros Hij. exists i. split; [|apply elem_of_seq; lia].
    apply list_elem_of_fmap. exists j. split; [reflexivity|]. apply elem_of_seq. lia.
Qed.

Lemma NoDup_upper_pairs (n : nat) : NoDup (upper_pairs n).
Proof.
  unfold upper_pairs. rewrite flat_map_bind. apply NoDup_bind.
  - intros i1 i2 [i j] _ _ H1 H2.
    apply list_elem_of_fmap in H1 as (j1 & [= -> ->] & _).
    by apply list_elem_of_fmap in H2 as (j2 & [= -> ->] & _).
  - intros i _. apply NoDup_fmap_2; [|apply NoDup_seq]. by intros j1 j2 [= ->].
  - apply NoDup_seq.
Qed.

Lemma NoDup_List_filter {A} (f : A → bool) (l : list A) :
  NoDup l → NoDup (List.filter f l).
Proof.
  induction 1 as [|a l Ha _ IH]; [constructor|]. cbn.
  destruct (f a); [|exact IH]. constructor; [|exact IH].
  intros Hin. apply Ha. apply list_elem_of_In, filter_In in Hin as [Hin _].
  by apply list_elem_of_In.
Qed.

Lemma NoDup_band_pairs (pd_m : list (list Qc)) (n : nat) (lag bw : Qc) :
  NoDup (band_pairs pd_m n lag bw).
Proof. unfold band_pairs. apply NoDup_List_filter, NoDup_upper_pairs. Qed.

Lemma elem_of_band_pairs (pd_m : list (list Qc)) (n : nat) (lag bw : Qc) (i j : nat) :
  (i, j) ∈ band_pairs pd_m n lag bw
  ↔ (i < j < n)%nat ∧ in_band pd_m lag bw (i, j) = true.
Proof.
  unfold band_pairs. by rewrite list_elem_of_In, filter_In, <- list_elem_of_In,
    elem_of_upper_pairs.
Qed.

Lemma in_band_spec (pd_m : list (list Qc)) (lag bw : Qc) (i j : nat) :
  in_band pd_m lag bw (i, j) = true
  ↔ ∃ d, pd_m !! i ≫= (.!! j) = Some d ∧ lag - bw ≤ d ∧ d ≤ lag + bw.
Proof.
  unfold in_band, Qcleb. cbn [fst snd]. destruct (pd_m !! i ≫= (.!! j)) as [d|].
  - rewrite andb_true_iff, !bool_decide_eq_true. split.
    + intros [Hlo Hhi]. by exists d.
    + by intros (d' & [= <-] & Hlo & Hhi).
  - split; [discriminate | by intros (d & Hd & _)].
Qed.

Lemma compute_semivariance_band (pd_m : list (list Qc)) (x : list Qc)
    (lag bw : Qc) (col_name : string) :
  square (length x) pd_m →
  compute_semivariance x (band_mask pd_m lag bw) bw col_name
  = Ok (semivariance_of_differing pd_m x lag bw).
Proof.
  intros Hsq. unfold compute_semivariance. float64_ops.
  rewrite (mapM_Ok_fmap _ (kept pd_m x lag bw)).
  2:{ intros i Hi. apply elem_of_seq in Hi. apply semivariance_row_Ok; [done | lia]. }
  cbn [mbind result_bind]. set (rows := kept pd_m x lag bw <$> seq 0 (length x)).
  set (semis := List.filter _ rows).
  assert (Hconcat : concat semis = concat rows) by apply concat_nonempty.
  assert (Hcount : sum_list (length <$> semis) = length (concat rows)).
  { by rewrite sum_lengths, Hconcat. }
  assert (Hnil : semis = [] ↔ concat rows = []) by apply nonempty_nil_iff.
  pose proof (concat_kept pd_m x lag bw) as Hrows. fold rows in Hrows.
  unfold semivariance_of_differing.
  set (pairs := band_pairs pd_m (length x) lag bw) in *.
  assert (Hdiff : squared_difference x
                    <$> List.filter (λ ij, Qcltb 0 (squared_difference x ij)) pairs
                  = concat rows).
  { by rewrite Hrows, filter_fmap. }
  assert (Hsum : Qc_sum (concat rows) = Qc_sum (squared_difference x <$> pairs)).
  { rewrite Hrows. apply Qc_sum_positive_part, Forall_fmap, Forall_forall.
    intros ij _. apply sq_nonneg. }
  destruct semis as [|s semis'] eqn:Hsemis.
  - apply proj1 in Hnil. specialize (Hnil eq_refl). rewrite Hnil in Hdiff.
    apply fmap_nil_inv in Hdiff. by rewrite Hdiff.
  - rewrite Hconcat, Hcount, Hsum, <- Hdiff, length_fmap.
    destruct (List.filter _ pairs) as [|p ps] eqn:Hps; [|reflexivity].
    exfalso. cbn in Hdiff. symmetry in Hdiff. apply Hnil in Hdiff. discriminate.
Qed.

(** What the loop computes on float64 values, an n x n distance matrix and n
    values: the sum of the squared value-differences over the pairs (i, j),
    i < j, whose distance lies in the band, divided by twice the number of
    those of these pairs whose values differ, and 0 when no pair in the band
    has differing values. The pairs of the band are listed once each, and
    they are the pairs i < j < n at a distance d with
    lag - bw <= d <= lag + bw. *)
Lemma compute_semivariance_of_differing (pd_m : list (list Qc)) (x : list Qc)
    (lag bw : Qc) (col_name : string) :
  square (length x) pd_m →
  compute_semivariance x (band_mask pd_m lag bw) bw col_name
  = Ok (semivariance_of_differing pd_m x lag bw)
  ∧ NoDup (band_pairs pd_m (length x) lag bw)
  ∧ (∀ i j, (i, j) ∈ band_pairs pd_m (length x) lag bw
       ↔ (i < j < length x)%nat
         ∧ ∃ d, pd_m !! i ≫= (.!! j) = Some d ∧ lag - bw ≤ d ∧ d ≤ lag + bw).
Proof.
  intros Hsq. split; [|split].
  - by apply compute_semivariance_band.
  - apply NoDup_band_pairs.
  - intros i j. by rewrite elem_of_band_pairs, in_band_spec.
Qed.

End semivariance.

Section Variogram_facts.
Context {GeoSeries : Type}.
Variable n_points : GeoSeries → nat.
Variable euclidean : GeoSeries → nat → nat → Qc.
Variable haversine : GeoSeries → nat → nat → Qc.

Lemma map2d_square {A B} (f : A → B) (n : nat) (m : list (list A)) :
  square n m → square n (map2d f m).
Proof.
  intros [Hlen Hrows]. unfold square, map2d. split; [by rewrite length_fmap|].
  apply Forall_fmap. eapply Forall_impl; [exact Hrows|].
  intros row Hrow. cbn. by rewrite length_fmap.
Qed.

Lemma pairwise_distances_square (XYs : GeoSeries) (distance_metric : string)
    (pd_m : list (list Qc)) :
  pairwise_distances n_points euclidean haversine XYs distance_metric = Some pd_m →
  square (n_points XYs) pd_m.
Proof.
  unfold pairwise_distances. repeat case_bool_decide; intros [= <-].
  - apply squareform_square.
  - apply map2d_square, squareform_square.
Qed.

(** X16: with one of the two metrics and one float64 value per point, every
    lag gets the semivariance of its band, and the lags are returned next to
    them. (On int64 values the squares and their sum wrap around.) *)
Theorem variogram_at_lag_semivariances (XYs : GeoSeries) (x lags : list Qc) (bw : Qc)
    (distance_metric col_name : string) (pd_m : list (list Qc)) :
  pairwise_distances n_points euclidean haversine XYs distance_metric = Some pd_m →
  length x = n_points XYs →
  variogram_at_lag (H := float64_dtype) n_points euclidean haversine XYs x lags bw
    distance_metric col_name
  = Ok ((λ lag, semivariance_of_differing pd_m x lag bw) <$> lags, lags).
Proof.
  intros Hpd Hlen. unfold variogram_at_lag. rewrite Hpd.
  rewrite (mapM_Ok_fmap _ (λ lag, semivariance_of_differing pd_m x lag bw)); [reflexivity|].
  intros lag _. cbn [mbind result_bind]. apply compute_semivariance_band.
  rewrite Hlen. by eapply pairwise_distances_square.
Qed.

End Variogram_facts.

(** ** Area of applicability: when [aoa] returns *)

Section one_feature.


















End one_feature.


(** ** Area of applicability: evaluations

    The folds of [OneFeature.folds5] put the training instances 0 and 1 in
    the same fold. *)

(** C2, at a failing input: after the masking loop the distance between the
    training instances 0 and 1, which share fold 0, is still 5/2 and not NaN;
    the loop compares training indices, not fold ids, so that the masked
    matrix and the result of [aoa] are those obtained without folds. *)
Theorem aoa_same_fold_distance_kept :
  (λ m : list (list float64), m !! 0%nat ≫= (.!! 1%nat))
    <$> masked_train_dist OneFeature.train_dist5 (Some OneFeature.folds5)
  = Ok (Some (Fin (Q2Qc (5 # 2))))
  ∧ masked_train_dist OneFeature.train_dist5 (Some OneFeature.folds5) = masked_train_dist OneFeature.train_dist5 None
  ∧ OneFeature.aoa OneFeature.new2 OneFeature.training5 OneFeature.thres (Some OneFeature.folds5) "euclidean"
    = OneFeature.aoa OneFeature.new2 OneFeature.training5 OneFeature.thres None "euclidean".
Proof. repeat split; compute_done. Qed.

(** C4, at a failing input: three points on a line at 0, 1 and 2 with the
    values 1, 1 and 2, the lag 3/2 and the bandwidth 1. All three pairs lie in
    the band, each listed once, and the semivariance of the band is
    (0 + 1 + 1) / (2 * 3) = 1/3. The filter [ss > 0.0], which is there to drop
    the pair of a point with itself, drops the pair (0, 1) of equal values
    from the count as well: [compute_semivariance], and [variogram_at_lag]
    with it, return (1 + 1) / (2 * 2) = 1/2. *)
Theorem semivariance_drops_tied_pairs :
  band_pairs Collinear.pd_m (length Collinear.x) Collinear.lag Collinear.bw
  = [(0, 1); (0, 2); (1, 2)]%nat
  ∧ semivariance_of_band Collinear.pd_m Collinear.x Collinear.lag Collinear.bw
    = Q2Qc (1 # 3)
  ∧ compute_semivariance Collinear.x
      (band_mask Collinear.pd_m Collinear.lag Collinear.bw) Collinear.bw "x"
    = Ok (Q2Qc (1 # 2))
  ∧ variogram_at_lag Line.n_points Line.euclidean Line.haversine Line.points
      Collinear.x [Collinear.lag] Collinear.bw "euclidean" "x"
    = Ok ([Q2Qc (1 # 2)], [Collinear.lag]).
Proof. repeat split; compute_done. Qed.

(** The same three points with the values as int64: the result is the
    same. *)
Example semivariance_collinear_int64 :
  compute_semivariance [1; 1; 2]%Z
    (band_mask Collinear.pd_m Collinear.lag Collinear.bw) Collinear.bw "x"
  = Ok (Q2Qc (1 # 2)).
Proof. compute_done. Qed.

(** On int64 values the squares and their sum wrap around. For the values 0,
    3000000000 and -3000000000 and a mask that selects every pair, the square
    of the difference of the last two, 36 * 10 ^ 18, wraps to a negative
    number, which the filter drops; the sum of the other two squares,
    18 * 10 ^ 18, wraps to -446744073709551616, and the result is negative. *)
Example compute_semivariance_int64_wraps :
  semivariance_row [0; 3000000000; -3000000000]%Z (replicate 3 (replicate 3 true)) 0
  = Ok [9000000000000000000; 9000000000000000000]%Z
  ∧ semivariance_row [0; 3000000000; -3000000000]%Z (replicate 3 (replicate 3 true)) 1
    = Ok []
  ∧ compute_semivariance [0; 3000000000; -3000000000]%Z
      (replicate 3 (replicate 3 true)) 1 "x"
    = Ok (Qc_of_Z (-111686018427387904)).
Proof. repeat split; compute_done. Qed.



(** Folds that list a single entry for five training instances make the
    masking loop raise [IndexError]. *)
Example aoa_short_folds_raise :
  OneFeature.aoa OneFeature.new2 OneFeature.training5 OneFeature.thres (Some [[0%Z]])
    "euclidean"
  = Raise IndexError.
Proof. compute_done. Qed.

(** Two training instances are not enough either when they coincide: the
    standard deviation is zero, the standardised values are NaN, and the ball
    tree refuses them. *)
Example aoa_constant_training_raises :
  OneFeature.aoa OneFeature.new2 (OneFeature.column [1; 1]%Z) OneFeature.thres None
    "euclidean"
  = Raise ValueError.
Proof. compute_done. Qed.



(** There the constant is 1: four rows of mean 5/8 and one of mean 5/2. *)
Example avgmean_of_training5 :
  masked_train_dist OneFeature.train_dist5 (Some OneFeature.folds5)
  = Ok (fill_diagonal (map2d Fin OneFeature.train_dist5) NaN)
  ∧ train_dist_avgmean (fill_diagonal (map2d Fin OneFeature.train_dist5) NaN) = Fin 1.
Proof. split; compute_done. Qed.

(** C7, as stated, fails: doubling every distance does not double the
    scores. *)
Lemma aoa_scores_not_equivariant :
  fst <$> aoa_of_distances (Qcmult (Qc_of_Z 2) <$> OneFeature.mindist)
            (map2d (Qcmult (Qc_of_Z 2)) OneFeature.train_dist) OneFeature.thres None
  ≠ (λ r : list float64 * list Z, fscale (Qc_of_Z 2) <$> r.1)
      <$> aoa_of_distances OneFeature.mindist OneFeature.train_dist OneFeature.thres None.
Proof. compute_done. Qed.

(** C8, as stated, fails: with folds that mask every distance the scores
    are NaN, which is not non-negative, and the mask is 1 although no score is
    at most the (NaN) threshold. *)
Lemma aoa_degenerate_folds_give_nan :
  OneFeature.aoa OneFeature.new OneFeature.training OneFeature.thres
    (Some [[0; 0]]%Z) "euclidean"
  = Ok (replicate 5 NaN, replicate 5 1%Z)
  ∧ aoa_threshold [[NaN; NaN]; [NaN; NaN]] OneFeature.thres = Ok NaN
  ∧ ¬ scores_nonneg_and_mask_exact (replicate 5 NaN, replicate 5 1%Z) NaN.
Proof.
  split; [compute_done|]. split; [compute_done|].
  intros [Hnonneg _]. apply Forall_cons in Hnonneg as [Hd _]. discriminate Hd.
Qed.

Lemma aoa_scores_and_mask_witness :
  ∃ t,
    aoa_threshold [[NaN; Fin (Qc_of_Z 2)]; [Fin (Qc_of_Z 2); NaN]] OneFeature.thres
    = Ok (Fin t) ∧
    aoa_of_distances OneFeature.mindist OneFeature.train_dist OneFeature.thres None
    = Ok ((λ d, Fin (d / Qc_of_Z 2)) <$> OneFeature.mindist,
          (λ d, if bool_decide (d / Qc_of_Z 2 ≤ t) then 1%Z else 0%Z)
            <$> OneFeature.mindist) ∧
    Forall (λ d, 0 ≤ d / Qc_of_Z 2) OneFeature.mindist.
Proof.
  apply (aoa_scores_and_mask OneFeature.mindist OneFeature.train_dist OneFeature.thres
           None [[NaN; Fin (Qc_of_Z 2)]; [Fin (Qc_of_Z 2); NaN]] (Qc_of_Z 2)).
  - repeat constructor; compute_done.
  - compute_done.
  - compute_done.
  - compute_done.
  - compute_done.
  - compute_done.
Defined.

(** Without folds the constant of the five training instances is a positive
    rational. *)
Example avgmean_training5 :
  ∃ a, train_dist_avgmean (fill_diagonal (map2d Fin OneFeature.train_dist5) NaN) = Fin a
       ∧ 0 < a.
Proof.
  apply (avgmean_positive_without_folds 5 OneFeature.train_dist5 0 1
           [0; Q2Qc (5 # 2); Q2Qc (5 # 2); Q2Qc (5 # 2); Q2Qc (5 # 2)] (Q2Qc (5 # 2)));
    compute_done.
Qed.

(** ** The variogram estimator under an arbitrary mask *)

Section semivariance_of_masks.

Lemma semivariance_row_kept (x : list Qc) (mask : list (list bool)) (i : nat)
    (row : list bool) :
  (i < length x)%nat → mask !! i = Some row → length row = length x →
  semivariance_row x mask i = Ok (kept_of_row x row i).
Proof.
  intros Hi Hrow Hlen. unfold semivariance_row, lookup_or. float64_ops.
  destruct (lookup_lt_is_Some_2 x i Hi) as [xi Hxi].
  rewrite Hxi, Hrow. cbn [mbind result_bind].
  unfold bool_index, clear_prefix.
  rewrite bool_decide_eq_true_2
    by (rewrite length_app, length_replicate, length_drop; lia).
  cbn [mbind result_bind mret result_ret]. f_equal.
  rewrite Nat.min_l by lia. rewrite selected_drop by lia.
  rewrite selected_seq by lia.
  replace (length x - i)%nat with (S (length x - S i)) by lia.
  cbn [seq List.filter]. unfold kept_of_row.
  assert (Htail :
    List.filter (λ v, Qcltb 0 v)
      ((λ v, sq (xi - v)) <$> ((λ j, default 0 (x !! j))
         <$> List.filter (λ j, default false (row !! j)) (seq (S i) (length x - S i))))
    = List.filter (λ v, Qcltb 0 v)
        (squared_difference x
           <$> ((λ j, (i, j))
                  <$> List.filter (λ j, default false (row !! j))
                        (seq (S i) (length x - S i))))).
  { f_equal. rewrite <- !list_fmap_compose.
    apply list_fmap_ext. intros k j _. unfold squared_difference, compose. cbn.
    by rewrite Hxi. }
  destruct (default false (row !! i)); [|exact Htail].
  cbn [fmap list_fmap List.filter]. rewrite Hxi. cbn [default].
  rewrite sq_diag. unfold Qcltb at 1.
  rewrite bool_decide_eq_false_2 by (by apply Qcle_not_lt). exact Htail.
Qed.

Lemma semivariance_row_Ok_inv (x : list Qc) (mask : list (list bool)) (i : nat)
    (r : list Qc) :
  semivariance_row x mask i = Ok r →
  (i < length x)%nat ∧ ∃ row, mask !! i = Some row ∧ length row = length x.
Proof.
  unfold semivariance_row, lookup_or. float64_ops.
  destruct (x !! i) as [xi|] eqn:Hxi; [|discriminate].
  destruct (mask !! i) as [row|] eqn:Hrow; [|discriminate].
  cbn [mbind result_bind]. unfold bool_index. case_bool_decide as Hlen; [|discriminate].
  intros _. split; [by eapply lookup_lt_Some|]. exists row. split; [done|].
  assert (Hi : (i < length x)%nat) by (by eapply lookup_lt_Some).
  unfold clear_prefix in Hlen.
  rewrite length_app, length_replicate, length_drop in Hlen. lia.
Qed.

Lemma semivariance_row_Raise (x : list Qc) (mask : list (list bool)) (i : nat) (e : exn) :
  semivariance_row x mask i = Raise e → e = IndexError.
Proof.
  unfold semivariance_row, lookup_or. float64_ops.
  destruct (x !! i) as [xi|]; [|by intros [= <-]].
  destruct (mask !! i) as [row|]; [|by intros [= <-]].
  cbn [mbind result_bind]. unfold bool_index. case_bool_decide; [discriminate|].
  by intros [= <-].
Qed.

Lemma compute_semivariance_of_rows (x : list Qc) (mask : list (list bool)) (bw : Qc)
    (col_name : string) (rows : list (list Qc)) :
  mapM (semivariance_row x mask) (seq 0 (length x)) = Ok rows →
  compute_semivariance x mask bw col_name = Ok (semivariance_of_rows rows).
Proof.
  intros Hrows. unfold compute_semivariance. float64_ops. rewrite Hrows.
  cbn [mbind result_bind].
  set (semis := List.filter _ rows).
  assert (Hconcat : concat semis = concat rows) by apply concat_nonempty.
  assert (Hcount : sum_list (length <$> semis) = length (concat rows)).
  { by rewrite sum_lengths, Hconcat. }
  assert (Hnil : semis = [] ↔ concat rows = []) by apply nonempty_nil_iff.
  unfold semivariance_of_rows.
  destruct semis as [|s semis'] eqn:Hsemis.
  - apply proj1 in Hnil. by rewrite (Hnil eq_refl).
  - rewrite Hconcat, Hcount.
    destruct (concat rows) as [|v vs] eqn:Hc; [|reflexivity].
    apply proj2 in Hnil. discriminate (Hnil eq_refl).
Qed.

Lemma compute_semivariance_Raise (x : list Qc) (mask : list (list bool)) (bw : Qc)
    (col_name : string) (e : exn) :
  compute_semivariance x mask bw col_name = Raise e → e = IndexError.
Proof.
  unfold compute_semivariance.
  destruct (mapM _ _) as [rows|e'] eqn:Hrows.
  - cbn [mbind result_bind]. by destruct (List.filter _ rows).
  - cbn. intros [= <-]. apply mapM_Raise_inv in Hrows as (i & _ & Hi).
    by eapply semivariance_row_Raise.
Qed.

Lemma rows_of_fitting_mask (x : list Qc) (mask : list (list bool)) :
  mask_fits x mask →
  ∃ rows, mapM (semivariance_row x mask) (seq 0 (length x)) = Ok rows
          ∧ Forall2 (λ i r, ∃ row, mask !! i = Some row ∧ r = kept_of_row x row i)
              (seq 0 (length x)) rows.
Proof.
  intros Hfit. apply mapM_Ok_Forall2. intros i Hi. apply elem_of_seq in Hi.
  destruct (Hfit i) as (row & Hrow & Hlen); [lia|].
  exists (kept_of_row x row i). split; [by apply semivariance_row_kept; [lia|..]|].
  by exists row.
Qed.

Lemma compute_semivariance_Ok_fits (x : list Qc) (mask : list (list bool)) (bw : Qc)
    (col_name : string) (v : Qc) :
  compute_semivariance x mask bw col_name = Ok v → mask_fits x mask.
Proof.
  intros Hc i Hi. unfold compute_semivariance in Hc.
  destruct (mapM _ _) as [rows|] eqn:Hrows; [|discriminate].
  apply mapM_Ok_inv in Hrows.
  destruct (Forall2_lookup_l _ _ _ i i Hrows) as (r & _ & Hr);
    [by apply lookup_seq_lt|].
  by apply semivariance_row_Ok_inv in Hr as [_ Hrow].
Qed.

Lemma compute_semivariance_returns (x : list Qc) (mask : list (list bool)) (bw : Qc)
    (col_name : string) :
  mask_fits x mask → returns (compute_semivariance x mask bw col_name).
Proof.
  intros Hfit. destruct (rows_of_fitting_mask x mask Hfit) as (rows & Hrows & _).
  eexists. by apply compute_semivariance_of_rows.
Qed.

(** X9: the mask must hold a row of [len(x)] entries for each of the
    [len(x)] values: then the semivariance is computed, and otherwise the
    function raises [IndexError]. *)
Theorem compute_semivariance_mask_shape (x : list Qc) (mask : list (list bool)) (bw : Qc)
    (col_name : string) :
  (mask_fits x mask → returns (compute_semivariance x mask bw col_name))
  ∧ (¬ mask_fits x mask → compute_semivariance x mask bw col_name = Raise IndexError).
Proof.
  split; [apply compute_semivariance_returns|].
  intros Hnfit.
  destruct (compute_semivariance x mask bw col_name) as [v|e] eqn:Hc;
    [|f_equal; by eapply compute_semivariance_Raise].
  exfalso. by eapply Hnfit, compute_semivariance_Ok_fits.
Qed.

Lemma kept_of_row_pos (x : list Qc) (row : list bool) (i : nat) :
  Forall (λ v, 0 < v) (kept_of_row x row i).
Proof.
  unfold kept_of_row. apply Forall_forall. intros v Hv.
  apply list_elem_of_In, filter_In in Hv as [_ Hv]. by apply bool_decide_eq_true in Hv.
Qed.

Lemma semivariance_row_pos (x : list Qc) (mask : list (list bool)) (i : nat) (r : list Qc) :
  semivariance_row x mask i = Ok r → Forall (λ v, 0 < v) r.
Proof.
  intros Hr. destruct (semivariance_row_Ok_inv _ _ _ _ Hr) as (Hi & row & Hrow & Hlen).
  rewrite (semivariance_row_kept x mask i row) in Hr by done. injection Hr as <-.
  apply kept_of_row_pos.
Qed.

Lemma semivariance_of_rows_nonneg (rows : list (list Qc)) :
  Forall (Forall (λ v, 0 < v)) rows → 0 ≤ semivariance_of_rows rows.
Proof.
  intros Hrows. unfold semivariance_of_rows.
  assert (Hall : Forall (λ v, 0 < v) (concat rows)) by (by apply Forall_concat).
  destruct (concat rows) as [|v vs] eqn:Hc; [done|].
  apply Qcdiv_nonneg.
  - apply Qc_sum_nonneg. eapply Forall_impl; [exact Hall|]. intros w. apply Qclt_le_weak.
  - apply Qcmult_pos_pos; [done|]. apply Qc_of_nat_pos. cbn. lia.
Qed.

(** X10: on an array of float64 values a semivariance is never negative. (On
    int64 values the squares and their sum wrap around, and the result can be
    negative.) *)
Theorem compute_semivariance_nonneg (x : list Qc) (mask : list (list bool)) (bw : Qc)
    (col_name : string) (v : Qc) :
  compute_semivariance (H := float64_dtype) x mask bw col_name = Ok v → 0 ≤ v.
Proof.
  intros Hc. pose proof Hc as Hc'. unfold compute_semivariance in Hc'.
  destruct (mapM _ _) as [rows|] eqn:Hrows; [|discriminate]. clear Hc'.
  rewrite (compute_semivariance_of_rows x mask bw col_name rows Hrows) in Hc.
  injection Hc as <-. apply semivariance_of_rows_nonneg.
  apply mapM_Ok_inv in Hrows. apply Forall_forall. intros r Hr.
  apply list_elem_of_lookup in Hr as [k Hk].
  destruct (Forall2_lookup_r _ _ _ _ _ Hrows Hk) as (i & _ & Hi).
  by eapply semivariance_row_pos.
Qed.

Lemma squared_difference_constant (x : list Qc) (i j : nat) :
  (∀ a b, a ∈ x → b ∈ x → a = b) → (i < length x)%nat → (j < length x)%nat →
  squared_difference x (i, j) = 0.
Proof.
  intros Hconst Hi Hj. unfold squared_difference. cbn.
  destruct (lookup_lt_is_Some_2 x i Hi) as [a Ha].
  destruct (lookup_lt_is_Some_2 x j Hj) as [b Hb].
  rewrite Ha, Hb. cbn.
  rewrite (Hconst a b); [apply sq_diag | by eapply list_elem_of_lookup_2..].
Qed.

Lemma filter_none {A} (P : A → bool) (l : list A) :
  Forall (λ a, P a = false) l → List.filter P l = [].
Proof. induction 1 as [|a l Ha _ IH]; [reflexivity|]. cbn. by rewrite Ha. Qed.

Lemma kept_of_row_constant (x : list Qc) (row : list bool) (i : nat) :
  (∀ a b, a ∈ x → b ∈ x → a = b) → (i < length x)%nat → kept_of_row x row i = [].
Proof.
  intros Hconst Hi. unfold kept_of_row. apply filter_none.
  rewrite <- list_fmap_compose. apply Forall_fmap, Forall_forall. intros j Hj.
  apply list_elem_of_In, filter_In in Hj as [Hj _]. apply in_seq in Hj.
  unfold compose. rewrite squared_difference_constant by (done || lia).
  by apply bool_decide_eq_false_2.
Qed.

Lemma concat_all_nil {A} (rows : list (list A)) :
  Forall (λ r, r = []) rows → concat rows = [].
Proof. induction 1 as [|r rows -> _ IH]; [reflexivity | exact IH]. Qed.

Lemma rows_of_constant (x : list Qc) (mask : list (list bool)) :
  (∀ a b, a ∈ x → b ∈ x → a = b) → mask_fits x mask →
  ∃ rows, mapM (semivariance_row x mask) (seq 0 (length x)) = Ok rows
          ∧ semivariance_of_rows rows = 0.
Proof.
  intros Hconst Hfit. destruct (rows_of_fitting_mask x mask Hfit) as (rows & Hrows & HF).
  exists rows. split; [done|].
  unfold semivariance_of_rows. rewrite concat_all_nil; [reflexivity|].
  apply Forall_forall. intros r Hr. apply list_elem_of_lookup in Hr as [k Hk].
  destruct (Forall2_lookup_r _ _ _ _ _ HF Hk) as (i & Hi & row & _ & ->).
  apply kept_of_row_constant; [done|].
  apply lookup_seq in Hi as [-> Hi]. lia.
Qed.

(** X11: a variable that takes one value only has semivariance 0 under every
    mask of the right shape: no squared difference is positive, nothing is
    kept, and the function answers 0 from its exception handler. *)
Theorem compute_semivariance_constant (x : list Qc) (mask : list (list bool)) (bw : Qc)
    (col_name : string) :
  (∀ a b, a ∈ x → b ∈ x → a = b) → mask_fits x mask →
  compute_semivariance x mask bw col_name = Ok 0.
Proof.
  intros Hconst Hfit. destruct (rows_of_constant x mask Hconst Hfit) as (rows & Hrows & H0).
  rewrite (compute_semivariance_of_rows x mask bw col_name rows Hrows).
  by rewrite H0.
Qed.

Lemma bool_index_fmap {A B} (f : A → B) (a : list A) (mask : list bool) :
  bool_index (f <$> a) mask = fmap (M := list) f <$> bool_index a mask.
Proof.
  unfold bool_index. rewrite length_fmap. case_bool_decide; [|reflexivity].
  cbn. f_equal. clear. revert mask.
  induction a as [|y a IH]; intros [|b mask]; try reflexivity.
  cbn. destruct b; cbn; by rewrite IH.
Qed.

Lemma semivariance_row_translation (c : Qc) (x : list Qc) (mask : list (list bool))
    (i : nat) :
  semivariance_row ((λ v, v + c) <$> x) mask i = semivariance_row x mask i.
Proof.
  unfold semivariance_row, lookup_or. float64_ops. rewrite list_lookup_fmap.
  destruct (x !! i) as [xi|]; [|reflexivity]. cbn [fmap option_fmap option_map].
  destruct (mask !! i) as [row|]; [|reflexivity]. cbn [mbind result_bind].
  rewrite bool_index_fmap. destruct (bool_index x _) as [xj|]; [|reflexivity].
  cbn [fmap result_fmap mbind result_bind mret result_ret]. f_equal. f_equal.
  rewrite <- list_fmap_compose. apply list_fmap_ext. intros k v _.
  unfold compose, sq. ring.
Qed.

(** X12: adding a constant to every value changes no semivariance. *)
Theorem compute_semivariance_translation (c : Qc) (x : list Qc)
    (mask : list (list bool)) (bw : Qc) (col_name : string) :
  compute_semivariance ((λ v, v + c) <$> x) mask bw col_name
  = compute_semivariance x mask bw col_name.
Proof.
  unfold compute_semivariance. rewrite length_fmap.
  rewrite (mapM_ext_in _ (semivariance_row x mask)); [reflexivity|].
  intros i _. apply semivariance_row_translation.
Qed.











(** X14: only the part of the mask above the diagonal is read: two masks of
    the right shape that agree there give the same semivariance. *)
Theorem compute_semivariance_reads_upper_triangle (x : list Qc)
    (mask mask' : list (list bool)) (bw : Qc) (col_name : string) :
  mask_fits x mask → mask_fits x mask' →
  (∀ i j row row', (i < j)%nat → mask !! i = Some row → mask' !! i = Some row' →
                   row !! j = row' !! j) →
  compute_semivariance x mask bw col_name = compute_semivariance x mask' bw col_name.
Proof.
  intros Hfit Hfit' Hagree. unfold compute_semivariance.
  rewrite (mapM_ext_in _ (semivariance_row x mask')); [reflexivity|].
  intros i Hi. apply elem_of_seq in Hi.
  destruct (Hfit i) as (row & Hrow & Hlen); [lia|].
  destruct (Hfit' i) as (row' & Hrow' & Hlen'); [lia|].
  rewrite (semivariance_row_kept x mask i row), (semivariance_row_kept x mask' i row')
    by (done || lia).
  f_equal. unfold kept_of_row. do 3 f_equal.
  apply List.filter_ext_in. intros j Hj. apply in_seq in Hj.
  rewrite (Hagree i j row row'); [reflexivity | lia | done..].
Qed.

End semivariance_of_masks.

(** ** The variogram over its lags *)

Section Variogram_lags.
Context {GeoSeries : Type}.
Variable n_points : GeoSeries → nat.
Variable euclidean : GeoSeries → nat → nat → Qc.
Variable haversine : GeoSeries → nat → nat → Qc.

Lemma in_band_negative (pd_m : list (list Qc)) (lag bw : Qc) (ij : nat * nat) :
  bw < 0 → in_band pd_m lag bw ij = false.
Proof.
  intros Hbw. unfold in_band. destruct (pd_m !! ij.1 ≫= _) as [d|]; [|reflexivity].
  apply andb_false_iff. unfold Qcleb.
  destruct (Qclt_le_dec d (lag - bw)) as [Hlt|Hle].
  - left. apply bool_decide_eq_false_2. by apply Qclt_not_le.
  - right. apply bool_decide_eq_false_2. apply Qclt_not_le.
    apply Qclt_le_trans with (lag - bw); [|done].
    apply Qclt_minus_iff. replace (lag - bw + - (lag + bw)) with (- bw + - bw) by ring.
    assert (0 < - bw).
    { apply Qclt_minus_iff in Hbw. by rewrite Qcplus_0_l in Hbw. }
    apply Qcplus_pos_nonneg; [done | by apply Qclt_le_weak].
Qed.

Lemma semivariance_of_differing_negative (pd_m : list (list Qc)) (x : list Qc)
    (lag bw : Qc) :
  bw < 0 → semivariance_of_differing pd_m x lag bw = 0.
Proof.
  intros Hbw. unfold semivariance_of_differing, band_pairs.
  rewrite (filter_none (in_band pd_m lag bw)); [reflexivity|].
  apply Forall_forall. intros ij _. by apply in_band_negative.
Qed.

(** X15: with a negative bandwidth no distance lies in any band, and every
    lag gets the semivariance 0. *)
Theorem variogram_at_lag_negative_bandwidth (XYs : GeoSeries) (x lags : list Qc) (bw : Qc)
    (distance_metric col_name : string) (pd_m : list (list Qc)) :
  pairwise_distances n_points euclidean haversine XYs distance_metric = Some pd_m →
  length x = n_points XYs →
  bw < 0 →
  variogram_at_lag n_points euclidean haversine XYs x lags bw distance_metric col_name
  = Ok ((λ _, 0) <$> lags, lags).
Proof.
  intros Hpd Hlen Hbw. unfold variogram_at_lag. rewrite Hpd.
  rewrite (mapM_Ok_fmap _ (λ _, 0)); [reflexivity|].
  intros lag _. cbn [mbind result_bind]. rewrite compute_semivariance_band.
  - by rewrite semivariance_of_differing_negative.
  - rewrite Hlen. by eapply pairwise_distances_square.
Qed.

(** X17: with a metric other than the two it knows, the function never binds
    the distance matrix: it fails on the first lag with [UnboundLocalError],
    and returns two empty rows when there is no lag. *)
Theorem variogram_at_lag_other_metric (XYs : GeoSeries) (x lags : list Qc) (bw : Qc)
    (distance_metric col_name : string) :
  distance_metric ≠ "euclidean" → distance_metric ≠ "haversine" →
  variogram_at_lag n_points euclidean haversine XYs x lags bw distance_metric col_name
  = match lags with
    | [] => Ok ([], [])
    | _ => Raise (UnboundLocalError "pd_m")
    end.
Proof.
  intros He Hh. unfold variogram_at_lag, pairwise_distances.
  rewrite !bool_decide_eq_false_2 by done. by destruct lags.
Qed.

End Variogram_lags.

Lemma variogram_at_lag_negative_bandwidth_witness :
  variogram_at_lag Line.n_points Line.euclidean Line.haversine Line.points Collinear.x
    [1; Qc_of_Z 2] (- (1)) "euclidean" "x"
  = Ok ((λ _, 0) <$> [1; Qc_of_Z 2], [1; Qc_of_Z 2]).
Proof.
  apply (variogram_at_lag_negative_bandwidth Line.n_points Line.euclidean Line.haversine
           Line.points Collinear.x [1; Qc_of_Z 2] (- (1)) "euclidean" "x"
           (squareform (Line.n_points Line.points) (Line.euclidean Line.points))).
  - reflexivity.
  - reflexivity.
  - reflexivity.
Defined.

Lemma variogram_at_lag_other_metric_witness :
  variogram_at_lag Line.n_points Line.euclidean Line.haversine Line.points Collinear.x
    [1; Qc_of_Z 2] 1 "manhattan" "x"
  = Raise (UnboundLocalError "pd_m").
Proof.
  apply (variogram_at_lag_other_metric Line.n_points Line.euclidean Line.haversine
           Line.points Collinear.x [1; Qc_of_Z 2] 1 "manhattan" "x"); discriminate.
Defined.

Lemma variogram_at_lag_semivariances_witness :
  variogram_at_lag Line.n_points Line.euclidean Line.haversine Line.points Collinear.x
    [1; Qc_of_Z 2] Collinear.bw "euclidean" "x"
  = Ok ((λ lag, semivariance_of_differing
                  (squareform (Line.n_points Line.points) (Line.euclidean Line.points))
                  Collinear.x lag Collinear.bw) <$> [1; Qc_of_Z 2],
        [1; Qc_of_Z 2]).
Proof.
  apply (variogram_at_lag_semivariances Line.n_points Line.euclidean Line.haversine
           Line.points Collinear.x [1; Qc_of_Z 2] Collinear.bw "euclidean" "x"
           (squareform (Line.n_points Line.points) (Line.euclidean Line.points))).
  - reflexivity.
  - reflexivity.
Defined.

Lemma compute_semivariance_nonneg_witness :
  compute_semivariance Collinear.x
    (band_mask Collinear.pd_m Collinear.lag Collinear.bw) Collinear.bw "x"
  = Ok (Q2Qc (1 # 2))
  ∧ 0 ≤ Q2Qc (1 # 2).
Proof.
  assert (Hc : compute_semivariance Collinear.x
                 (band_mask Collinear.pd_m Collinear.lag Collinear.bw) Collinear.bw "x"
               = Ok (Q2Qc (1 # 2))) by compute_done.
  split; [exact Hc|].
  exact (compute_semivariance_nonneg Collinear.x
           (band_mask Collinear.pd_m Collinear.lag Collinear.bw) Collinear.bw "x"
           (Q2Qc (1 # 2)) Hc).
Defined.

Lemma compute_semivariance_constant_witness :
  compute_semivariance [1; 1; 1]
    (band_mask Collinear.pd_m Collinear.lag Collinear.bw) Collinear.bw "x"
  = Ok 0.
Proof.
  apply (compute_semivariance_constant [1; 1; 1]
           (band_mask Collinear.pd_m Collinear.lag Collinear.bw) Collinear.bw "x").
  - intros a b Ha Hb.
    repeat (apply elem_of_cons in Ha as [->|Ha]); [..|by apply elem_of_nil in Ha];
      repeat (apply elem_of_cons in Hb as [->|Hb]); try reflexivity;
      by apply elem_of_nil in Hb.
  - intros i Hi. destruct i as [|[|[|i]]]; [by eexists..|cbn in Hi; lia].
Defined.

Lemma compute_semivariance_reads_upper_triangle_witness :
  compute_semivariance Collinear.x
    (band_mask Collinear.pd_m Collinear.lag Collinear.bw) Collinear.bw "x"
  = compute_semivariance Collinear.x
      [[false; true; true]; [false; false; true]; [false; false; false]]
      Collinear.bw "x".
Proof.
  apply (compute_semivariance_reads_upper_triangle Collinear.x
           (band_mask Collinear.pd_m Collinear.lag Collinear.bw)
           [[false; true; true]; [false; false; true]; [false; false; false]]
           Collinear.bw "x").
  - intros i Hi. destruct i as [|[|[|i]]]; [by eexists..|cbn in Hi; lia].
  - intros i Hi. destruct i as [|[|[|i]]]; [by eexists..|cbn in Hi; lia].
  - intros i j row row' Hij Hrow Hrow'.
    destruct i as [|[|[|i]]]; [| | |discriminate Hrow'];
      injection Hrow' as <-; vm_compute in Hrow; injection Hrow as <-;
      (destruct j as [|[|[|j]]]; [lia || reflexivity..]).
Defined.

(** ** Area of applicability: further properties *)

Section quantile_bounds.

Lemma Qc_floor_le (v : Qc) : Qc_of_Z (Qc_floor v) ≤ v.
Proof.
  unfold Qc_floor, Qcle, Qc_of_Z, Q2Qc. cbn [this].
  unfold Qle. cbn. rewrite Z.mul_1_r, Z.mul_comm. apply Z.mul_div_le. lia.
Qed.

Lemma Qc_floor_succ (v : Qc) : v ≤ Qc_of_Z (Qc_floor v + 1).
Proof.
  unfold Qc_floor, Qcle, Qc_of_Z, Q2Qc. cbn [this].
  unfold Qle. cbn. rewrite Z.mul_1_r, Z.mul_comm.
  apply Z.lt_le_incl, Z.mul_succ_div_gt. lia.
Qed.

Lemma Qc_floor_fraction (v : Qc) (k : nat) :
  0 ≤ v → v ≤ Qc_of_nat k →
  0 ≤ v - Qc_of_nat (Z.to_nat (Qc_floor v))
  ∧ v - Qc_of_nat (Z.to_nat (Qc_floor v)) ≤ 1.
Proof.
  intros H0 Hk. pose proof (Qc_floor_bounds v k H0 Hk) as [Hf _].
  unfold Qc_of_nat. rewrite Z2Nat.id by done. split.
  - apply (proj1 (Qcle_minus_iff (Qc_of_Z (Qc_floor v)) v)), Qc_floor_le.
  - apply (proj2 (Qcle_minus_iff (v - Qc_of_Z (Qc_floor v)) 1)).
    replace (1 + - (v - Qc_of_Z (Qc_floor v))) with (Qc_of_Z (Qc_floor v + 1) + - v)
      by (rewrite Z2Qc_inj_add, Z2Qc_inj_1; ring).
    apply (proj1 (Qcle_minus_iff v (Qc_of_Z (Qc_floor v + 1)))), Qc_floor_succ.
Qed.

Lemma lerp_nonneg (a b t : Qc) :
  0 ≤ a → 0 ≤ b → 0 ≤ t → t ≤ 1 → ∃ v, lerp (Fin a) (Fin b) t = Fin v ∧ 0 ≤ v.
Proof.
  intros Ha Hb Ht0 Ht1. unfold lerp.
  assert (H1t : 0 ≤ 1 - t) by (by apply (proj1 (Qcle_minus_iff t 1))).
  destruct (Qcleb _ _); cbn; eexists; (split; [reflexivity|]).
  - replace (b + - ((b + - a) * (1 - t))) with (b * t + a * (1 - t)) by ring.
    apply Qcplus_nonneg_nonneg; by apply Qcmult_nonneg_nonneg.
  - replace (a + (b + - a) * t) with (a * (1 - t) + b * t) by ring.
    apply Qcplus_nonneg_nonneg; by apply Qcmult_nonneg_nonneg.
Qed.

(** A quantile of rationals that are not negative is a rational that is not
    negative. *)
Lemma np_quantile_nonneg (qs : list Qc) (q : Qc) :
  Forall (λ v, 0 ≤ v) qs → qs ≠ [] → 0 ≤ q → q ≤ 1 →
  ∃ t, np_quantile (Fin <$> qs) q = Ok (Fin t) ∧ 0 ≤ t.
Proof.
  intros Hqs Hne Hq0 Hq1. unfold np_quantile.
  unfold Qcleb. rewrite !bool_decide_eq_true_2 by done. cbn [andb negb].
  rewrite existsb_isnan_fin by (apply Forall_fmap, Forall_forall; by intros).
  set (sorted := merge_sort float_le (Fin <$> qs)).
  assert (Hperm : sorted ≡ₚ Fin <$> qs) by apply merge_sort_Permutation.
  assert (Hs : Forall (λ x, ∃ v, x = Fin v ∧ 0 ≤ v) sorted).
  { rewrite Hperm. apply Forall_fmap. eapply Forall_impl; [exact Hqs|].
    intros v Hv. by exists v. }
  assert (Hlen : (0 < length sorted)%nat).
  { rewrite Hperm, length_fmap. destruct qs; [done | cbn; lia]. }
  set (n := length sorted) in *.
  set (v := q * Qc_of_nat (n - 1)).
  assert (Hv0 : 0 ≤ v).
  { apply Qcmult_nonneg_nonneg; [done | apply Qc_of_nat_nonneg]. }
  assert (Hvn : v ≤ Qc_of_nat (n - 1)).
  { unfold v. trans (1 * Qc_of_nat (n - 1)); [|by rewrite Qcmult_1_l].
    apply Qcmult_le_mono_nonneg_r; [apply Qc_of_nat_nonneg | done]. }
  pose proof (Qc_floor_bounds v (n - 1) Hv0 Hvn) as Hv.
  destruct (Qc_floor_fraction v (n - 1) Hv0 Hvn) as [Hg0 Hg1].
  assert (Hprev : (Z.to_nat (Qc_floor v) < n)%nat) by lia.
  assert (Hnext : (S (Z.to_nat (Qc_floor v)) `min` (n - 1) < n)%nat) by lia.
  destruct (lookup_lt_is_Some_2 sorted _ Hprev) as [x Hx].
  destruct (lookup_lt_is_Some_2 sorted _ Hnext) as [y Hy].
  rewrite Hx, Hy. cbn [default mret result_ret].
  destruct (Forall_lookup_1 _ _ _ _ Hs Hx) as (a & -> & Ha).
  destruct (Forall_lookup_1 _ _ _ _ Hs Hy) as (b & -> & Hb).
  destruct (lerp_nonneg a b _ Ha Hb Hg0 Hg1) as (t & Hl & Ht).
  exists t. split; [|done]. f_equal. exact Hl.
Qed.

End quantile_bounds.

Section aoa_without_folds.

Lemma foldr_fmin_nonneg (q : Qc) (qs : list Qc) :
  0 ≤ q → Forall (λ v, 0 ≤ v) qs →
  ∃ v, foldr fmin (Fin q) (Fin <$> qs) = Fin v ∧ 0 ≤ v.
Proof.
  intros Hq. induction 1 as [|q' qs Hq' _ (v & IH & Hv)]; [by exists q|].
  rewrite fmap_cons, foldr_cons, IH. unfold fmin. destruct (fle _ _); eauto.
Qed.

Lemma np_nanmin_diag (i : nat) (r : list Qc) :
  (i < length r)%nat → (2 ≤ length r)%nat → Forall (λ v, 0 ≤ v) r →
  ∃ v, np_nanmin (<[i := NaN]> (Fin <$> r)) = Fin v ∧ 0 ≤ v.
Proof.
  intros Hi Hn Hr. unfold np_nanmin. rewrite drop_nan_diag by done.
  pose proof (length_delete r i (lookup_lt_is_Some_2 r i Hi)) as Hlen.
  pose proof (Forall_delete _ r i Hr) as Hd.
  destruct (delete i r) as [|q qs]; [cbn in Hlen; lia|].
  apply Forall_cons in Hd as [Hq Hqs]. by apply foldr_fmin_nonneg.
Qed.

Lemma fin_nonneg_list (l : list float64) :
  Forall (λ x, ∃ v, x = Fin v ∧ 0 ≤ v) l →
  ∃ qs, l = Fin <$> qs ∧ Forall (λ v, 0 ≤ v) qs.
Proof.
  induction 1 as [|x l (v & -> & Hv) _ (qs & -> & Hqs)]; [by exists []|].
  exists (v :: qs). split; [reflexivity | by constructor].
Qed.

(** X21: without folds, on an [n] x [n] matrix of distances that are not
    negative and of which one off the diagonal is positive, with distances to
    the nearest training instance that are not negative and a quantile in
    [0, 1]: [aoa] divides every distance by a positive constant [a], its
    threshold [t] is not negative, and the mask is 1 exactly at the scores at
    most [t]. A new instance at distance 0 of a training instance is thus
    always inside the area. *)
Theorem aoa_of_distances_without_folds (n : nat) (mindist : list Qc)
    (train_dist : list (list Qc)) (thres : Qc) (i j : nat) (r : list Qc) (d : Qc) :
  square n train_dist → Forall (Forall (λ d, 0 ≤ d)) train_dist →
  train_dist !! i = Some r → r !! j = Some d → i ≠ j → 0 < d →
  0 ≤ thres → thres ≤ 1 →
  ∃ a t,
    0 < a ∧ 0 ≤ t ∧
    aoa_of_distances mindist train_dist thres None
    = Ok ((λ d, Fin (d / a)) <$> mindist,
          (λ d, if bool_decide (d / a ≤ t) then 1%Z else 0%Z) <$> mindist).
Proof.
  intros Hsq Hnn Hi Hj Hij Hd Hq0 Hq1.
  destruct (avgmean_positive_without_folds n train_dist i j r d Hsq Hnn Hi Hj Hij Hd)
    as (a & Havg & Ha).
  assert (Ha0 : a ≠ 0) by (intros ->; by apply (Qclt_not_eq 0 0)).
  set (m := fill_diagonal (map2d Fin train_dist) NaN) in *.
  destruct Hsq as [Hlen Hrows].
  assert (Hlr : length r = n) by (by eapply (Forall_lookup_1 _ _ _ _ Hrows)).
  assert (Hin : (i < n)%nat) by (rewrite <- Hlen; by eapply lookup_lt_Some).
  assert (Hjn : (j < n)%nat) by (rewrite <- Hlr; by eapply lookup_lt_Some).
  assert (Hsample : ∃ qs, (λ d, fdiv d (Fin a)) <$> (np_nanmin <$> m) = Fin <$> qs
                          ∧ Forall (λ v, 0 ≤ v) qs ∧ qs ≠ []).
  { destruct (fin_nonneg_list ((λ d, fdiv d (Fin a)) <$> (np_nanmin <$> m)))
      as (qs & Hqs & Hpos).
    - rewrite <- list_fmap_compose. apply Forall_fmap, Forall_lookup.
      intros k row Hk. apply fill_diagonal_lookup in Hk as (rk & Hrk & ->).
      pose proof (Forall_lookup_1 _ _ _ _ Hrows Hrk) as Hlk. cbn in Hlk.
      destruct (np_nanmin_diag k rk) as (v & Hv & Hv0).
      + apply lookup_lt_Some in Hrk. lia.
      + lia.
      + by eapply (Forall_lookup_1 _ _ _ _ Hnn).
      + exists (v / a). cbn. rewrite Hv, fdiv_fin by done.
        split; [reflexivity | by apply Qcdiv_nonneg].
    - exists qs. split; [done|]. split; [done|]. intros ->.
      apply (f_equal length) in Hqs. rewrite !length_fmap in Hqs.
      unfold m, fill_diagonal, map2d in Hqs. rewrite length_imap, length_fmap in Hqs.
      cbn in Hqs. lia. }
  destruct Hsample as (qs & Hqs & Hpos & Hne).
  destruct (np_quantile_nonneg qs thres Hpos Hne Hq0 Hq1) as (t & Ht & Ht0).
  exists a, t. split; [done|]. split; [done|].
  unfold aoa_of_distances. cbn [masked_train_dist mret result_ret mbind result_bind].
  fold m. unfold aoa_threshold. rewrite Havg, Hqs, Ht.
  cbn [mbind result_bind mret result_ret]. unfold applicability. f_equal. f_equal.
  - apply list_fmap_ext. intros k v _. by apply fdiv_fin.
  - rewrite <- list_fmap_compose. apply list_fmap_ext. intros k v _. cbn [compose].
    rewrite fdiv_fin by done. rewrite fgt_fin. by destruct (bool_decide (v / a ≤ t)).
Qed.

(** X20: when the constant is positive, the mask is monotone in the distance
    to the nearest training instance: an instance that is no farther than one
    inside the area is inside it too. *)
Theorem aoa_mask_monotone (mindist : list Qc) (train_dist : list (list Qc)) (thres : Qc)
    (fold_indices : option (list (list Z))) (m : list (list float64)) (a : Qc)
    (DIs : list float64) (masked_result : list Z) (i j : nat) (di dj : Qc) :
  masked_train_dist train_dist fold_indices = Ok m →
  train_dist_avgmean m = Fin a → 0 < a →
  aoa_of_distances mindist train_dist thres fold_indices = Ok (DIs, masked_result) →
  mindist !! i = Some di → mindist !! j = Some dj → di ≤ dj →
  masked_result !! j = Some 1%Z → masked_result !! i = Some 1%Z.
Proof.
  intros Hm Havg Ha Haoa Hi Hj Hle.
  assert (Ha0 : a ≠ 0) by (intros ->; by apply (Qclt_not_eq 0 0)).
  unfold aoa_of_distances in Haoa. rewrite Hm in Haoa. cbn [mbind result_bind] in Haoa.
  destruct (aoa_threshold m thres) as [t|]; [|discriminate].
  cbn [mbind result_bind mret result_ret] in Haoa. injection Haoa as <- <-.
  unfold applicability. rewrite !list_lookup_fmap, Hi, Hj, Havg. cbn.
  rewrite !bool_decide_eq_false_2 by done.
  assert (Hdiv : di / a ≤ dj / a).
  { unfold Qcdiv. apply Qcmult_le_compat_r; [done|]. by apply Qclt_le_weak, Qcinv_pos. }
  destruct t as [t|s|]; cbn; [|by destruct s|done].
  unfold Qcltb. case_bool_decide as Hj'; [discriminate|]. intros _.
  rewrite bool_decide_eq_false_2; [reflexivity|].
  apply Qcle_not_lt. apply Qcnot_lt_le in Hj'. by trans (dj / a).
Qed.

End aoa_without_folds.

Section aoa_folds.
Context {frame : Type}.
Variable len : frame → nat.
Variable standardize : frame → frame.
Variable BallTree_query : string → frame → frame → result (list Qc).
Variable pdist : frame → nat → nat → Qc.

(** X18: the masking loop compares the training indices that the folds list
    with each other. When each is listed once, the loop masks the diagonal
    again and no more: [aoa] returns what it returns without folds, however
    the instances are grouped. *)
Theorem aoa_ignores_folds_of_distinct_indices (new_data training_data : frame)
    (thres : Qc) (f : list Z) (fs : list (list Z)) (distance_metric : string) :
  NoDup (concat (f :: fs)) →
  length (concat (f :: fs)) = len (standardize training_data) →
  aoa len standardize BallTree_query pdist new_data training_data thres
    (Some (f :: fs)) distance_metric
  = aoa len standardize BallTree_query pdist new_data training_data thres None
      distance_metric.
Proof.
  intros Hnd Hlen. unfold aoa. case_bool_decide; [reflexivity|].
  destruct (BallTree_query _ _ _) as [mindist|]; [|reflexivity].
  cbn [mbind result_bind]. unfold aoa_of_distances.
  rewrite (masked_train_dist_noop (len (standardize training_data)));
    [reflexivity | apply squareform_square | done..].
Qed.

(** X19: a quantile outside [0, 1] is refused by [np.quantile], after the
    distances have been computed and masked: [aoa] raises [ValueError]. *)
Theorem aoa_quantile_out_of_range (new_data training_data : frame) (thres : Qc)
    (fold_indices : option (list (list Z))) (distance_metric : string) :
  (2 ≤ len training_data)%nat →
  returns (BallTree_query distance_metric (standardize training_data)
             (standardize new_data)) →
  folds_cover fold_indices (len (standardize training_data)) →
  thres < 0 ∨ 1 < thres →
  aoa len standardize BallTree_query pdist new_data training_data thres fold_indices
    distance_metric
  = Raise ValueError.
Proof.
  intros Hlen [mindist Hq] Hcover Hthres. unfold aoa.
  rewrite bool_decide_eq_false_2 by lia. rewrite Hq. cbn [mbind result_bind].
  unfold aoa_of_distances.
  destruct (masked_train_dist_returns (len (standardize training_data))
              (squareform (len (standardize training_data)) (pdist (standardize training_data)))
              fold_indices (squareform_square _ _) Hcover) as [m ->].
  cbn [mbind result_bind]. unfold aoa_threshold, np_quantile, Qcleb.
  destruct Hthres as [Hneg|Hbig].
  - rewrite (bool_decide_eq_false_2 (0 ≤ thres)) by (by apply Qclt_not_le). reflexivity.
  - rewrite (bool_decide_eq_false_2 (thres ≤ 1)) by (by apply Qclt_not_le).
    by rewrite andb_false_r.
Qed.

End aoa_folds.

Lemma aoa_of_distances_without_folds_witness :
  ∃ a t,
    0 < a ∧ 0 ≤ t ∧
    aoa_of_distances OneFeature.mindist OneFeature.train_dist OneFeature.thres None
    = Ok ((λ d, Fin (d / a)) <$> OneFeature.mindist,
          (λ d, if bool_decide (d / a ≤ t) then 1%Z else 0%Z) <$> OneFeature.mindist).
Proof.
  apply (aoa_of_distances_without_folds 2 OneFeature.mindist OneFeature.train_dist
           OneFeature.thres 0 1 [0; Qc_of_Z 2] (Qc_of_Z 2)); compute_done.
Defined.

Lemma aoa_mask_monotone_witness :
  aoa_of_distances OneFeature.mindist OneFeature.train_dist OneFeature.thres None
  = Ok (Fin <$> [Q2Qc (1 # 2); Q2Qc (1 # 4); Q2Qc (1 # 4); Q2Qc (1 # 4); Q2Qc (1 # 4)],
        [1; 1; 1; 1; 1]%Z)
  ∧ [1; 1; 1; 1; 1]%Z !! 1%nat = Some 1%Z.
Proof.
  assert (Haoa : aoa_of_distances OneFeature.mindist OneFeature.train_dist
                   OneFeature.thres None
                 = Ok (Fin <$> [Q2Qc (1 # 2); Q2Qc (1 # 4); Q2Qc (1 # 4); Q2Qc (1 # 4);
                                Q2Qc (1 # 4)],
                       [1; 1; 1; 1; 1]%Z)) by compute_done.
  split; [exact Haoa|].
  apply (aoa_mask_monotone OneFeature.mindist OneFeature.train_dist OneFeature.thres None
           [[NaN; Fin (Qc_of_Z 2)]; [Fin (Qc_of_Z 2); NaN]] (Qc_of_Z 2)
           (Fin <$> [Q2Qc (1 # 2); Q2Qc (1 # 4); Q2Qc (1 # 4); Q2Qc (1 # 4); Q2Qc (1 # 4)])
           [1; 1; 1; 1; 1]%Z 1 0 (Q2Qc (1 # 2)) 1);
    [compute_done | compute_done | compute_done | exact Haoa | compute_done..].
Defined.

Lemma aoa_ignores_folds_of_distinct_indices_witness :
  OneFeature.aoa OneFeature.new2 OneFeature.training5 OneFeature.thres
    (Some OneFeature.folds5) "euclidean"
  = OneFeature.aoa OneFeature.new2 OneFeature.training5 OneFeature.thres None "euclidean".
Proof.
  apply (aoa_ignores_folds_of_distinct_indices (length : OneFeature.frame → nat)
           OneFeature.standardize OneFeature.BallTree_query OneFeature.pdist
           OneFeature.new2 OneFeature.training5 OneFeature.thres
           [0; 1]%Z [[2; 3; 4]%Z] "euclidean").
  - compute_done.
  - reflexivity.
Defined.

Lemma aoa_quantile_out_of_range_witness :
  OneFeature.aoa OneFeature.new2 OneFeature.training5 (Qc_of_Z 2) None "euclidean"
  = Raise ValueError.
Proof.
  apply (aoa_quantile_out_of_range (length : OneFeature.frame → nat)
           OneFeature.standardize OneFeature.BallTree_query OneFeature.pdist
           OneFeature.new2 OneFeature.training5 (Qc_of_Z 2) None "euclidean").
  - cbn. lia.
  - eexists. vm_compute. reflexivity.
  - exact I.
  - right. compute_done.
Defined.

(** ** The spherical model *)

Section spherical_facts.

Lemma Qcdiv_1 (r : Qc) : r / 1 = r.
Proof. unfold Qcdiv. replace (/ 1) with 1 by compute_done. ring. Qed.

Lemma fdiv_1 (r : Qc) : fdiv (Fin r) (Fin 1) = Fin r.
Proof. cbn. rewrite bool_decide_eq_false_2 by compute_done. by rewrite Qcdiv_1. Qed.

(** The spherical curve on the unit interval. *)
Lemma spherical_at_within (h r sill nugget : Qc) :
  r ≠ 0 → h ≤ r →
  spherical_at (Fin h) (Fin r) (Fin sill) (Fin nugget)
  = Fin (nugget + sill * (Q2Qc (3 # 2) * (h / r)
                         - Q2Qc (1 # 2) * (h / r * (h / r * (h / r))))).
Proof.
  intros Hr Hle. unfold spherical_at. rewrite fdiv_1. cbn [fle]. unfold Qcleb.
  rewrite bool_decide_eq_true_2 by done. rewrite fdiv_fin by done. reflexivity.
Qed.

Lemma spherical_at_beyond (h r sill nugget : Qc) :
  r < h →
  spherical_at (Fin h) (Fin r) (Fin sill) (Fin nugget) = Fin (nugget + sill).
Proof.
  intros Hlt. unfold spherical_at. cbn [fle]. unfold Qcleb.
  rewrite bool_decide_eq_false_2 by (by apply Qclt_not_le). reflexivity.
Qed.

Lemma spherical_at_range (r sill nugget : Qc) :
  r ≠ 0 →
  spherical_at (Fin r) (Fin r) (Fin sill) (Fin nugget) = Fin (nugget + sill).
Proof.
  intros Hr. rewrite spherical_at_within by done. f_equal.
  unfold Qcdiv. rewrite Qcmult_inv_r by done.
  replace (Q2Qc (3 # 2) * 1 - Q2Qc (1 # 2) * (1 * (1 * 1))) with 1 by compute_done.
  ring.
Qed.

(** X22: from the range on the model sits on its plateau, nugget plus sill;
    it reaches the plateau at the range itself. *)
Theorem spherical_plateau (hs : list Qc) (r sill nugget : Qc) :
  r ≠ 0 → Forall (λ h, r ≤ h) hs →
  spherical (Fin <$> hs) [Fin r; Fin sill; Fin nugget]
  = Ok ((λ _, Fin (nugget + sill)) <$> hs).
Proof.
  intros Hr Hhs. unfold spherical, variogram.
  rewrite (mapM_Ok_fmap _ (λ _, Fin (nugget + sill))); [by rewrite <- list_fmap_compose|].
  intros x Hx. apply list_elem_of_fmap in Hx as (h & -> & Hh).
  pose proof (proj1 (Forall_forall _ _) Hhs h Hh) as Hle. cbn.
  f_equal. destruct (Qcle_lt_or_eq _ _ Hle) as [Hlt|<-].
  - by apply spherical_at_beyond.
  - by apply spherical_at_range.
Qed.

Lemma unit_product (a b : Qc) : 0 ≤ a → a ≤ 1 → 0 ≤ b → b ≤ 1 → 0 ≤ a * b ∧ a * b ≤ 1.
Proof.
  intros Ha0 Ha1 Hb0 Hb1. split; [by apply Qcmult_nonneg_nonneg|].
  trans (1 * b); [by apply Qcmult_le_compat_r | by rewrite Qcmult_1_l].
Qed.

Lemma Qcle_minus_nonneg (a b : Qc) : a ≤ b → 0 ≤ b - a.
Proof. apply Qcle_minus_iff. Qed.

Lemma Qcle_of_minus_nonneg (a b : Qc) : 0 ≤ b - a → a ≤ b.
Proof. apply Qcle_minus_iff. Qed.

Lemma half_nonneg : 0 ≤ Q2Qc (1 # 2).
Proof. compute_done. Qed.

Lemma curve_nonneg (u : Qc) : 0 ≤ u → u ≤ 1 → 0 ≤ curve u.
Proof.
  intros H0 H1. destruct (unit_product u u H0 H1 H0 H1) as [_ Huu].
  replace (curve u) with (Q2Qc (1 # 2) * (u * (2 + (1 - u * u)))).
  2:{ unfold curve. replace (Q2Qc (3 # 2)) with (Q2Qc (1 # 2) * (1 + 2)) by compute_done.
      ring. }
  apply Qcmult_nonneg_nonneg; [apply half_nonneg|].
  apply Qcmult_nonneg_nonneg; [done|].
  apply Qcplus_nonneg_nonneg; [compute_done | by apply Qcle_minus_nonneg].
Qed.

Lemma curve_le_1 (u : Qc) : 0 ≤ u → u ≤ 1 → curve u ≤ 1.
Proof.
  intros H0 H1. apply Qcle_of_minus_nonneg.
  assert (Hone : 1 = Q2Qc (1 # 2) * (1 + 1)) by compute_done.
  replace (1 - curve u) with (Q2Qc (1 # 2) * (1 + 1) - curve u) by (by rewrite <- Hone).
  replace (Q2Qc (1 # 2) * (1 + 1) - curve u)
    with (Q2Qc (1 # 2) * ((1 - u) * (1 - u) * (1 + 1 + u))).
  2:{ unfold curve.
      replace (Q2Qc (3 # 2)) with (Q2Qc (1 # 2) * (1 + 1 + 1)) by compute_done. ring. }
  assert (0 ≤ 1 - u) by (by apply Qcle_minus_nonneg).
  apply Qcmult_nonneg_nonneg; [apply half_nonneg|].
  apply Qcmult_nonneg_nonneg; [by apply Qcmult_nonneg_nonneg|].
  apply Qcplus_nonneg_nonneg; [compute_done | done].
Qed.

Lemma curve_mono (u v : Qc) : 0 ≤ u → u ≤ v → v ≤ 1 → curve u ≤ curve v.
Proof.
  intros H0 Huv H1. apply Qcle_of_minus_nonneg.
  assert (Hv0 : 0 ≤ v) by (by trans u).
  assert (Hu1 : u ≤ 1) by (by trans v).
  destruct (unit_product u u H0 Hu1 H0 Hu1) as [_ Huu].
  destruct (unit_product u v H0 Hu1 Hv0 H1) as [_ Huv'].
  destruct (unit_product v v Hv0 H1 Hv0 H1) as [_ Hvv].
  replace (curve v - curve u)
    with (Q2Qc (1 # 2) * ((v - u) * ((1 - v * v) + (1 - u * v) + (1 - u * u)))).
  2:{ unfold curve. replace (Q2Qc (3 # 2)) with (Q2Qc (1 # 2) * (1 + 1 + 1)) by compute_done.
      ring. }
  apply Qcmult_nonneg_nonneg; [apply half_nonneg|].
  apply Qcmult_nonneg_nonneg; [by apply Qcle_minus_nonneg|].
  apply Qcplus_nonneg_nonneg; [apply Qcplus_nonneg_nonneg|];
    by apply Qcle_minus_nonneg.
Qed.

Lemma ratio_unit (h r : Qc) : 0 < r → 0 ≤ h → h ≤ r → 0 ≤ h / r ∧ h / r ≤ 1.
Proof.
  intros Hr H0 Hle. split; [by apply Qcdiv_nonneg|].
  unfold Qcdiv. rewrite <- (Qcmult_inv_r r) by (intros ->; by apply (Qclt_not_eq 0 0)).
  apply Qcmult_le_compat_r; [done|]. by apply Qclt_le_weak, Qcinv_pos.
Qed.

Lemma ratio_mono (h h' r : Qc) : 0 < r → h ≤ h' → h / r ≤ h' / r.
Proof.
  intros Hr Hle. unfold Qcdiv. apply Qcmult_le_compat_r; [done|].
  by apply Qclt_le_weak, Qcinv_pos.
Qed.

Lemma spherical_at_value (h r sill nugget : Qc) :
  0 < r →
  spherical_at (Fin h) (Fin r) (Fin sill) (Fin nugget)
  = Fin (spherical_value h r sill nugget).
Proof.
  intros Hr. unfold spherical_value. case_bool_decide as Hle.
  - apply spherical_at_within; [|done]. intros ->. by apply (Qclt_not_eq 0 0).
  - apply spherical_at_beyond. by apply Qcnot_le_lt.
Qed.

Lemma spherical_value_bounds (h r sill nugget : Qc) :
  0 < r → 0 ≤ sill → 0 ≤ h →
  nugget ≤ spherical_value h r sill nugget
  ∧ spherical_value h r sill nugget ≤ nugget + sill.
Proof.
  intros Hr Hs Hh. unfold spherical_value. case_bool_decide as Hle.
  - destruct (ratio_unit h r Hr Hh Hle) as [Hu0 Hu1]. split.
    + rewrite <- (Qcplus_0_r nugget) at 1. apply Qcplus_le_mono_l.
      apply Qcmult_nonneg_nonneg; [done | by apply curve_nonneg].
    + apply Qcplus_le_mono_l. rewrite <- (Qcmult_1_r sill) at 2.
      apply Qcmult_le_mono_nonneg_l; [done | by apply curve_le_1].
  - split; [|done]. rewrite <- (Qcplus_0_r nugget) at 1. by apply Qcplus_le_mono_l.
Qed.

Lemma spherical_value_mono (h h' r sill nugget : Qc) :
  0 < r → 0 ≤ sill → 0 ≤ h → h ≤ h' →
  spherical_value h r sill nugget ≤ spherical_value h' r sill nugget.
Proof.
  intros Hr Hs Hh Hle.
  destruct (decide (h' ≤ r)) as [Hin|Hout].
  - unfold spherical_value. rewrite !bool_decide_eq_true_2 by (done || by trans h').
    apply Qcplus_le_mono_l, Qcmult_le_mono_nonneg_l; [done|].
    destruct (ratio_unit h' r Hr) as [_ Hu1]; [by trans h | done|].
    apply curve_mono; [by apply Qcdiv_nonneg | by apply ratio_mono | done].
  - unfold spherical_value at 2. rewrite bool_decide_eq_false_2 by done.
    by apply spherical_value_bounds.
Qed.

(** X23: with a positive range and a sill that is not negative, the model
    rises from the nugget to nugget plus sill: it stays between the two at
    every lag that is not negative, and never decreases as the lag grows. *)
Theorem spherical_rises_to_sill (h h' r sill nugget : Qc) :
  0 < r → 0 ≤ sill → 0 ≤ h → h ≤ h' →
  ∃ v v',
    spherical [Fin h; Fin h'] [Fin r; Fin sill; Fin nugget] = Ok [Fin v; Fin v']
    ∧ nugget ≤ v ∧ v ≤ v' ∧ v' ≤ nugget + sill.
Proof.
  intros Hr Hs Hh Hle.
  exists (spherical_value h r sill nugget), (spherical_value h' r sill nugget).
  split; [|split; [|split]].
  - unfold spherical, variogram. cbn. by rewrite !spherical_at_value.
  - by apply spherical_value_bounds.
  - by apply spherical_value_mono.
  - apply spherical_value_bounds; [done..|by trans h].
Qed.

End spherical_facts.

(** ** The range fit *)

Section Range_facts.
Context {GeoSeries : Type}.
Variable n_points : GeoSeries → nat.
Variable euclidean : GeoSeries → nat → nat → Qc.
Variable haversine : GeoSeries → nat → nat → Qc.
Variable curve_fit :
  (list float64 → list float64 → result (list float64)) →
  list float64 → list float64 → list float64 → float64 * list float64 →
  result (list float64).

Lemma band_mask_fits (pd_m : list (list Qc)) (x : list Qc) (lag bw : Qc) :
  square (length x) pd_m → mask_fits x (band_mask pd_m lag bw).
Proof.
  intros [Hlen Hrows] i Hi.
  destruct (lookup_lt_is_Some_2 pd_m i) as [r Hr]; [lia|].
  eexists. split; [by apply band_mask_lookup|].
  rewrite length_fmap. by eapply (Forall_lookup_1 _ _ _ _ Hrows).
Qed.

Lemma foldr_fmax_fin (q : Qc) (qs : list Qc) :
  ∃ v, foldr fmax (Fin q) (Fin <$> qs) = Fin v.
Proof.
  induction qs as [|q' qs [v IH]]; [by exists q|].
  rewrite fmap_cons, foldr_cons, IH. unfold fmax. destruct (fle _ _); eauto.
Qed.

Lemma np_nanmax_fin (q : Qc) (qs : list Qc) :
  ∃ v, np_nanmax (Fin <$> q :: qs) = Ok (Fin v).
Proof.
  destruct (foldr_fmax_fin q qs) as [v Hv]. exists v.
  unfold np_nanmax. rewrite drop_nan_of_fin, fmap_cons. cbn [mret result_ret].
  by rewrite Hv.
Qed.

Lemma np_nanmax_zeros {A} (a : A) (l : list A) :
  np_nanmax (Fin <$> ((λ _, 0) <$> a :: l)) = Ok (Fin 0).
Proof.
  unfold np_nanmax. rewrite drop_nan_of_fin, !fmap_cons. cbn [mret result_ret].
  f_equal. induction l as [|b l IH]; [reflexivity|].
  rewrite !fmap_cons, foldr_cons, IH. reflexivity.
Qed.

(** X24: without lags there is nothing to fit: whatever the metric,
    [calculate_range] raises [ValueError], from the maximum of an empty array,
    before the fit is called. *)
Theorem calculate_range_without_lags (XYs : GeoSeries) (col : list Qc) (bw : Qc)
    (distance_metric col_name : string) :
  calculate_range n_points euclidean haversine curve_fit
    (XYs, col, [], bw, distance_metric, col_name)
  = Raise ValueError.
Proof. reflexivity. Qed.

(** X25: for a column that takes one value only every semivariance is 0, so
    the fit is started at a sill of 0 and the sill is bounded by 0 from
    above as well as from below. *)
Theorem calculate_range_constant_column (XYs : GeoSeries) (col lags : list Qc) (bw : Qc)
    (distance_metric col_name : string) (pd_m : list (list Qc)) :
  pairwise_distances n_points euclidean haversine XYs distance_metric = Some pd_m →
  length col = n_points XYs →
  (∀ a b, a ∈ col → b ∈ col → a = b) →
  lags ≠ [] →
  ∃ hmax,
    np_nanmax (Fin <$> lags) = Ok (Fin hmax) ∧
    calculate_range n_points euclidean haversine curve_fit
      (XYs, col, lags, bw, distance_metric, col_name)
    = cof ← curve_fit spherical (Fin <$> lags) (Fin <$> ((λ _, 0) <$> lags))
               [Fin hmax; Fin 0] (Fin 0, [Fin hmax; Fin 0]);
      lookup_or IndexError cof 0.
Proof.
  intros Hpd Hlen Hconst Hne. destruct lags as [|lag lags]; [done|].
  destruct (np_nanmax_fin lag lags) as [hmax Hmax]. exists hmax. split; [done|].
  unfold calculate_range.
  assert (Hsemis : variogram_at_lag n_points euclidean haversine XYs col (lag :: lags) bw
                     distance_metric col_name
                   = Ok ((λ _, 0) <$> lag :: lags, lag :: lags)).
  { unfold variogram_at_lag. rewrite Hpd.
    rewrite (mapM_Ok_fmap _ (λ _, 0)); [reflexivity|].
    intros l _. cbn [mbind result_bind].
    destruct (rows_of_constant col (band_mask pd_m l bw) Hconst) as (rows & Hrows & H0).
    { apply band_mask_fits. rewrite Hlen. by eapply pairwise_distances_square. }
    rewrite (compute_semivariance_of_rows col _ bw col_name rows Hrows).
    by rewrite H0. }
  rewrite Hsemis. cbn [mbind result_bind fst snd]. rewrite Hmax.
  cbn [mbind result_bind]. rewrite np_nanmax_zeros. reflexivity.
Qed.

(** X26: [workers = -1], documented as all available cores, is handed to
    [multiprocessing.Pool] as the number of processes, which refuses it: the
    function raises [ValueError] before any column is looked at. With every
    other number of workers the ranges are those of the columns, in order. *)
Theorem autocorrelation_ranges_workers (XYs : GeoSeries) (X : list (string * list Qc))
    (lags : list Qc) (bw : Qc) (distance_metric : string) :
  autocorrelation_ranges n_points euclidean haversine curve_fit XYs X lags bw
    distance_metric (-1)
  = Raise ValueError
  ∧ ∀ workers : Z, workers ≠ (-1)%Z →
      autocorrelation_ranges n_points euclidean haversine curve_fit XYs X lags bw
        distance_metric workers
      = mapM (λ column : string * list Qc,
                calculate_range n_points euclidean haversine curve_fit
                  (XYs, column.2, lags, bw, distance_metric, column.1)) X.
Proof.
  split; [reflexivity|]. intros workers Hw. unfold autocorrelation_ranges.
  rewrite (bool_decide_eq_false_2 (workers = (-1)%Z)) by done. cbn [orb].
  case_bool_decide as H1; [|reflexivity].
  unfold Pool. rewrite bool_decide_eq_false_2 by lia. reflexivity.
Qed.

End Range_facts.

Lemma spherical_plateau_witness :
  spherical (Fin <$> [Qc_of_Z 2; Qc_of_Z 3]) [Fin (Qc_of_Z 2); Fin 1; Fin 0]
  = Ok ((λ _, Fin (0 + 1)) <$> [Qc_of_Z 2; Qc_of_Z 3]).
Proof.
  apply (spherical_plateau [Qc_of_Z 2; Qc_of_Z 3] (Qc_of_Z 2) 1 0).
  - compute_done.
  - repeat constructor; compute_done.
Defined.

Lemma spherical_rises_to_sill_witness :
  ∃ v v',
    spherical [Fin 1; Fin (Qc_of_Z 2)] [Fin (Qc_of_Z 2); Fin 1; Fin 0] = Ok [Fin v; Fin v']
    ∧ 0 ≤ v ∧ v ≤ v' ∧ v' ≤ 0 + 1.
Proof.
  apply (spherical_rises_to_sill 1 (Qc_of_Z 2) (Qc_of_Z 2) 1 0); compute_done.
Defined.

Lemma calculate_range_constant_column_witness :
  ∃ hmax,
    np_nanmax (Fin <$> [1; Qc_of_Z 2]) = Ok (Fin hmax) ∧
    calculate_range Line.n_points Line.euclidean Line.haversine
      (λ _ _ _ p0 _, Ok p0)
      (Line.points, [1; 1; 1], [1; Qc_of_Z 2], 1, "euclidean", "x")
    = cof ← Ok [Fin hmax; Fin 0];
      lookup_or IndexError cof 0.
Proof.
  apply (calculate_range_constant_column Line.n_points Line.euclidean Line.haversine
           (λ _ _ _ p0 _, Ok p0) Line.points [1; 1; 1] [1; Qc_of_Z 2] 1 "euclidean" "x"
           (squareform (Line.n_points Line.points) (Line.euclidean Line.points))).
  - reflexivity.
  - reflexivity.
  - intros a b Ha Hb.
    repeat (apply elem_of_cons in Ha as [->|Ha]); [..|by apply elem_of_nil in Ha];
      repeat (apply elem_of_cons in Hb as [->|Hb]); try reflexivity;
      by apply elem_of_nil in Hb.
  - discriminate.
Defined.
